(** * PDF-RAVEN: candidate generators, batch worker, dispatcher and session store

    A shallow embedding of [pdfraven/generators.py], [pdfraven/cracker.py],
    [pdfraven/database.py] and the parts of [pdfraven/config.py] and
    [pdfraven/main.py] they depend on, followed by the properties of the
    design document that were checked against them and by further
    properties of the code.

    Conventions.
    - A Python [str] is a [string] (one [ascii] per code point; the sources
      only build and compare Latin-1 text).
    - A Python [int] is a [Z]; the limit that CPython can put on the number
      of digits of a string converted to or from an [int] is taken to be off.
    - Paths are POSIX paths.
    - A generator is the list of the values it yields; a generator (or a
      function) that can raise returns a [result].  Every generator of
      [generators.py] raises, if at all, before its first [yield], so a raising
      generator carries no partial output.
    - [None] is [None]; Python truthiness of an optional string is [truthy]. *)

From Stdlib Require Import ZArith Lia List String Ascii Bool.
From stdpp Require Import base option list sorting strings gmap.

Set Warnings "-register-all".
Local Open Scope Z_scope.

(** ** Python primitives used by the sources *)

Module Py.

(** Exceptions that the modelled code can raise; [MarkupError] is the one
    of the [rich] library. *)
Inductive exn : Type :=
| ValueError
| TypeError
| UnicodeDecodeError
| ZeroDivisionError
| OverflowError
| OSError
| MarkupError.

Inductive result (A : Type) : Type :=
| Ok (a : A)
| Raise (e : exn).
Arguments Ok {A} a.
Arguments Raise {A} e.

Definition bind {A B : Type} (r : result A) (k : A -> result B) : result B :=
  match r with
  | Ok a => k a
  | Raise e => Raise e
  end.

#[global] Instance result_bind : MBind result := fun A B k r => bind r k.
#[global] Instance result_ret : MRet result := fun A a => Ok a.

(** [bool(s)] for [s : Optional[str]]: [None] and the empty string are falsy. *)
Definition truthy (o : option string) : bool :=
  match o with
  | Some (String _ _) => true
  | _ => false
  end.

(** [range(a, b)]. *)
Definition range (a b : Z) : list Z :=
  map (fun i : nat => a + Z.of_nat i) (seq 0 (Z.to_nat (b - a))).

Definition chars (s : string) : list ascii := list_ascii_of_string s.
Definition join (l : list ascii) : string := string_of_list_ascii l.

Definition code (c : ascii) : N := N_of_ascii c.

Definition is_digit (c : ascii) : bool :=
  ((48 <=? code c) && (code c <=? 57))%N.

(** [str.isspace] on the Latin-1 range. *)
Definition is_space (c : ascii) : bool :=
  let n := code c in
  (((9 <=? n) && (n <=? 13)) || ((28 <=? n) && (n <=? 32))
   || (n =? 133) || (n =? 160))%N.

Fixpoint lstrip (l : list ascii) : list ascii :=
  match l with
  | c :: l' => if is_space c then lstrip l' else l
  | [] => []
  end.

(** [s.strip()] *)
Definition strip (s : string) : string :=
  join (rev (lstrip (rev (lstrip (chars s))))).

Definition digit_val (c : ascii) : Z := Z.of_N (code c) - 48.

Definition digit_char (d : Z) : ascii := ascii_of_N (Z.to_N (d + 48)).

(** The digits of [int(...)]: decimal digits, single underscores allowed
    between two digits. [prev] tells whether the previous character was a
    digit. *)
Fixpoint int_digits (prev : bool) (acc : Z) (l : list ascii) : option Z :=
  match l with
  | [] => if prev then Some acc else None
  | c :: l' =>
      if is_digit c then int_digits true (10 * acc + digit_val c) l'
      else if Ascii.eqb c "_" && prev then int_digits false acc l'
      else None
  end.

(** The whitespace that [int] skips around a number: the six ASCII
    characters of C's [isspace], and the next-line and no-break-space
    characters, which it first turns into spaces. The separators U+001C to
    U+001F, which [str.strip] removes, are not among them. *)
Definition is_int_space (c : ascii) : bool :=
  let n := code c in
  (((9 <=? n) && (n <=? 13)) || (n =? 32) || (n =? 133) || (n =? 160))%N.

Fixpoint int_lstrip (l : list ascii) : list ascii :=
  match l with
  | c :: l' => if is_int_space c then int_lstrip l' else l
  | [] => []
  end.

Definition int_strip (s : string) : string :=
  join (rev (int_lstrip (rev (int_lstrip (chars s))))).

(** [int(s)] for a string: surrounding whitespace, an optional sign, decimal
    digits. [ValueError] otherwise. *)
Definition int (s : string) : result Z :=
  let body := chars (int_strip s) in
  let parsed :=
    match body with
    | "-"%char :: ds => Z.opp <$> int_digits false 0 ds
    | "+"%char :: ds => int_digits false 0 ds
    | ds => int_digits false 0 ds
    end in
  match parsed with
  | Some z => Ok z
  | None => Raise ValueError
  end.

(** Decimal digits of a non-negative integer, most significant first. The
    fuel bounds the number of digits. *)
Fixpoint digits_fuel (fuel : nat) (n : Z) (acc : list ascii) : list ascii :=
  match fuel with
  | O => acc
  | S f =>
      let acc' := digit_char (n mod 10) :: acc in
      if n <? 10 then acc' else digits_fuel f (n / 10) acc'
  end.

Definition digits (n : Z) : list ascii :=
  digits_fuel (S (Z.to_nat (Z.log2 n))) n [].

(** [str(i)] for an integer. *)
Definition str (i : Z) : string :=
  if i <? 0 then join ("-"%char :: digits (- i)) else join (digits i).

(** [f"{i:0{width}d}"]: sign-aware zero padding to [width] characters. *)
Definition format_0d (width : nat) (i : Z) : string :=
  let ds := digits (Z.abs i) in
  if i <? 0
  then join ("-"%char :: replicate (width - 1 - length ds) "0"%char ++ ds)
  else join (replicate (width - length ds) "0"%char ++ ds).

(** [itertools.product] over a list of pools: the rightmost pool varies
    fastest. *)
Definition product_step {A : Type} (acc : list (list A)) (pool : list A)
  : list (list A) :=
  flat_map (fun x => map (fun y => x ++ [y]) pool) acc.

Definition product {A : Type} (pools : list (list A)) : list (list A) :=
  fold_left product_step pools [[]].

(** [itertools.product(pool, repeat=n)]; a negative [repeat] is a
    [ValueError]. *)
Definition product_repeat {A : Type} (pool : list A) (n : Z)
  : result (list (list A)) :=
  if n <? 0 then Raise ValueError
  else Ok (product (replicate (Z.to_nat n) pool)).

(** [s.startswith(p)] *)
Fixpoint startswith (s p : list ascii) : bool :=
  match p, s with
  | [], _ => true
  | c :: p', d :: s' => Ascii.eqb c d && startswith s' p'
  | _ :: _, [] => false
  end.

End Py.

Import Py.

(** ** [pdfraven/cracker.py]: the batch worker *)

Module Cracker.

(** What [pikepdf.open(pdf_path, password=...)] does for one password. *)
Inductive open_outcome : Type :=
| Opened
| PasswordError
| OtherError.

Section Worker.

(** The document: the outcome of opening it with each password. *)
Variable pdf : string -> open_outcome.

Fixpoint attempt_crack_batch (passwords : list string) : option string :=
  match passwords with
  | [] => None
  | password :: rest =>
      match pdf password with
      | Opened => Some password
      | PasswordError => attempt_crack_batch rest
      | OtherError => attempt_crack_batch rest
      end
  end.

End Worker.

End Cracker.

(** ** [pdfraven/config.py]: character sets *)

Module Config.

Definition LOWERCASE : string := "abcdefghijklmnopqrstuvwxyz".
Definition UPPERCASE : string := "ABCDEFGHIJKLMNOPQRSTUVWXYZ".
Definition DIGITS : string := "0123456789".

(** The symbol characters listed on the [SYMBOLS] line; the double quote is
    code point 34. *)
Definition SYMBOLS : string :=
  "!@#$%^&*()-_+=~`[]{}|\:;" +:+ String (ascii_of_nat 34) "'<>,.?/".
Definition WHITESPACE : string := " ".
Definition HEX : string := "0123456789abcdef".

Definition CHARSET_MAP (key : ascii) : option string :=
  if Ascii.eqb key "w" then Some LOWERCASE
  else if Ascii.eqb key "W" then Some UPPERCASE
  else if Ascii.eqb key "d" then Some DIGITS
  else if Ascii.eqb key "s" then Some SYMBOLS
  else if Ascii.eqb key "b" then Some WHITESPACE
  else if Ascii.eqb key "h" then Some HEX
  else if Ascii.eqb key "a"
       then Some (LOWERCASE +:+ UPPERCASE +:+ DIGITS +:+ SYMBOLS +:+ WHITESPACE)
  else None.

End Config.

(** ** [pdfraven/generators.py] *)

Module Generators.

Import Config.

(** One parsed mask segment: [(CHARSET_MAP[char_type], range(min_len, max_len + 1))]. *)
Record segment : Type := Segment {
  seg_charset : string;
  seg_len_range : list Z
}.

(** [len_match.split(',')] unpacked into two names: exactly one comma. *)
Fixpoint split_comma (l : list ascii) : list ascii * option (list ascii) :=
  match l with
  | [] => ([], None)
  | c :: l' =>
      if Ascii.eqb c "," then ([], Some l')
      else let '(a, b) := split_comma l' in (c :: a, b)
  end.

Definition has_comma (l : list ascii) : bool :=
  existsb (fun c => Ascii.eqb c ",") l.

(** The length bounds written between the braces of a mask segment. *)
Definition parse_len_match (len_match : list ascii) : result (Z * Z) :=
  if has_comma len_match then
    match split_comma len_match with
    | (min_str, Some max_str) =>
        if has_comma max_str then Raise ValueError
        else
          min_len ← (match min_str with
                      | [] => Ok 1
                      | _ => int (join min_str)
                      end);
          max_len ← (match max_str with
                      | [] => Ok min_len
                      | _ => int (join max_str)
                      end);
          Ok (min_len, max_len)
    | (_, None) => Raise ValueError
    end
  else
    match len_match with
    | [] => Ok (1, 1)
    | _ => n ← int (join len_match); Ok (n, n)
    end.

Definition mk_segment (charset : string) (bounds : Z * Z) : segment :=
  Segment charset (range (fst bounds) (snd bounds + 1)).

(** The [while i < len(mask)] loop of [parse_mask]; the inner fixpoint is the
    scan for the closing brace. *)
Fixpoint parse_mask_loop (mask : list ascii) : result (list segment) :=
  match mask with
  | [] => Ok []
  | char_type :: after =>
      match CHARSET_MAP char_type with
      | None => Raise ValueError
      | Some charset =>
          match after with
          | "{"%char :: inside =>
              (fix scan (len_match : list ascii) (l : list ascii)
                 : result (list segment) :=
                 match l with
                 | [] => Raise ValueError
                 | c :: l' =>
                     if Ascii.eqb c "}" then
                       bounds ← parse_len_match len_match;
                       rest ← parse_mask_loop l';
                       Ok (mk_segment charset bounds :: rest)
                     else scan (len_match ++ [c]) l'
                 end) [] inside
          | _ =>
              rest ← parse_mask_loop after;
              Ok (mk_segment charset (1, 1) :: rest)
          end
      end
  end.

Definition parse_mask (mask : string) : result (list segment) :=
  match mask with
  | EmptyString => Raise ValueError
  | _ =>
      parsed ← parse_mask_loop (chars mask);
      match parsed with
      | [] => Raise ValueError
      | _ => Ok parsed
      end
  end.

(** *** Estimation *)

(** The value returned by an estimator: a Python [int], a value that is not an
    [int] (the [float] that [len(charset) ** length] produces for a negative
    [length] and everything computed from it, or [None] when that float
    arithmetic overflows), or [None]. *)
Inductive estimate : Type :=
| EstInt (n : Z)
| EstNotInt
| EstNone.

(** [len_sum] after the inner loop of [estimate_total_from_mask]: [None]
    stands for a float. *)
Fixpoint len_sum_loop (n : Z) (len_range : list Z) (len_sum : option Z)
  : option Z :=
  match len_range with
  | [] => len_sum
  | length :: rest =>
      let len_sum' :=
        if length <? 0 then None
        else (fun s => s + n ^ length) <$> len_sum in
      len_sum_loop n rest len_sum'
  end.

Fixpoint total_loop (parsed_mask : list segment) (total : option Z)
  : option Z :=
  match parsed_mask with
  | [] => total
  | Segment charset len_range :: rest =>
      let len_sum :=
        len_sum_loop (Z.of_nat (String.length charset)) len_range (Some 0) in
      let total' :=
        match total, len_sum with
        | Some t, Some s => Some (t * s)
        | _, _ => None
        end in
      total_loop rest total'
  end.

Definition estimate_total_from_mask (mask : string) : estimate :=
  match parse_mask mask with
  | Raise _ => EstNone
  | Ok [] => EstNone
  | Ok parsed_mask =>
      match total_loop parsed_mask (Some 1) with
      | Some total => EstInt total
      | None => EstNotInt
      end
  end.

(** An [int] that is added to a [float] is converted first, which raises
    [OverflowError] from [2**1024 - 2**970] on. *)
Definition float_overflows (z : Z) : bool := 2 ^ 1024 - 2 ^ 970 <=? Z.abs z.

(** [total] after the loop of [estimate_total_custom_brute]: [None] stands
    for a float. For a negative [length] the power is taken on floats: both
    operands are converted, and [0.0 ** length] raises [ZeroDivisionError],
    which is the case of the empty charset. *)
Fixpoint custom_brute_total (n : Z) (lengths : list Z) (total : option Z)
  : result (option Z) :=
  match lengths with
  | [] => Ok total
  | length :: rest =>
      total' ← (if length <? 0 then
                  if float_overflows n || float_overflows length
                  then Raise OverflowError
                  else if n =? 0 then Raise ZeroDivisionError
                  else
                    match total with
                    | Some t =>
                        if float_overflows t then Raise OverflowError
                        else Ok None
                    | None => Ok None
                    end
                else
                  match total with
                  | Some t => Ok (Some (t + n ^ length))
                  | None =>
                      if float_overflows (n ^ length) then Raise OverflowError
                      else Ok None
                  end);
      custom_brute_total n rest total'
  end.

Definition estimate_total_custom_brute (charset : string) (min_len max_len : Z)
  : result estimate :=
  if max_len <? min_len then Ok (EstInt 0)
  else
    total ← custom_brute_total (Z.of_nat (String.length charset))
              (range min_len (max_len + 1)) (Some 0);
    match total with
    | Some t => Ok (EstInt t)
    | None => Ok EstNotInt
    end.

(** *** Password generators *)

(** [x == start_after] for a string [x] and an optional string. *)
Definition eq_start (x : string) (start_after : option string) : bool :=
  bool_decide (Some x = start_after).

(** The lines a text-mode file object iterates over (universal newlines:
    a line ends at [\n], [\r\n] or [\r], each read as [\n]). [cur] is the
    current line, reversed. *)
Fixpoint text_lines (content : list ascii) (cur : list ascii) : list string :=
  match content with
  | [] =>
      match cur with
      | [] => []
      | _ => [join (rev cur)]
      end
  | c :: rest =>
      if Ascii.eqb c (ascii_of_nat 10) then
        join (rev (ascii_of_nat 10 :: cur)) :: text_lines rest []
      else if Ascii.eqb c (ascii_of_nat 13) then
        match rest with
        | d :: rest' =>
            if Ascii.eqb d (ascii_of_nat 10)
            then join (rev (ascii_of_nat 10 :: cur)) :: text_lines rest' []
            else join (rev (ascii_of_nat 10 :: cur)) :: text_lines rest []
        | [] => join (rev (ascii_of_nat 10 :: cur)) :: text_lines rest []
        end
      else text_lines rest (c :: cur)
  end.

(** [for line in f] of [gen_wordlist]. *)
Fixpoint wordlist_loop (start_after : option string) (found_start : bool)
  (lines : list string) : list string :=
  match lines with
  | [] => []
  | line :: rest =>
      let stripped_line := strip line in
      if negb found_start && eq_start stripped_line start_after
      then wordlist_loop start_after true rest
      else if found_start
           then stripped_line :: wordlist_loop start_after found_start rest
           else wordlist_loop start_after found_start rest
  end.

(** [gen_wordlist]; [content] is the bytes of the file at [path], which
    Latin-1 decodes one to one. *)
Definition gen_wordlist (content : string) (start_after : option string)
  : list string :=
  wordlist_loop start_after (negb (truthy start_after))
    (text_lines (chars content) []).

Definition gen_range (start end_ : Z) (start_after : option string)
  : result (list string) :=
  current ← (match start_after with
              | Some ((String _ _) as s) => i ← int s; Ok (i + 1)
              | _ => Ok start
              end);
  Ok (map str (range current (end_ + 1))).

(** [10 ** length] is a float for a negative [length], which [range]
    rejects with a [TypeError]. *)
Definition gen_numeric (length : Z) (start_after : option string)
  : result (list string) :=
  start_num ← (match start_after with
                | Some ((String _ _) as s) => i ← int s; Ok (i + 1)
                | _ => Ok 0
                end);
  if length <? 0 then Raise TypeError
  else Ok (map (format_0d (Z.to_nat length)) (range start_num (10 ^ length))).

(** [calendar.isleap] and the number of days [calendar.monthrange] returns. *)
Definition isleap (year : Z) : bool :=
  (year mod 4 =? 0) && (negb (year mod 100 =? 0) || (year mod 400 =? 0)).

Definition mdays (month : Z) : Z :=
  if month =? 2 then 28
  else if (month =? 4) || (month =? 6) || (month =? 9) || (month =? 11) then 30
  else 31.

Definition num_days (year month : Z) : Z :=
  mdays month + (if (month =? 2) && isleap year then 1 else 0).

(** [s[2:]] *)
Definition drop2 (s : string) : string := join (drop 2 (chars s)).

(** [separator.join(formatted_date_parts)] for the six formats. *)
Definition format_date (date_format separator : string) (year month day : Z)
  : result string :=
  let d := format_0d 2 day in
  let m := format_0d 2 month in
  let y_full := str year in
  let y_short := drop2 (str year) in
  let join3 (a b c : string) := a +:+ separator +:+ b +:+ separator +:+ c in
  if String.eqb date_format "DDMMYYYY" then Ok (join3 d m y_full)
  else if String.eqb date_format "YYYYMMDD" then Ok (join3 y_full m d)
  else if String.eqb date_format "MMDDYYYY" then Ok (join3 m d y_full)
  else if String.eqb date_format "DDMMYY" then Ok (join3 d m y_short)
  else if String.eqb date_format "YYMMDD" then Ok (join3 y_short m d)
  else if String.eqb date_format "MMDDYY" then Ok (join3 m d y_short)
  else Raise ValueError.

(** The three nested [for] loops of [gen_date], in iteration order. *)
Definition all_days (start_year end_year : Z) : list (Z * Z * Z) :=
  year ← range start_year (end_year + 1);
  month ← range 1 13;
  day ← range 1 (num_days year month + 1);
  [(year, month, day)].

(** The body of the innermost loop once [current_date_str] is built. *)
Fixpoint date_loop (start_after : option string) (resume_date_found : bool)
  (dates : list string) : list string :=
  match dates with
  | [] => []
  | current_date_str :: rest =>
      if negb resume_date_found then
        date_loop start_after (eq_start current_date_str start_after) rest
      else current_date_str :: date_loop start_after resume_date_found rest
  end.

(** [gen_date]. An unknown format raises at the first date, before anything
    is yielded, and never raises when the year range is empty. *)
Definition gen_date (start_year end_year : Z) (date_format separator : string)
  (start_after : option string) : result (list string) :=
  dates ← mapM (fun '(year, month, day) =>
                  format_date date_format separator year month day)
               (all_days start_year end_year);
  Ok (date_loop start_after (negb (truthy start_after)) dates).

(** *** The two regular expressions of [gen_custom_query] *)

Fixpoint span_digits (l : list ascii) : list ascii * list ascii :=
  match l with
  | c :: l' =>
      if is_digit c
      then let '(ds, rest) := span_digits l' in (c :: ds, rest)
      else ([], l)
  | [] => ([], [])
  end.

(** A match of the brace block [{MIN-MAX}] (two non-empty runs of digits
    around a dash) anchored at the head of [l]: the two digit
    groups and what follows the closing brace. Both groups are followed by a
    non-digit, so each is the whole run of digits. *)
Definition block_at (l : list ascii)
  : option (list ascii * list ascii * list ascii) :=
  match l with
  | "{"%char :: l1 =>
      match span_digits l1 with
      | ((_ :: _) as a, "-"%char :: l2) =>
          match span_digits l2 with
          | ((_ :: _) as b, "}"%char :: l3) => Some (a, b, l3)
          | _ => None
          end
      | _ => None
      end
  | _ => None
  end.

(** The pattern of [gen_custom_query] (a greedy group of any characters, the
    brace block, a second group of any characters) matched from the head of
    one line, that is of text without a newline: the greedy first group takes
    the block that starts last. *)
Fixpoint search_line (l : list ascii)
  : option (list ascii * list ascii * list ascii * list ascii) :=
  match l with
  | [] => None
  | c :: l' =>
      match search_line l' with
      | Some (prefix, a, b, suffix) => Some (c :: prefix, a, b, suffix)
      | None =>
          match block_at l with
          | Some (a, b, suffix) => Some ([], a, b, suffix)
          | None => None
          end
      end
  end.

(** [s.split("\n")] *)
Fixpoint split_lines (l : list ascii) (cur : list ascii)
  : list (list ascii) :=
  match l with
  | [] => [rev cur]
  | c :: l' =>
      if Ascii.eqb c (ascii_of_nat 10) then rev cur :: split_lines l' []
      else split_lines l' (c :: cur)
  end.

(** [re.search] of that pattern in [query]: the dot does not match a
    newline, so the match lies within one line, and the leftmost match is in
    the first line that has a block. *)
Definition search_query (query : string)
  : option (list ascii * list ascii * list ascii * list ascii) :=
  head (omap search_line (split_lines (chars query) [])).

(** The match of the digit-run pattern searched in [start_after]: the first
    run of digits. *)
Fixpoint first_digits (l : list ascii) : option (list ascii) :=
  match l with
  | [] => None
  | c :: l' => if is_digit c then Some (fst (span_digits l)) else first_digits l'
  end.

(** The value of a non-empty run of digits, as [int] computes it. *)
Definition int_of_digits (ds : list ascii) : Z :=
  fold_left (fun acc c => 10 * acc + digit_val c) ds 0.

Definition gen_custom_query (query : string) (add_zeros : bool)
  (start_after : option string) : list string :=
  match search_query query with
  | None => []
  | Some (prefix, g2, g3, suffix) =>
      let start := int_of_digits g2 in
      let end_ := int_of_digits g3 in
      let width := if add_zeros then length g3 else O in
      let start_num :=
        match start_after with
        | Some ((String _ _) as s) =>
            match first_digits (chars s) with
            | Some ds => int_of_digits ds + 1
            | None => start
            end
        | _ => 0
        end in
      map (fun i =>
             let num := if add_zeros then format_0d width i else str i in
             join prefix +:+ num +:+ join suffix)
          (range (Z.max start start_num) (end_ + 1))
  end.

(** [itertools.chain] of [itertools.product(charset, repeat=length)] over the
    lengths of one segment. *)
Definition segment_products (charset : string) (len_range : list Z)
  : result (list (list ascii)) :=
  len_iterators ← mapM (fun length => product_repeat (chars charset) length)
                       len_range;
  Ok (concat len_iterators).

(** The loop over [itertools.product] of the segment iterators. *)
Fixpoint mask_loop (start_after : option string) (resuming : bool)
  (combinations : list (list (list ascii))) : list string :=
  match combinations with
  | [] => []
  | combination_tuple :: rest =>
      let password := join (concat combination_tuple) in
      if resuming then
        mask_loop start_after (negb (eq_start password start_after)) rest
      else password :: mask_loop start_after resuming rest
  end.

(** [gen_from_mask] after [parse_mask]. *)
Definition gen_from_parsed (parsed_mask : list segment)
  (start_after : option string) : result (list string) :=
  segment_product_iterators ←
    mapM (fun s => segment_products (seg_charset s) (seg_len_range s))
         parsed_mask;
  match segment_product_iterators with
  | [] => Ok []
  | _ =>
      Ok (mask_loop start_after (truthy start_after)
            (product segment_product_iterators))
  end.

Definition gen_from_mask (mask : string) (start_after : option string)
  : result (list string) :=
  parsed_mask ← parse_mask mask;
  gen_from_parsed parsed_mask start_after.

(** [^\d+-\d+$] matched by [re.match]: two runs of digits around a dash; the
    dollar also matches before one final newline. *)
Definition match_range (mask_string : string)
  : option (list ascii * list ascii) :=
  match span_digits (chars mask_string) with
  | ((_ :: _) as a, "-"%char :: l) =>
      match span_digits l with
      | ((_ :: _) as b, []) => Some (a, b)
      | ((_ :: _) as b, [c]) =>
          if Ascii.eqb c (ascii_of_nat 10) then Some (a, b) else None
      | _ => None
      end
  | _ => None
  end.

Section FileSystem.

(** The regular files: the bytes of the file at a path, if there is one. *)
Variable fs : string -> option string.

(** The generator that [get_generator_for_mask] returns, as the values it
    yields; [Raise] when the call or the first pull raises. *)
Definition get_generator_for_mask (mask_string : string)
  (start_after : option string) : result (list string) :=
  match fs mask_string with
  | Some content => Ok (gen_wordlist content start_after)
  | None =>
      match match_range mask_string with
      | Some (a, b) =>
          let start := int_of_digits a in
          let end_ := int_of_digits b in
          if end_ <=? start then Raise ValueError
          else gen_range start end_ start_after
      | None => gen_from_mask mask_string start_after
      end
  end.

(** The outer [for part1 in gen1] loop of [gen_hybrid]; [last_parts] is the
    two-element list the loop reads and resets. *)
Fixpoint hybrid_loop (mask2 : string) (last_parts : option string * option string)
  (gen1 : list string) : result (list string) :=
  match gen1 with
  | [] => Ok []
  | part1 :: rest =>
      let current_start_after_part2 :=
        if bool_decide (Some part1 = fst last_parts)
        then snd last_parts else None in
      gen2 ← get_generator_for_mask mask2 current_start_after_part2;
      more ← hybrid_loop mask2 (None, snd last_parts) rest;
      Ok (map (fun part2 => part1 +:+ part2) gen2 ++ more)
  end.

(** [start_after[len(part1):]] *)
Definition after_prefix (s part1 : string) : string :=
  join (drop (String.length part1) (chars s)).

Definition gen_hybrid (masks : list string) (start_after : option string)
  : result (list string) :=
  match masks with
  | [mask1; mask2] =>
      let last_parts :=
        match start_after with
        | Some ((String _ _) as sa) =>
            match get_generator_for_mask mask1 None with
            | Ok gen1_preview =>
                match find (fun part1 => startswith (chars sa) (chars part1))
                           gen1_preview with
                | Some part1 => (Some part1, Some (after_prefix sa part1))
                | None => (None, None)
                end
            | Raise _ => (None, None)
            end
        | _ => (None, None)
        end in
      gen1 ← get_generator_for_mask mask1 (fst last_parts);
      hybrid_loop mask2 last_parts gen1
  | _ => Raise ValueError
  end.

End FileSystem.

(** [itertools.dropwhile(lambda x: x != start_tuple, g)] followed by
    [next(g, None)]. *)
Fixpoint drop_through (start_tuple : list ascii) (g : list (list ascii))
  : list (list ascii) :=
  match g with
  | [] => []
  | x :: g' =>
      if bool_decide (x = start_tuple) then g' else drop_through start_tuple g'
  end.

(** The [for length in range(start_len, max_l + 1)] loop of
    [gen_custom_brute]; [start_after] is cleared once it has been used. *)
Fixpoint custom_brute_loop (charset : string) (start_after : option string)
  (lengths : list Z) : result (list string) :=
  match lengths with
  | [] => Ok []
  | length :: rest =>
      g ← product_repeat (chars charset) length;
      let '(g', start_after') :=
        match start_after with
        | Some ((String _ _) as sa) =>
            if Z.of_nat (String.length sa) =? length
            then (drop_through (chars sa) g, None)
            else (g, start_after)
        | _ => (g, start_after)
        end in
      more ← custom_brute_loop charset start_after' rest;
      Ok (map join g' ++ more)
  end.

Definition gen_custom_brute (charset : string) (min_l max_l : Z)
  (start_after : option string) : result (list string) :=
  let start_len :=
    match start_after with
    | Some ((String _ _) as sa) => Z.of_nat (String.length sa)
    | _ => min_l
    end in
  custom_brute_loop charset start_after (range start_len (max_l + 1)).

End Generators.

(** ** [pdfraven/generators.py]: the totals of the parts of a hybrid attack *)

Module Totals.

Import Generators.

(** [sum(1 for _ in open(path, 'rb'))]: a binary file iterates over the lines
    that a line feed ends, and over what follows the last line feed if that
    is not empty. [pending] tells whether the current line has a byte. *)
Fixpoint binary_line_count (content : list ascii) (pending : bool) : Z :=
  match content with
  | [] => if pending then 1 else 0
  | c :: rest =>
      if Ascii.eqb c (ascii_of_nat 10) then 1 + binary_line_count rest false
      else binary_line_count rest true
  end.

Section FileSystem.

(** The regular files: the bytes of the file at a path, if there is one. *)
Variable fs : string -> option string.

(** The total that [get_generator_for_mask] returns beside the generator;
    [Raise] when the call raises. *)
Definition get_generator_total (mask_string : string) : result estimate :=
  match fs mask_string with
  | Some content => Ok (EstInt (binary_line_count (chars content) false))
  | None =>
      match match_range mask_string with
      | Some (a, b) =>
          let start := int_of_digits a in
          let end_ := int_of_digits b in
          if end_ <=? start then Raise ValueError
          else Ok (EstInt (end_ - start + 1))
      | None => Ok (estimate_total_from_mask mask_string)
      end
  end.

End FileSystem.

End Totals.

(** ** [pdfraven/database.py]: the session checkpoint store *)

Module Database.

(** A decoded JSON document, as [json.load] returns it. *)
Inductive json : Type :=
| JNull
| JBool (b : bool)
| JNum (n : Z)
| JStr (s : string)
| JArr (items : list json)
| JObj (fields : list (string * json)).

(** What reading a file with [json.load(open(file, 'r'))] does: the bytes are
    not text in the default encoding, the text is not JSON, or it decodes. *)
Inductive file_content : Type :=
| Undecodable
| NotJson
| Json (j : json).

(** The file system: its files, whether they can be written and removed, and
    whether [session_path.mkdir(exist_ok=True)] succeeds, that is, whether
    the session directory exists or can be made. *)
Record disk : Type := Disk {
  files : gmap string file_content;
  writable : bool;
  mkdir_ok : bool
}.

(** The calls of [ui.log] whose text holds a string that the caller or a
    file decides. [log] prints its text as [rich] markup, which raises
    [MarkupError] for some texts (a closing tag that closes nothing, for
    one). The calls with a fixed text, or with only a number in it, are
    balanced markup and are left out. *)
Inductive log_call : Type :=
| LogInitializing (attack_name : string)
| LogCouldNotParseDb (db_file : string)
| LogErrorSavingDb (db_file : string)
| LogTestingPassword (saved_pass : json)
| LogCouldNotSaveSession (session_file : string)
| LogResuming (last_password : json)
| LogInvalidSession (session_file : string)
| LogCouldNotRemoveSession (session_file : string).

(** [log(...)] for such a call, given the calls that [rich] renders. *)
Definition log (renders : log_call -> bool) (call : log_call) : result unit :=
  if renders call then Ok tt else Raise MarkupError.

(** [dict] lookup in a decoded object: the last binding of a repeated key
    wins. *)
Fixpoint obj_get (key : string) (fields : list (string * json)) : option json :=
  match fields with
  | [] => None
  | (k, v) :: rest =>
      match obj_get key rest with
      | Some v' => Some v'
      | None => if String.eqb k key then Some v else None
      end
  end.

(** [Path(p).name]: the last component of [p] that is neither empty nor a
    dot. [cur] is the component being read, reversed. *)
Fixpoint path_name (p : list ascii) (cur : list ascii) (last : list ascii)
  : list ascii :=
  let close (cur last : list ascii) :=
    match cur with
    | [] => last
    | ["."%char] => last
    | _ => rev cur
    end in
  match p with
  | [] => close cur last
  | c :: p' =>
      if Ascii.eqb c "/" then path_name p' [] (close cur last)
      else path_name p' (c :: cur) last
  end.

(** [name.rfind('.')], as a count from the left. *)
Fixpoint rfind_dot (name : list ascii) (i : nat) (found : option nat)
  : option nat :=
  match name with
  | [] => found
  | c :: rest =>
      rfind_dot rest (S i) (if Ascii.eqb c "." then Some i else found)
  end.

(** [Path(pdf_path).stem] *)
Definition stem (pdf_path : string) : string :=
  let name := path_name (chars pdf_path) [] [] in
  match rfind_dot name 0 None with
  | Some i =>
      if (0 <? i)%nat && (i <? length name - 1)%nat
      then join (take i name) else join name
  | None => join name
  end.

(** The components of a path as [pathlib] keeps them: the text between
    slashes, without the empty components and the single dots. [cur] is the
    component being read, reversed. *)
Fixpoint path_parts (p : list ascii) (cur : list ascii)
  : list (list ascii) :=
  let close (cur : list ascii) (rest : list (list ascii)) :=
    match cur with
    | [] => rest
    | ["."%char] => rest
    | _ => rev cur :: rest
    end in
  match p with
  | [] => close cur []
  | c :: p' =>
      if Ascii.eqb c "/" then close cur (path_parts p' [])
      else path_parts p' (c :: cur)
  end.

(** The root of a path: one slash, or two when the path begins with exactly
    two. *)
Definition path_root (p : list ascii) : list ascii :=
  match p with
  | "/"%char :: "/"%char :: "/"%char :: _ => ["/"%char]
  | "/"%char :: "/"%char :: _ => ["/"%char; "/"%char]
  | "/"%char :: _ => ["/"%char]
  | _ => []
  end.

Fixpoint join_parts (parts : list (list ascii)) : list ascii :=
  match parts with
  | [] => []
  | [part] => part
  | part :: rest => part ++ "/"%char :: join_parts rest
  end.

(** [str(Path(dir) / child)] for a [child] of one component. *)
Definition path_join (dir child : string) : string :=
  join (path_root (chars dir)
        ++ join_parts (path_parts (chars dir) [] ++ [chars child])).

Section Sessions.

(** The calls of [log] that [rich] renders. *)
Variable renders : log_call -> bool.

(** The module-level [SESSION_DIR], set by [main]. *)
Variable SESSION_DIR : string.

(** [session_path / f"{pdf_name}.session"] *)
Definition session_file_of (pdf_path : string) : string :=
  path_join SESSION_DIR (stem pdf_path +:+ ".session").

(** [get_session_file]: the [mkdir] is outside any [try]. *)
Definition get_session_file (pdf_path : string) (d : disk) : result string :=
  if mkdir_ok d then Ok (session_file_of pdf_path) else Raise OSError.

(** [save_session]: the files afterwards. A failing write is logged and
    leaves the file as it was. *)
Definition save_session (pdf_path : string) (last_password : string)
  (d : disk) : result disk :=
  session_file ← get_session_file pdf_path d;
  let session_data := JObj [("last_password", JStr last_password)] in
  if writable d
  then Ok (Disk (<[session_file := Json session_data]> (files d))
                (writable d) (mkdir_ok d))
  else
    _ ← log renders (LogCouldNotSaveSession session_file);
    Ok d.

(** The optional value [load_session] returns; [Raise] for an exception it
    lets through. *)
Definition load_session (pdf_path : string) (d : disk)
  : result (option json) :=
  session_file ← get_session_file pdf_path d;
  let invalid :=
    _ ← log renders (LogInvalidSession session_file);
    Ok None in
  match files d !! session_file with
  | Some Undecodable => Raise UnicodeDecodeError
  | Some NotJson => invalid
  | Some (Json (JObj fields)) =>
      match obj_get "last_password" fields with
      | Some last_password =>
          _ ← log renders (LogResuming last_password);
          match last_password with
          | JNull => Ok None
          | v => Ok (Some v)
          end
      | None => invalid
      end
  | Some (Json _) => Raise TypeError
  | None => Ok None
  end.

(** [clear_session]: the files afterwards. A failing removal is logged and
    leaves the file in place. *)
Definition clear_session (pdf_path : string) (d : disk) : result disk :=
  session_file ← get_session_file pdf_path d;
  match files d !! session_file with
  | Some _ =>
      if writable d
      then Ok (Disk (delete session_file (files d)) (writable d) (mkdir_ok d))
      else
        _ ← log renders (LogCouldNotRemoveSession session_file);
        Ok d
  | None => Ok d
  end.

End Sessions.

End Database.

(** ** [pdfraven/database.py]: the database of found passwords *)

Module PasswordDb.

Import Cracker Database.

(** How a call of the database functions can end other than by returning: an
    exception of [exn], or what [pikepdf.open] raises other than
    [PasswordError]. *)
Inductive failure : Type :=
| PyError (e : exn)
| PdfError.

Inductive outcome (A : Type) : Type :=
| Returns (a : A)
| Fails (e : failure).
Arguments Returns {A} a.
Arguments Fails {A} e.

(** [needle in hay] for two strings. *)
Fixpoint contains_text (needle hay : list ascii) : bool :=
  startswith hay needle
  || match hay with
     | [] => false
     | _ :: hay' => contains_text needle hay'
     end.

(** [key in db] for a decoded JSON value [db]: a key of a [dict], an element
    of a [list], a substring of a [str]; the other values are not
    containers. *)
Definition contains (db : json) (key : string) : outcome bool :=
  match db with
  | JObj fields =>
      Returns (match obj_get key fields with Some _ => true | None => false end)
  | JArr items =>
      Returns (existsb (fun item =>
                          match item with
                          | JStr s => String.eqb s key
                          | _ => false
                          end) items)
  | JStr s => Returns (contains_text (chars key) (chars s))
  | _ => Fails (PyError TypeError)
  end.

(** A [dict] is the list of its bindings, the last binding of a key being the
    current one, as [obj_get] reads it: [db[key] = value] adds a binding at
    the end, and [del db[key]] removes every binding of the key. *)
Definition dict_set (key : string) (value : json)
  (fields : list (string * json)) : list (string * json) :=
  fields ++ [(key, value)].

Definition dict_del (key : string) (fields : list (string * json))
  : list (string * json) :=
  filter (fun kv => fst kv <> key) fields.

(** [log(...)] for a call whose text holds data. *)
Definition log_db (renders : log_call -> bool) (call : log_call)
  : outcome unit :=
  if renders call then Returns tt else Fails (PyError MarkupError).

Section Db.

(** The calls of [log] that [rich] renders. *)
Variable renders : log_call -> bool.

(** The module-level [DB_FILE], set by [main]. *)
Variable DB_FILE : string.

(** [str(Path(pdf_path).resolve())], which the working directory and the
    links of the file system decide. *)
Variable resolve : string -> string.

(** The document: the outcome of opening it with each password. *)
Variable pdf : string -> open_outcome.

(** [load_db]: a file that is not JSON is logged and read as the empty
    [dict]. *)
Definition load_db (d : disk) : outcome json :=
  match files d !! DB_FILE with
  | Some Undecodable => Fails (PyError UnicodeDecodeError)
  | Some NotJson =>
      match log_db renders (LogCouldNotParseDb DB_FILE) with
      | Returns _ => Returns (JObj [])
      | Fails e => Fails e
      end
  | Some (Json j) => Returns j
  | None => Returns (JObj [])
  end.

(** [save_to_db]: the files afterwards. The assignment [db[abs_path] =
    password] is outside the [try], and a value that is not a [dict] rejects
    it; a failing write is logged and leaves the file as it was. *)
Definition save_to_db (pdf_path password : string) (d : disk) : outcome disk :=
  match load_db d with
  | Fails e => Fails e
  | Returns (JObj fields) =>
      let db := JObj (dict_set (resolve pdf_path) (JStr password) fields) in
      if writable d
      then Returns (Disk (<[DB_FILE := Json db]> (files d)) (writable d)
                         (mkdir_ok d))
      else
        match log_db renders (LogErrorSavingDb DB_FILE) with
        | Returns _ => Returns d
        | Fails e => Fails e
        end
  | Returns _ => Fails (PyError TypeError)
  end.

(** [check_db_for_password]: the value returned and the files afterwards.
    The stored value is logged before it is tried; a stored value that is
    not a string is no password for [pikepdf.open]; the write that removes a
    stale entry is not guarded. *)
Definition check_db_for_password (pdf_path : string) (d : disk)
  : outcome (option string * disk) :=
  match load_db d with
  | Fails e => Fails e
  | Returns db =>
      let abs_path := resolve pdf_path in
      match contains db abs_path with
      | Fails e => Fails e
      | Returns false => Returns (None, d)
      | Returns true =>
          match db with
          | JObj fields =>
              match obj_get abs_path fields with
              | Some saved =>
                  match log_db renders (LogTestingPassword saved) with
                  | Fails e => Fails e
                  | Returns _ =>
                      match saved with
                      | JStr saved_pass =>
                          match pdf saved_pass with
                          | Opened => Returns (Some saved_pass, d)
                          | PasswordError =>
                              let db' := JObj (dict_del abs_path fields) in
                              if writable d
                              then Returns
                                     (None,
                                      Disk (<[DB_FILE := Json db']> (files d))
                                           (writable d) (mkdir_ok d))
                              else Fails (PyError OSError)
                          | OtherError => Fails PdfError
                          end
                      | _ => Fails (PyError TypeError)
                      end
                  end
              | None => Returns (None, d)
              end
          | _ => Fails (PyError TypeError)
          end
      end
  end.

End Db.

End PasswordDb.

(** ** [pdfraven/cracker.py]: the attack dispatcher *)

Module Dispatcher.

Import Cracker Database.

(** A batch handed to the pool by [pool.submit(attempt_crack_batch, pdf_path,
    batch)]; futures are told apart by their submission number. *)
Record future : Type := Future {
  fut_id : nat;
  fut_batch : list string
}.

#[global] Instance future_eq_dec : EqDecision future.
Proof. solve_decision. Defined.

(** What the coordinator does that other components can observe: it pulls a
    candidate from the generator, it submits a batch, or it reads the result
    of a completed one. *)
Inductive event : Type :=
| Pulled (pwd : string)
| Submitted (f : future)
| Completed (f : future) (res : option string).

(** The part of a run that the code does not decide: when the user interrupts,
    when the clock passes the timeout, and which futures have completed, in
    which order, when the coordinator waits. Positions are positions in the
    list [futures] at that moment; candidates are numbered from 0. *)
Record schedule : Type := Schedule {
  interrupt_at_pull : nat -> bool;
  interrupt_at_wait : nat -> bool;
  timed_out_after : nat -> bool;
  wait_done : nat -> list nat;
  drain_order : list nat;
  drain_stop : option nat
}.

Record state : Type := State {
  batch : list string;
  futures : list future;
  submitted : nat;
  found_password : option string;
  last_checked_password : option string;
  trace : list event
}.

Inductive loop_exit : Type :=
| LoopEnded
| Interrupted.

(** The futures at the given positions, each once, in the order given. *)
Fixpoint select (positions : list nat) (fs : list future) (seen : list nat)
  : list future :=
  match positions with
  | [] => []
  | i :: rest =>
      match fs !! i with
      | Some f =>
          if bool_decide (i ∈ seen) then select rest fs seen
          else f :: select rest fs (i :: seen)
      | None => select rest fs seen
      end
  end.

(** The non-empty set [done] that [concurrent.futures.wait(...,
    FIRST_COMPLETED)] returns, in the order the [for] loop visits it. *)
Definition done_set (positions : list nat) (fs : list future) : list future :=
  match select positions fs [] with
  | [] => take 1 fs
  | done => done
  end.

(** The order in which [as_completed] yields all the futures. *)
Definition completion_order (positions : list nat) (fs : list future)
  : list future :=
  let first := select positions fs [] in
  first ++ filter (fun f => f ∉ first) fs.

(** [futures.remove(future)] *)
Fixpoint remove_future (f : future) (fs : list future) : list future :=
  match fs with
  | [] => []
  | g :: rest => if bool_decide (g = f) then rest else g :: remove_future f rest
  end.

Section Run.

Variable pdf : string -> open_outcome.
Variable sched : schedule.
Variables (workers batch_size : Z) (timeout : option Z).

Definition timeout_set : bool :=
  match timeout with
  | Some t => negb (t =? 0)
  | None => false
  end.

(** [futures.append(pool.submit(attempt_crack_batch, pdf_path, batch))] *)
Definition submit (st : state) : state :=
  let f := Future (submitted st) (batch st) in
  State (batch st) (futures st ++ [f]) (S (submitted st))
        (found_password st) (last_checked_password st)
        (trace st ++ [Submitted f]).

(** The two loops that read [future.result()]: over the [done] set, removing
    each future that found nothing, and over [as_completed]. *)
Fixpoint read_results (remove : bool) (fs : list future) (st : state) : state :=
  match fs with
  | [] => st
  | f :: rest =>
      let res := attempt_crack_batch pdf (fut_batch f) in
      let tr := trace st ++ [Completed f res] in
      if truthy res then
        State (batch st) (futures st) (submitted st) res
              (last_checked_password st) tr
      else
        read_results remove rest
          (State (batch st)
                 (if remove then remove_future f (futures st) else futures st)
                 (submitted st) (found_password st)
                 (last_checked_password st) tr)
  end.

(** The body of [if len(batch) >= batch_size:] for candidate [n]: the state
    after it, and whether an interrupt ended it. *)
Definition dispatch_batch (n : nat) (st : state) : state * bool :=
  if batch_size <=? Z.of_nat (length (batch st)) then
    let st1 := submit st in
    let st2 :=
      State [] (futures st1) (submitted st1) (found_password st1)
            (last_checked_password st1) (trace st1) in
    if workers * 5 <=? Z.of_nat (length (futures st2)) then
      if interrupt_at_wait sched n then (st2, true)
      else
        let done := done_set (wait_done sched n) (futures st2) in
        (read_results true done st2, false)
    else (st2, false)
  else (st, false).

(** [for pwd in generator]; [n] is the number of the candidate pulled. *)
Fixpoint pull_loop (n : nat) (generator : list string) (st : state)
  : state * loop_exit :=
  match generator with
  | [] => (st, LoopEnded)
  | pwd :: rest =>
      if interrupt_at_pull sched n then (st, Interrupted)
      else
        let st1 :=
          State (batch st ++ [pwd]) (futures st) (submitted st)
                (found_password st) (Some pwd) (trace st ++ [Pulled pwd]) in
        let '(st2, interrupted) := dispatch_batch n st1 in
        if interrupted then (st2, Interrupted)
        else if truthy (found_password st2) then (st2, LoopEnded)
        else if timeout_set && timed_out_after sched n then (st2, LoopEnded)
        else pull_loop (S n) rest st2
  end.

(** The [as_completed] loop; an exception raised by the iterator (the timeout,
    or an interrupt) ends it after [drain_stop] results. *)
Definition drain (st : state) : state :=
  let order := completion_order (drain_order sched) (futures st) in
  let yielded :=
    match drain_stop sched with
    | Some k => take k order
    | None => order
    end in
  read_results false yielded st.

Definition initial (resume_pass : option string) : state :=
  State [] [] 0 None resume_pass [].

(** The [try] block of [run_attack]. *)
Definition run_loop (generator : list string) (resume_pass : option string)
  : state :=
  let '(st, exit) := pull_loop 0 generator (initial resume_pass) in
  match exit with
  | Interrupted => st
  | LoopEnded =>
      let st1 :=
        match batch st with
        | _ :: _ => if truthy (found_password st) then st else submit st
        | [] => st
        end in
      if truthy (found_password st1) then st1 else drain st1
  end.

(** The calls of [log] that [rich] renders. *)
Variable renders : log_call -> bool.

Variable SESSION_DIR : string.

(** [run_attack]: the value returned and the files afterwards. The first
    [log] shows the name of the attack; [ProcessPoolExecutor] rejects a
    worker count that is not positive; what [clear_session] or
    [save_session] raises after the loop leaves [run_attack]. *)
Definition run_attack (attack_name : string) (generator : list string)
  (pdf_path : string) (resume_pass : option string) (d : disk)
  : result (option string * disk) :=
  _ ← log renders (LogInitializing attack_name);
  if workers <=? 0 then Raise ValueError
  else
    let st := run_loop generator resume_pass in
    d' ← (if truthy (found_password st)
          then clear_session renders SESSION_DIR pdf_path d
          else
            match last_checked_password st with
            | Some ((String _ _) as last) =>
                save_session renders SESSION_DIR pdf_path last d
            | _ => Ok d
            end);
    Ok (found_password st, d').

End Run.

End Dispatcher.

(** ** [pdfraven/main.py]: the generator of each attack mode *)

Module Main.

Import Generators.

(** The attack modes of the command line with their parameters; the wordlist
    mode carries the bytes of its file. *)
Inductive mode : Type :=
| Wordlist (content : string)
| Range (min max : Z)
| Numeric (length : Z)
| Date (start_year end_year : Z) (format separator : string)
| CustomQuery (query : string) (add_preceding_zeros : bool)
| Brute (mask : string)
| Hybrid (masks : list string)
| CustomBrute (charset : string) (min_length max_length : Z).

(** The generator of [generators.py] that stands for a mode, called with the
    resume cursor as [main] writes the call. *)
Definition generator (fs : string -> option string) (m : mode)
  (resume_password : option string) : result (list string) :=
  match m with
  | Wordlist content => Ok (gen_wordlist content resume_password)
  | Range min max => gen_range min max resume_password
  | Numeric length => gen_numeric length resume_password
  | Date start_year end_year format separator =>
      gen_date start_year end_year format separator resume_password
  | CustomQuery query add_zeros =>
      Ok (gen_custom_query query add_zeros resume_password)
  | Brute mask => gen_from_mask mask resume_password
  | Hybrid masks => gen_hybrid fs masks resume_password
  | CustomBrute charset min_length max_length =>
      gen_custom_brute charset min_length max_length resume_password
  end.

End Main.

(** * The design document's wording

    Definitions that follow the words of the design document, to be compared
    with the definitions above, which follow the sources; and the notions and
    sample inputs used to state the properties. *)

Module Design.

Import Generators Cracker Dispatcher Main.

(** *** Enumeration order *)

(** The tuples of a given length over a charset in lexicographic order of
    the charset's character order, as the design document words it: the
    first character varies slowest. *)
Fixpoint lex_tuples {A : Type} (charset : list A) (n : nat) : list (list A) :=
  match n with
  | O => [[]]
  | S n' => flat_map (fun c => map (cons c) (lex_tuples charset n')) charset
  end.

(** The character order of a charset, and the lexicographic order it induces
    on tuples: two tuples agree on a common prefix and then differ by a
    character that comes earlier in the charset. *)
Definition comes_before {A : Type} (charset : list A) (a b : A) : Prop :=
  exists l1 l2 l3, charset = l1 ++ a :: l2 ++ b :: l3.

Definition lex_before {A : Type} (charset : list A) (t1 t2 : list A) : Prop :=
  exists common a b r1 r2,
    t1 = common ++ a :: r1 /\ t2 = common ++ b :: r2
    /\ comes_before charset a b.

(** Ascending lengths [min..max], each length enumerating all tuples in
    lexicographic order. *)
Definition ascending_lengths (charset : string) (min_len max_len : Z)
  : list string :=
  flat_map (fun len => map join (lex_tuples (chars charset) (Z.to_nat len)))
           (range min_len (max_len + 1)).

(** *** Cardinality of a mask *)

(** The cardinality of a parsed mask: for each segment the sum of
    [|charset|^L] over the lengths [L] of its range, and the product of
    these sums across the segments. *)
Definition segment_cardinality (s : segment) : Z :=
  foldr Z.add 0
        (map (fun len => Z.of_nat (String.length (seg_charset s)) ^ len)
             (seg_len_range s)).

Definition cardinality (parsed : list segment) : Z :=
  foldr Z.mul 1 (map segment_cardinality parsed).

(** A mask whose lengths are all lengths of strings. *)
Definition nonneg_lengths (parsed : list segment) : Prop :=
  Forall (fun s => Forall (fun len => 0 <= len) (seg_len_range s)) parsed.

(** The segment iterators of a mask whose lengths are non-negative. *)
Definition segment_pools (parsed : list segment) : list (list (list ascii)) :=
  map (fun s =>
         flat_map (fun len => lex_tuples (chars (seg_charset s)) (Z.to_nat len))
                  (seg_len_range s))
      parsed.

(** *** Wordlists *)

(** One candidate per non-empty trimmed line of the file, in file order. *)
Definition nonempty_trimmed_lines (content : string) : list string :=
  filter (fun s => s <> EmptyString)
         (map strip (text_lines (chars content) [])).

(** A newline, and a text made of lines. *)
Definition newline : ascii := ascii_of_nat 10.

Definition nl : string := String newline EmptyString.

Definition unlines (lines : list string) : string :=
  foldr (fun line rest => line +:+ nl +:+ rest) EmptyString lines.

(** *** Custom patterns *)

(** A run of decimal digits, and the text of a brace block [{MIN-MAX}]. *)
Definition digit_run (ds : list ascii) : Prop :=
  ds <> [] /\ Forall (fun c => is_digit c = true) ds.

Definition block_text (a b : list ascii) : list ascii :=
  "{"%char :: a ++ "-"%char :: b ++ ["}"%char].

(** The query contains a [{MIN-MAX}] block. *)
Definition has_block (query : list ascii) : Prop :=
  exists before a b after,
    query = before ++ block_text a b ++ after /\ digit_run a /\ digit_run b.

(** The leftmost block of a text, if it has one: a test for [has_block]. *)
Fixpoint search_block (l : list ascii) : option (list ascii * list ascii) :=
  match l with
  | [] => None
  | _ :: l' =>
      match block_at l with
      | Some (a, b, _) => Some (a, b)
      | None => search_block l'
      end
  end.

(** The step of reading one more decimal digit. *)
Definition digit_step (acc : Z) (c : ascii) : Z := 10 * acc + digit_val c.

(** *** Reading a run of the dispatcher *)

(** The coordinator learns of a success: it reads a non-empty result. *)
Definition is_success (e : event) : bool :=
  match e with
  | Completed _ res => truthy res
  | _ => false
  end.

(** The last candidate pulled from the generator, if any was. *)
Fixpoint last_pulled (tr : list event) : option string :=
  match tr with
  | [] => None
  | e :: rest =>
      match last_pulled rest with
      | Some p => Some p
      | None => match e with Pulled p => Some p | _ => None end
      end
  end.


(** What holds of the dispatcher's state throughout a run on the document
    [pdf] resumed at [resume_pass]: the cursor is the last candidate pulled;
    every outstanding future was submitted; and either no success has been
    read, or one has, as the last event, and it is the password found. *)
Definition sound (pdf : string -> open_outcome) (resume_pass : option string)
  (st : state) : Prop :=
  last_checked_password st
  = match last_pulled (trace st) with
    | Some p => Some p
    | None => resume_pass
    end
  /\ Forall (fun f => Submitted f ∈ trace st) (futures st)
  /\ match found_password st with
     | None => Forall (fun e => is_success e = false) (trace st)
     | Some p =>
         exists pre f,
           trace st = pre ++ [Completed f (Some p)]
           /\ p <> EmptyString
           /\ Forall (fun e => is_success e = false) pre
           /\ Submitted f ∈ pre
           /\ attempt_crack_batch pdf (fut_batch f) = Some p
     end.

(** A run without interrupts or timeouts, in which batches complete in the
    order of their submission. *)
Definition calm : schedule :=
  Schedule (fun _ => false) (fun _ => false) (fun _ => false)
           (fun _ => []) [] None.

(** A document that only the given password opens. *)
Definition locked_with (password : string) (p : string) : open_outcome :=
  if String.eqb p password then Opened else PasswordError.

(** The content [save_session] writes for a cursor. *)
Definition checkpoint (cursor : string) : Database.file_content :=
  Database.Json (Database.JObj [("last_password", Database.JStr cursor)]).

(** *** Resuming *)

(** Resumption as the design document states it: with the [k]-th element of
    the full sequence as cursor, the generator yields the elements after
    position [k]. *)
Definition resumes_exactly (gen : option string -> result (list string))
  : Prop :=
  forall (canonical : list string) (X : string) (k : nat),
    gen None = Ok canonical ->
    canonical !! k = Some X ->
    gen (Some X) = Ok (drop (S k) canonical).

(** Skipping every candidate up to and including the first that equals the
    cursor. *)
Fixpoint skip_through (X : string) (l : list string) : list string :=
  match l with
  | [] => []
  | y :: l' => if bool_decide (y = X) then l' else skip_through X l'
  end.

(** Position [k] is the first occurrence of [X]. *)
Definition first_at (canonical : list string) (X : string) (k : nat) : Prop :=
  canonical !! k = Some X
  /\ forall j, (j < k)%nat -> canonical !! j <> Some X.

(** The modes whose cursor is searched, or parsed, as a whole candidate. The
    hybrid mode is not among them; the custom-pattern mode is when the
    number of a candidate is its first run of digits. *)
Definition cursor_by_value (m : mode) : Prop :=
  match m with
  | Hybrid _ => False
  | CustomQuery query _ =>
      match search_query query with
      | Some (prefix, _, _, suffix) =>
          Forall (fun c => is_digit c = false) prefix
          /\ head (is_digit <$> suffix) <> Some true
      | None => True
      end
  | _ => True
  end.

(** A file system without regular files: every mask of the hybrid mode is
    then a range or a mask. *)
Definition no_files : string -> option string := fun _ => None.

End Design.

(** * Further notions

    Notions used to state properties of the code beyond those of the design
    document. *)

Module Notions.

Import Config Generators Cracker Database Dispatcher Main Design.

(** *** Reading a run of the dispatcher, continued *)

(** The batches submitted, in submission order, and the candidates pulled, in
    the order they were pulled. *)
Definition submitted_batches (tr : list event) : list (list string) :=
  omap (fun e => match e with Submitted f => Some (fut_batch f) | _ => None end)
       tr.

Definition pulled (tr : list event) : list string :=
  omap (fun e => match e with Pulled p => Some p | _ => None end) tr.

(** The size of a full batch: [len(batch) >= batch_size] holds for the first
    time at [batch_size] candidates, and at one candidate when [batch_size] is
    not positive. *)
Definition full_size (batch_size : Z) : nat := Z.to_nat (Z.max 1 batch_size).

(** A run that nothing cuts short: no interrupt, no timeout, and the final
    wait goes through all outstanding batches. *)
Definition uninterrupted (sched : schedule) (timeout : option Z) : Prop :=
  (forall n, interrupt_at_pull sched n = false)
  /\ (forall n, interrupt_at_wait sched n = false)
  /\ (forall n, timeout_set timeout && timed_out_after sched n = false)
  /\ drain_stop sched = None.

(** What the dispatcher keeps between two candidates: the batches submitted
    followed by the batch being filled are the candidates pulled; every
    submitted batch is full and the one being filled is not. *)
Definition batching (batch_size : Z) (st : state) : Prop :=
  concat (submitted_batches (trace st)) ++ batch st = pulled (trace st)
  /\ Forall (fun b => length b = full_size batch_size)
            (submitted_batches (trace st))
  /\ (length (batch st) < full_size batch_size)%nat.

(** As long as nothing was found, a submitted batch is either outstanding or
    was tried without success. *)
Definition cleared (pdf : string -> open_outcome) (st : state) : Prop :=
  found_password st = None ->
  forall f, Submitted f ∈ trace st ->
            f ∈ futures st \/ attempt_crack_batch pdf (fut_batch f) = None.

(** The state after one candidate was pulled. *)
Definition after_pull (pwd : string) (st : state) : state :=
  State (batch st ++ [pwd]) (futures st) (submitted st) (found_password st)
        (Some pwd) (trace st ++ [Pulled pwd]).


(** *** Dates *)

(** The six formats [gen_date] knows, and the days of a calendar year. *)
Definition date_formats : list string :=
  ["DDMMYYYY"; "YYYYMMDD"; "MMDDYYYY"; "DDMMYY"; "YYMMDD"; "MMDDYY"].

Definition days_in_year (year : Z) : Z := if isleap year then 366 else 365.


(** *** Masks *)

(** The scan for the closing brace in [parse_mask_loop], as a function of
    its own. *)
Fixpoint scan_brace (charset : string) (len_match l : list ascii)
  : result (list segment) :=
  match l with
  | [] => Raise ValueError
  | c :: l' =>
      if Ascii.eqb c "}" then
        bounds ← parse_len_match len_match;
        rest ← parse_mask_loop l';
        Ok (mk_segment charset bounds :: rest)
      else scan_brace charset (len_match ++ [c]) l'
  end.

(** The ways to write the lengths of a mask segment: nothing, empty braces,
    one number, two numbers around a comma, or a comma with a number on one
    side only. *)
Inductive length_spec : Type :=
| Once
| Braces
| Exactly (n : Z)
| Between (m n : Z)
| UpTo (n : Z)
| From (m : Z).

Record token : Type := Token {
  tok_key : ascii;
  tok_spec : length_spec
}.

Definition spec_text (s : length_spec) : string :=
  match s with
  | Once => ""
  | Braces => "{}"
  | Exactly n => "{" +:+ str n +:+ "}"
  | Between m n => "{" +:+ str m +:+ "," +:+ str n +:+ "}"
  | UpTo n => "{," +:+ str n +:+ "}"
  | From m => "{" +:+ str m +:+ ",}"
  end.

Definition token_text (t : token) : string :=
  String (tok_key t) (spec_text (tok_spec t)).

Definition mask_text (tokens : list token) : string :=
  foldr (fun t rest => token_text t +:+ rest) EmptyString tokens.

(** The lengths each way of writing stands for: the first and the last. *)
Definition spec_bounds (s : length_spec) : Z * Z :=
  match s with
  | Once => (1, 1)
  | Braces => (1, 1)
  | Exactly n => (n, n)
  | Between m n => (m, n)
  | UpTo n => (1, n)
  | From m => (m, m)
  end.

Definition token_segment (t : token) : option segment :=
  charset ← CHARSET_MAP (tok_key t);
  Some (Segment charset
          (range (fst (spec_bounds (tok_spec t)))
                 (snd (spec_bounds (tok_spec t)) + 1))).


(** *** The parts of a hybrid attack *)

(** A part whose total can be expected to be exact: a file without a
    carriage return, a range, or a mask without a minus sign. *)
Definition plain_part (fs : string -> option string) (mask_string : string)
  : Prop :=
  match fs mask_string with
  | Some content => ascii_of_nat 13 ∉ chars content
  | None =>
      match match_range mask_string with
      | Some _ => True
      | None => "-"%char ∉ chars mask_string
      end
  end.

End Notions.

(** * Properties *)

Import Config Generators Cracker Database Dispatcher Main Design.

(** ** Lists and [itertools.product] *)

Section ProductFacts.

Context {A : Type}.

Implicit Types (pool : list A) (pools : list (list A)).

Lemma flat_map_length_const {B C : Type} (f : B -> list C) (l : list B) (k : nat) :
  (forall x, length (f x) = k) -> length (flat_map f l) = (length l * k)%nat.
Proof.
  intros Hk. induction l as [|x l IH]; simpl; [done|].
  rewrite length_app, Hk, IH. lia.
Qed.

Lemma product_fold_prefix pools (acc : list (list A)) :
  fold_left product_step pools acc
  = flat_map (fun x => map (app x) (product pools)) acc.
Proof.
  revert acc. induction pools as [|pool pools IH]; intros acc.
  - simpl. induction acc as [|x acc IHacc]; simpl; [done|].
    rewrite <- IHacc. by rewrite app_nil_r.
  - unfold product. cbn [fold_left].
    rewrite !IH. unfold product_step. simpl. rewrite app_nil_r.
    induction acc as [|x acc IHacc]; simpl; [done|].
    rewrite flat_map_app, IHacc. f_equal.
    clear. induction pool as [|y pool IHp]; simpl; [done|].
    rewrite map_app, IHp. f_equal.
    rewrite !map_map. apply map_ext. intros z. by rewrite <- app_assoc.
Qed.

(** The first pool varies slowest. *)
Lemma product_cons pool pools :
  product (pool :: pools)
  = flat_map (fun y => map (cons y) (product pools)) pool.
Proof.
  unfold product at 1. cbn [fold_left].
  rewrite product_fold_prefix. unfold product_step.
  induction pool as [|y pool IH]; simpl; [done|].
  f_equal. apply IH.
Qed.

Lemma product_nil : product (@nil (list A)) = [[]].
Proof. reflexivity. Qed.

Lemma product_length pools :
  length (product pools) = fold_right Nat.mul 1%nat (map (@length A) pools).
Proof.
  induction pools as [|pool pools IH]; [done|].
  rewrite product_cons. simpl.
  rewrite (flat_map_length_const _ _ (length (product pools))).
  - by rewrite IH.
  - intros x. by rewrite length_map.
Qed.

Lemma product_elem_length pools (t : list A) :
  t ∈ product pools -> length t = length pools.
Proof.
  revert t. induction pools as [|pool pools IH]; intros t.
  - rewrite product_nil. intros ->%list_elem_of_singleton. done.
  - rewrite product_cons. rewrite list_elem_of_In, in_flat_map.
    intros (y & _ & Hin). apply in_map_iff in Hin as (t' & <- & Hin).
    simpl. f_equal. apply IH. by apply list_elem_of_In.
Qed.

End ProductFacts.

Lemma product_replicate_lex {A : Type} (pool : list A) (n : nat) :
  product (replicate n pool) = lex_tuples pool n.
Proof.
  induction n as [|n IH]; [done|].
  simpl replicate. rewrite product_cons, IH. done.
Qed.

Lemma lex_tuples_length {A : Type} (pool : list A) (n : nat) :
  length (lex_tuples pool n) = (length pool ^ n)%nat.
Proof.
  induction n as [|n IH]; [done|].
  simpl lex_tuples.
  rewrite (flat_map_length_const _ _ (length (lex_tuples pool n))).
  - rewrite IH. simpl. lia.
  - intros x. by rewrite length_map.
Qed.

Lemma lex_tuples_elem_length {A : Type} (pool : list A) (n : nat) (t : list A) :
  t ∈ lex_tuples pool n -> length t = n.
Proof.
  rewrite <- product_replicate_lex. intros H%product_elem_length.
  by rewrite length_replicate in H.
Qed.

Lemma sorted_flat_map {A B : Type} (R : relation B) (f : A -> list B)
  (l : list A) :
  (forall x, x ∈ l -> StronglySorted R (f x)) ->
  (forall l1 x l2 y l3, l = l1 ++ x :: l2 ++ y :: l3 ->
     forall u v, u ∈ f x -> v ∈ f y -> R u v) ->
  StronglySorted R (flat_map f l).
Proof.
  induction l as [|x l IH]; intros Hblock Hacross; [constructor|].
  simpl. apply StronglySorted_app. repeat split.
  - intros u v Hu (y & Hy & Hv)%list_elem_of_In%in_flat_map.
    apply list_elem_of_In in Hy, Hv.
    apply list_elem_of_split in Hy as (l2 & l3 & ->).
    by apply (Hacross [] x l2 y l3).
  - apply Hblock. apply list_elem_of_here.
  - apply IH.
    + intros y Hy. apply Hblock. by apply list_elem_of_further.
    + intros l1 a l2 b l3 -> u v. by apply (Hacross (x :: l1) a l2 b l3).
Qed.

Lemma lex_tuples_sorted {A : Type} (pool : list A) (n : nat) :
  StronglySorted (lex_before pool) (lex_tuples pool n).
Proof.
  induction n as [|n IH]; [by repeat constructor|].
  simpl. apply sorted_flat_map.
  - intros c _.
    apply (StronglySorted_fmap (cons c) (lex_before pool) (lex_before pool));
      [|done].
    intros t1 t2 (common & a & b & r1 & r2 & -> & -> & Hab).
    by exists (c :: common), a, b, r1, r2.
  - intros l1 x l2 y l3 Hpool u v
      (t & <- & _)%list_elem_of_In%in_map_iff
      (t' & <- & _)%list_elem_of_In%in_map_iff.
    exists [], x, y, t, t'. repeat split. by exists l1, l2, l3.
Qed.

Lemma lex_tuples_elem {A : Type} (pool : list A) (n : nat) (t : list A) :
  t ∈ lex_tuples pool n <-> length t = n /\ Forall (fun c => c ∈ pool) t.
Proof.
  revert t. induction n as [|n IH]; intros t; simpl.
  - rewrite list_elem_of_singleton. split.
    + intros ->. by split.
    + intros [Hlen _]. by destruct t.
  - rewrite list_elem_of_In, in_flat_map. split.
    + intros (c & Hc & (t' & <- & Ht')%in_map_iff).
      apply list_elem_of_In in Hc, Ht'. apply IH in Ht' as [<- Hall].
      split; [done|]. by constructor.
    + intros [Hlen Hall]. destruct t as [|c t']; [done|].
      apply Forall_cons in Hall as [Hc Hall]. exists c.
      split; [by apply list_elem_of_In|]. apply in_map.
      apply list_elem_of_In, IH. split; [|done]. by injection Hlen.
Qed.

(** ** [range] *)

Lemma range_elem (a b x : Z) : x ∈ range a b <-> a <= x < b.
Proof.
  unfold range. rewrite list_elem_of_In, in_map_iff. split.
  - intros (i & <- & Hi%in_seq). lia.
  - intros H. exists (Z.to_nat (x - a)). split; [lia|].
    apply in_seq. lia.
Qed.

Lemma range_nil (a b : Z) : b <= a -> range a b = [].
Proof. intros H. unfold range. by replace (Z.to_nat (b - a)) with O by lia. Qed.

Lemma range_cons (a b : Z) : a < b -> range a b = a :: range (a + 1) b.
Proof.
  intros H. unfold range.
  replace (Z.to_nat (b - a)) with (S (Z.to_nat (b - (a + 1)))) by lia.
  simpl. f_equal; [lia|].
  rewrite <- seq_shift, map_map. apply map_ext. intros i. lia.
Qed.

Lemma range_length (a b : Z) : length (range a b) = Z.to_nat (b - a).
Proof. unfold range. by rewrite length_map, length_seq. Qed.

Lemma range_lookup (a b : Z) (i : nat) :
  (i < Z.to_nat (b - a))%nat -> range a b !! i = Some (a + Z.of_nat i).
Proof.
  intros H. unfold range. rewrite list_lookup_fmap.
  rewrite lookup_seq_lt by done. done.
Qed.

Lemma range_drop (a b : Z) (k : nat) :
  drop k (range a b) = range (a + Z.of_nat k) b.
Proof.
  revert a. induction k as [|k IH]; intros a.
  - rewrite drop_0. f_equal. lia.
  - destruct (decide (a < b)) as [Hlt|Hge].
    + rewrite (range_cons a b Hlt). simpl. rewrite IH. f_equal. lia.
    + rewrite !range_nil by lia. done.
Qed.

(** ** The batch worker *)

(** C6. The worker tries the candidates of a batch in order and returns the
    first one that opens the document, or nothing when none does; a candidate
    whose trial fails with any other error counts as a failed candidate and
    the rest of the batch is still tried: the result is the same as if every
    such error had been a wrong password. *)
Theorem attempt_crack_batch_first_success
  (pdf : string -> open_outcome) (passwords : list string) :
  match attempt_crack_batch pdf passwords with
  | Some p =>
      exists pre post,
        passwords = pre ++ p :: post /\ pdf p = Opened
        /\ Forall (fun q => pdf q <> Opened) pre
  | None => Forall (fun q => pdf q <> Opened) passwords
  end
  /\ attempt_crack_batch pdf passwords
     = attempt_crack_batch
         (fun q => match pdf q with Opened => Opened | _ => PasswordError end)
         passwords.
Proof.
  split.
  - induction passwords as [|q rest IH]; simpl; [constructor|].
    destruct (pdf q) eqn:Hq.
    + exists [], rest. by repeat split.
    + destruct (attempt_crack_batch pdf rest) as [p|].
      * destruct IH as (pre & post & -> & Hp & Hpre).
        exists (q :: pre), post. repeat split; [done|].
        constructor; [congruence|done].
      * constructor; [congruence|done].
    + destruct (attempt_crack_batch pdf rest) as [p|].
      * destruct IH as (pre & post & -> & Hp & Hpre).
        exists (q :: pre), post. repeat split; [done|].
        constructor; [congruence|done].
      * constructor; [congruence|done].
  - induction passwords as [|q rest IH]; simpl; [done|].
    destruct (pdf q); by rewrite ?IH.
Qed.

(** ** Brute force over a custom charset *)

Lemma bind_ok {A B : Type} (a : A) (k : A -> result B) :
  (Ok a ≫= k) = k a.
Proof. reflexivity. Qed.

Lemma product_repeat_nonneg {A : Type} (pool : list A) (n : Z) :
  0 <= n -> product_repeat pool n = Ok (lex_tuples pool (Z.to_nat n)).
Proof.
  intros H. unfold product_repeat.
  destruct (Z.ltb_spec n 0); [lia|]. by rewrite product_replicate_lex.
Qed.

Lemma custom_brute_loop_fresh (charset : string) (lengths : list Z) :
  Forall (fun len => 0 <= len) lengths ->
  custom_brute_loop charset None lengths
  = Ok (flat_map
          (fun len => map join (lex_tuples (chars charset) (Z.to_nat len)))
          lengths).
Proof.
  induction 1 as [|len lengths Hlen _ IH]; [done|].
  simpl custom_brute_loop. rewrite product_repeat_nonneg by done.
  rewrite bind_ok, IH. done.
Qed.

(** C4. Brute force over the charset [ab] with lengths 1..2 yields [a], [b],
    [aa], [ab], [ba], [bb] in that order, from the custom-charset generator
    and from the mask generator on a single segment alike; and for every
    charset and bounds the custom-charset generator yields the lengths in
    ascending order, each length as the enumeration [lex_tuples], which holds
    exactly the tuples of that length over the charset and is sorted in the
    lexicographic order of the charset's character order. *)
Theorem brute_force_enumeration_order :
  gen_custom_brute "ab" 1 2 None = Ok ["a"; "b"; "aa"; "ab"; "ba"; "bb"]
  /\ gen_from_parsed [Segment "ab" (range 1 3)] None
     = Ok ["a"; "b"; "aa"; "ab"; "ba"; "bb"]
  /\ (forall (charset : string) (min_l : nat) (max_l : Z),
        gen_custom_brute charset (Z.of_nat min_l) max_l None
        = Ok (ascending_lengths charset (Z.of_nat min_l) max_l))
  /\ (forall (charset : list ascii) (n : nat),
        StronglySorted (lex_before charset) (lex_tuples charset n)
        /\ forall t, t ∈ lex_tuples charset n
                     <-> length t = n /\ Forall (fun c => c ∈ charset) t).
Proof.
  split; [reflexivity|]. split; [reflexivity|]. split.
  - intros charset min_l max_l. unfold gen_custom_brute, ascending_lengths.
    apply custom_brute_loop_fresh.
    apply Forall_forall. intros x Hx%range_elem. lia.
  - intros charset n. split; [apply lex_tuples_sorted|].
    intros t. apply lex_tuples_elem.
Qed.

(** ** The mask estimator and the mask generator *)

Lemma chars_length (s : string) : length (chars s) = String.length s.
Proof. induction s as [|c s IH]; simpl; [done|]. by rewrite IH. Qed.

Lemma join_chars (s : string) : join (chars s) = s.
Proof. apply string_of_list_ascii_of_string. Qed.

Lemma chars_join (l : list ascii) : chars (join l) = l.
Proof. apply list_ascii_of_string_of_list_ascii. Qed.

Lemma join_inj (l1 l2 : list ascii) : join l1 = join l2 -> l1 = l2.
Proof. intros H. by rewrite <- (chars_join l1), H, chars_join. Qed.

Lemma len_sum_loop_nonneg (n : Z) (len_range : list Z) (acc : Z) :
  Forall (fun len => 0 <= len) len_range ->
  len_sum_loop n len_range (Some acc)
  = Some (acc + foldr Z.add 0 (map (fun len => n ^ len) len_range)).
Proof.
  intros H. revert acc. induction H as [|len rest Hlen _ IH]; intros acc.
  - simpl. f_equal. lia.
  - simpl. destruct (Z.ltb_spec len 0); [lia|]. simpl.
    rewrite IH. f_equal. lia.
Qed.

Lemma total_loop_nonneg (parsed : list segment) (acc : Z) :
  nonneg_lengths parsed ->
  total_loop parsed (Some acc) = Some (acc * cardinality parsed).
Proof.
  intros H. revert acc. induction H as [|[charset lens] rest Hs _ IH]; intros acc.
  - simpl. f_equal. unfold cardinality. simpl. lia.
  - simpl in *. rewrite len_sum_loop_nonneg by done. rewrite IH.
    f_equal. unfold cardinality. simpl. unfold segment_cardinality at 2.
    simpl. lia.
Qed.

Lemma segment_products_nonneg (charset : string) (len_range : list Z) :
  Forall (fun len => 0 <= len) len_range ->
  segment_products charset len_range
  = Ok (flat_map (fun len => lex_tuples (chars charset) (Z.to_nat len))
                 len_range).
Proof.
  intros H. unfold segment_products.
  assert (mapM (fun len => product_repeat (chars charset) len) len_range
          = Ok (map (fun len => lex_tuples (chars charset) (Z.to_nat len))
                    len_range)) as ->.
  { induction H as [|len rest Hlen _ IH]; [done|].
    simpl. rewrite product_repeat_nonneg by done. rewrite bind_ok, IH. done. }
  rewrite bind_ok. f_equal. by rewrite flat_map_concat_map.
Qed.

Lemma segment_products_count (s : segment) :
  Forall (fun len => 0 <= len) (seg_len_range s) ->
  Z.of_nat
    (length (flat_map (fun len => lex_tuples (chars (seg_charset s)) (Z.to_nat len))
                      (seg_len_range s)))
  = segment_cardinality s.
Proof.
  destruct s as [charset lens]. simpl. unfold segment_cardinality. simpl.
  induction 1 as [|len rest Hlen _ IH]; [done|].
  simpl. rewrite length_app, Nat2Z.inj_add, IH. f_equal.
  rewrite lex_tuples_length, chars_length.
  rewrite Nat2Z.inj_pow. f_equal. lia.
Qed.

Lemma mask_loop_fresh (sa : option string) (combinations : list (list (list ascii))) :
  mask_loop sa false combinations
  = map (fun t => join (concat t)) combinations.
Proof. induction combinations as [|t rest IH]; simpl; [done|]. by rewrite IH. Qed.

Lemma segment_iterators_nonneg (parsed : list segment) :
  nonneg_lengths parsed ->
  mapM (fun s => segment_products (seg_charset s) (seg_len_range s)) parsed
  = Ok (segment_pools parsed).
Proof.
  induction 1 as [|s rest Hs _ IH]; [done|].
  simpl. rewrite segment_products_nonneg by done. rewrite bind_ok, IH. done.
Qed.

Lemma gen_from_parsed_nonneg (parsed : list segment) (sa : option string) :
  parsed <> [] -> nonneg_lengths parsed ->
  gen_from_parsed parsed sa
  = Ok (mask_loop sa (truthy sa) (product (segment_pools parsed))).
Proof.
  intros Hne H. unfold gen_from_parsed.
  rewrite segment_iterators_nonneg by done. rewrite bind_ok.
  destruct parsed; done.
Qed.

Lemma segment_pools_count (parsed : list segment) :
  nonneg_lengths parsed ->
  Z.of_nat (length (product (segment_pools parsed))) = cardinality parsed.
Proof.
  intros H. rewrite product_length. unfold cardinality.
  induction H as [|s rest Hs _ IH]; [done|].
  simpl. rewrite Nat2Z.inj_mul, IH. f_equal. by apply segment_products_count.
Qed.

Lemma parse_mask_nonempty (mask : string) (parsed : list segment) :
  parse_mask mask = Ok parsed -> parsed <> [].
Proof.
  unfold parse_mask. destruct mask; [done|].
  destruct (parse_mask_loop _) as [[|s l]|e]; simpl; [done| |done].
  by intros [= <-].
Qed.

(** For a mask whose lengths are non-negative the estimate is the product of
    the sums of powers, and it is the number of strings the generator
    yields. *)
Lemma estimate_matches_enumeration (mask : string) (parsed : list segment) :
  parse_mask mask = Ok parsed -> nonneg_lengths parsed ->
  estimate_total_from_mask mask = EstInt (cardinality parsed)
  /\ exists l, gen_from_mask mask None = Ok l
               /\ Z.of_nat (length l) = cardinality parsed.
Proof.
  intros Hp Hn. pose proof (parse_mask_nonempty _ _ Hp) as Hne. split.
  - unfold estimate_total_from_mask. rewrite Hp.
    destruct parsed as [|s rest]; [done|].
    rewrite total_loop_nonneg by done. f_equal. lia.
  - unfold gen_from_mask. rewrite Hp, bind_ok.
    rewrite gen_from_parsed_nonneg by done. simpl truthy.
    eexists. split; [done|].
    rewrite mask_loop_fresh, length_map. by apply segment_pools_count.
Qed.

Lemma estimate_d2 :
  estimate_total_from_mask "d{2}" = EstInt 100
  /\ gen_from_mask "d{2}" None = Ok (map (format_0d 2) (range 0 100))
  /\ NoDup (map (format_0d 2) (range 0 100)).
Proof.
  split; [reflexivity|]. split; [vm_compute; reflexivity|].
  apply (bool_decide_unpack (NoDup _)). vm_compute. reflexivity.
Qed.

(** C3. The mask [d{-1}] parses: the estimator then computes with a float and
    does not return an integer, and the generator raises on its first pull
    instead of yielding as many strings as were estimated. *)
Theorem mask_negative_length_estimate_diverges :
  parse_mask "d{-1}" = Ok [Segment DIGITS [-1]]
  /\ estimate_total_from_mask "d{-1}" = EstNotInt
  /\ gen_from_mask "d{-1}" None = Raise ValueError.
Proof. repeat split. Qed.

(** ** The wordlist generator *)

Lemma wordlist_loop_fresh (sa : option string) (lines : list string) :
  wordlist_loop sa true lines = map strip lines.
Proof. induction lines as [|l rest IH]; simpl; [done|]. by rewrite IH. Qed.

(** The claim C8 as worded fails: a blank line yields the empty candidate. *)
Lemma wordlist_blank_line_yields_empty :
  gen_wordlist (unlines ["a"; ""; "b"]) None = ["a"; ""; "b"]
  /\ nonempty_trimmed_lines (unlines ["a"; ""; "b"]) = ["a"; "b"]
  /\ gen_wordlist (unlines ["a"; ""; "b"]) None
     <> nonempty_trimmed_lines (unlines ["a"; ""; "b"]).
Proof. repeat split. vm_compute. discriminate. Qed.

(** C8, amended. The wordlist generator yields exactly one candidate per line
    of the file, in file order: the line trimmed of surrounding whitespace,
    which is the empty string for a line that is empty after trimming. The
    candidates of the design document are those that remain once the empty
    ones are removed. Every byte string is a wordlist: reading it never
    fails. *)
Theorem gen_wordlist_one_candidate_per_line (content : string) :
  gen_wordlist content None = map strip (text_lines (chars content) [])
  /\ length (gen_wordlist content None)
     = length (text_lines (chars content) [])
  /\ filter (fun s => s <> EmptyString) (gen_wordlist content None)
     = nonempty_trimmed_lines content.
Proof.
  assert (gen_wordlist content None = map strip (text_lines (chars content) []))
    as Heq by apply wordlist_loop_fresh.
  rewrite Heq. repeat split. by rewrite length_map.
Qed.

(** ** The session store *)

Lemma load_session_absent (renders : log_call -> bool)
  (dir pdf_path : string) (d : disk) :
  mkdir_ok d = true ->
  files d !! session_file_of dir pdf_path = None ->
  load_session renders dir pdf_path d = Ok None.
Proof.
  intros Hm H. unfold load_session, get_session_file.
  by rewrite Hm, bind_ok, H.
Qed.

Lemma load_session_not_json (renders : log_call -> bool)
  (dir pdf_path : string) (d : disk) :
  mkdir_ok d = true ->
  renders (LogInvalidSession (session_file_of dir pdf_path)) = true ->
  files d !! session_file_of dir pdf_path = Some NotJson ->
  load_session renders dir pdf_path d = Ok None.
Proof.
  intros Hm Hlog H. unfold load_session, get_session_file, log.
  by rewrite Hm, bind_ok, H, Hlog.
Qed.

Lemma load_session_missing_key (renders : log_call -> bool)
  (dir pdf_path : string) (d : disk) (fields : list (string * json)) :
  mkdir_ok d = true ->
  renders (LogInvalidSession (session_file_of dir pdf_path)) = true ->
  files d !! session_file_of dir pdf_path = Some (Json (JObj fields)) ->
  obj_get "last_password" fields = None ->
  load_session renders dir pdf_path d = Ok None.
Proof.
  intros Hm Hlog H Hk. unfold load_session, get_session_file, log.
  by rewrite Hm, bind_ok, H, Hk, Hlog.
Qed.

(** C9. A checkpoint file that holds well-formed JSON other than an object
    (here the empty array) makes [load_session] raise a [TypeError], which
    it does not catch; so does a file that is not text in the default
    encoding, with a [UnicodeDecodeError]. The session directory exists,
    as the file is in it, and no text is logged before the exception. *)
Theorem load_session_malformed_raises (renders : log_call -> bool)
  (dir pdf_path : string) (w : bool) :
  load_session renders dir pdf_path
    (Disk {[ session_file_of dir pdf_path := Json (JArr []) ]} w true)
  = Raise TypeError
  /\ load_session renders dir pdf_path
       (Disk {[ session_file_of dir pdf_path := Undecodable ]} w true)
     = Raise UnicodeDecodeError.
Proof.
  unfold load_session, get_session_file. cbn [mkdir_ok files].
  by rewrite !bind_ok, !lookup_singleton_eq.
Qed.

(** ** The mask generator and a cursor outside its enumeration *)

Lemma mask_loop_absent (sa : string) (combinations : list (list (list ascii))) :
  sa ∉ map (fun t => join (concat t)) combinations ->
  mask_loop (Some sa) true combinations = [].
Proof.
  induction combinations as [|t rest IH]; simpl; [done|].
  intros [Hne Hrest]%not_elem_of_cons.
  unfold eq_start. rewrite bool_decide_eq_false_2 by congruence.
  simpl. by apply IH.
Qed.

(** The claim C10 as worded fails: the empty string is in no enumeration of
    the mask [d], and with it as cursor the generator yields everything. *)
Lemma mask_empty_cursor_restarts :
  exists l, gen_from_mask "d" None = Ok l
            /\ (EmptyString ∉ l)
            /\ gen_from_mask "d" (Some EmptyString) = Ok l
            /\ l <> [].
Proof.
  eexists. split; [vm_compute; reflexivity|].
  split; [|split; [vm_compute; reflexivity|discriminate]].
  apply (bool_decide_unpack (_ ∉ _)). vm_compute. reflexivity.
Qed.

(** C10, amended. For every mask that parses with non-negative lengths and
    every non-empty cursor that is not in the mask's enumeration, the mask
    generator yields nothing, without raising. *)
Theorem mask_cursor_absent_yields_nothing
  (mask : string) (parsed : list segment) (sa : string) (l : list string) :
  parse_mask mask = Ok parsed ->
  nonneg_lengths parsed ->
  sa <> EmptyString ->
  gen_from_mask mask None = Ok l ->
  sa ∉ l ->
  gen_from_mask mask (Some sa) = Ok [].
Proof.
  intros Hp Hn Hsa Hl Hnotin.
  pose proof (parse_mask_nonempty _ _ Hp) as Hne.
  unfold gen_from_mask in *. rewrite Hp, bind_ok in *.
  rewrite gen_from_parsed_nonneg in * by done.
  simpl truthy in Hl. rewrite mask_loop_fresh in Hl.
  injection Hl as <-.
  destruct sa as [|c sa]; [done|]. simpl truthy.
  f_equal. by apply mask_loop_absent.
Qed.

Lemma mask_cursor_absent_witness :
  gen_from_mask "d" (Some "x") = Ok [].
Proof.
  apply (mask_cursor_absent_yields_nothing "d" [Segment DIGITS [1]] "x"
           (map str (range 0 10))).
  - reflexivity.
  - repeat constructor; lia.
  - discriminate.
  - vm_compute. reflexivity.
  - apply (bool_decide_unpack (_ ∉ _)). vm_compute. reflexivity.
Defined.

(** ** The custom-pattern generator *)

Lemma span_digits_run (ds rest : list ascii) :
  Forall (fun c => is_digit c = true) ds ->
  head (is_digit <$> rest) <> Some true ->
  span_digits (ds ++ rest) = (ds, rest).
Proof.
  intros Hds Hrest. induction Hds as [|c ds Hc _ IH]; simpl.
  - destruct rest as [|r rest]; [done|]. simpl in *.
    destruct (is_digit r); [done|done].
  - by rewrite Hc, IH.
Qed.

Lemma span_digits_sound (l ds rest : list ascii) :
  span_digits l = (ds, rest) ->
  l = ds ++ rest /\ Forall (fun c => is_digit c = true) ds.
Proof.
  revert ds rest. induction l as [|c l IH]; intros ds rest; simpl.
  - intros [= <- <-]. by split.
  - destruct (is_digit c) eqn:Hc.
    + destruct (span_digits l) as [ds' rest'] eqn:Hs.
      intros [= <- <-]. destruct (IH _ _ eq_refl) as [-> Hds].
      split; [done|]. by constructor.
    + intros [= <- <-]. by split.
Qed.

Lemma block_at_complete (a b after : list ascii) :
  digit_run a -> digit_run b ->
  block_at (block_text a b ++ after) = Some (a, b, after).
Proof.
  intros [Ha Hda] [Hb Hdb]. unfold block_text, block_at. simpl.
  rewrite <- !app_assoc. simpl.
  rewrite (span_digits_run a) by done.
  destruct a as [|a0 a]; [done|].
  rewrite <- app_assoc. simpl.
  rewrite (span_digits_run b) by done.
  destruct b as [|b0 b]; done.
Qed.

Lemma block_at_sound (l a b after : list ascii) :
  block_at l = Some (a, b, after) ->
  l = block_text a b ++ after /\ digit_run a /\ digit_run b.
Proof.
  unfold block_at. destruct l as [|c l]; [done|].
  destruct (Ascii.eqb_spec c "{"); [subst c|].
  2:{ destruct c as [[] [] [] [] [] [] [] []]; done. }
  destruct (span_digits l) as [ds rest] eqn:Hs.
  apply span_digits_sound in Hs as [-> Hds].
  destruct ds as [|d ds]; [done|].
  destruct rest as [|r rest]; [done|].
  destruct (Ascii.eqb_spec r "-"); [subst r|].
  2:{ destruct r as [[] [] [] [] [] [] [] []]; done. }
  destruct (span_digits rest) as [es rest2] eqn:Hs2.
  apply span_digits_sound in Hs2 as [-> Hes].
  destruct es as [|e es]; [done|].
  destruct rest2 as [|r2 rest2]; [done|].
  destruct (Ascii.eqb_spec r2 "}"); [subst r2|].
  2:{ destruct r2 as [[] [] [] [] [] [] [] []]; done. }
  intros [= <- <- <-]. split; [|by repeat split].
  unfold block_text. simpl. rewrite <- ?app_assoc. simpl.
  rewrite <- ?app_assoc. done.
Qed.

Lemma search_block_cons (c : ascii) (l : list ascii) :
  search_block (c :: l)
  = match block_at (c :: l) with
    | Some (a, b, _) => Some (a, b)
    | None => search_block l
    end.
Proof. reflexivity. Qed.

Lemma search_line_cons (c : ascii) (l : list ascii) :
  search_line (c :: l)
  = match search_line l with
    | Some (prefix, a, b, suffix) => Some (c :: prefix, a, b, suffix)
    | None =>
        match block_at (c :: l) with
        | Some (a, b, suffix) => Some ([], a, b, suffix)
        | None => None
        end
    end.
Proof. reflexivity. Qed.

Lemma search_block_none (l : list ascii) :
  search_block l = None <-> ~ has_block l.
Proof.
  induction l as [|c l IH].
  - split; [|done]. intros _ (before & a & b & after & H & _).
    destruct before; discriminate.
  - rewrite search_block_cons.
    destruct (block_at (c :: l)) as [[[a b] after]|] eqn:Hb.
    + split; [done|]. intros Hn. exfalso. apply Hn.
      apply block_at_sound in Hb as (-> & Ha & Hb).
      by exists [], a, b, after.
    + rewrite IH. split.
      * intros Hn (before & a & b & after & H & Ha & Hb').
        destruct before as [|c' before].
        -- rewrite app_nil_l in H. rewrite H, block_at_complete in Hb; done.
        -- injection H as -> ->. apply Hn. by exists before, a, b, after.
      * intros Hn (before & a & b & after & -> & Ha & Hb').
        apply Hn. by exists (c :: before), a, b, after.
Qed.

Lemma search_line_sound (l p a b s : list ascii) :
  search_line l = Some (p, a, b, s) ->
  l = p ++ block_text a b ++ s /\ digit_run a /\ digit_run b.
Proof.
  revert p. induction l as [|c l IH]; intros p; [done|].
  rewrite search_line_cons.
  destruct (search_line l) as [[[[p' a'] b'] s']|] eqn:Hl.
  - intros [= <- <- <- <-]. destruct (IH _ eq_refl) as (-> & Ha & Hb).
    split; [done|by split].
  - destruct (block_at (c :: l)) as [[[a' b'] s']|] eqn:Hb; [|done].
    intros [= <- <- <- <-]. by apply block_at_sound in Hb.
Qed.

Lemma search_line_complete (p a b s : list ascii) :
  digit_run a -> digit_run b ->
  search_line (p ++ block_text a b ++ s) <> None.
Proof.
  intros Ha Hb. induction p as [|c p IH].
  - rewrite app_nil_l.
    change (block_text a b ++ s)
      with ("{"%char :: ((a ++ "-"%char :: b ++ ["}"%char]) ++ s)).
    rewrite search_line_cons.
    destruct (search_line _) as [[[[? ?] ?] ?]|]; [done|].
    change ("{"%char :: ((a ++ "-"%char :: b ++ ["}"%char]) ++ s))
      with (block_text a b ++ s).
    by rewrite block_at_complete.
  - simpl app. rewrite search_line_cons.
    destruct (search_line _) as [[[[? ?] ?] ?]|]; [done|].
    by destruct IH.
Qed.

Lemma split_lines_cons (c : ascii) (l cur : list ascii) :
  split_lines (c :: l) cur
  = if Ascii.eqb c newline then rev cur :: split_lines l []
    else split_lines l (c :: cur).
Proof. reflexivity. Qed.

Lemma split_lines_elem (line l cur : list ascii) :
  line ∈ split_lines l cur ->
  exists before after, rev cur ++ l = before ++ line ++ after.
Proof.
  revert cur. induction l as [|c l IH]; intros cur.
  - simpl. intros ->%list_elem_of_singleton. exists [], []. by rewrite app_nil_r.
  - rewrite split_lines_cons. destruct (Ascii.eqb c newline).
    + intros [->|Hin]%elem_of_cons.
      * by exists [], (c :: l).
      * destruct (IH _ Hin) as (before & after & Heq). simpl in Heq.
        exists (rev cur ++ c :: before), after. rewrite Heq.
        by rewrite <- app_assoc.
    + intros Hin. destruct (IH _ Hin) as (before & after & Heq).
      exists before, after. rewrite <- Heq. simpl. by rewrite <- app_assoc.
Qed.

Lemma split_lines_head (l cur : list ascii) :
  exists rest tail, split_lines l cur = (rev cur ++ rest) :: tail.
Proof.
  revert cur. induction l as [|c l IH]; intros cur.
  - exists [], []. simpl. by rewrite app_nil_r.
  - rewrite split_lines_cons. destruct (Ascii.eqb c newline).
    + exists [], (split_lines l []). by rewrite app_nil_r.
    + destruct (IH (c :: cur)) as (rest & tail & ->).
      exists (c :: rest), tail. simpl. by rewrite <- app_assoc.
Qed.

Lemma split_lines_same_line (B l cur : list ascii) :
  Forall (fun c => Ascii.eqb c newline = false) B ->
  split_lines (B ++ l) cur = split_lines l (rev B ++ cur).
Proof.
  intros HB. revert cur. induction HB as [|c B Hc _ IH]; intros cur; [done|].
  simpl app. rewrite split_lines_cons, Hc, IH. simpl.
  by rewrite <- app_assoc.
Qed.

Lemma split_lines_keeps_block (B x y cur : list ascii) :
  Forall (fun c => Ascii.eqb c newline = false) B ->
  exists x' y', (x' ++ B ++ y') ∈ split_lines (x ++ B ++ y) cur.
Proof.
  intros HB. revert cur. induction x as [|c x IH]; intros cur.
  - rewrite app_nil_l, split_lines_same_line by done.
    destruct (split_lines_head y (rev B ++ cur)) as (rest & tail & ->).
    exists (rev cur), rest. rewrite rev_app_distr, rev_involutive.
    rewrite <- app_assoc. apply list_elem_of_here.
  - simpl app. rewrite split_lines_cons. destruct (Ascii.eqb c newline).
    + destruct (IH []) as (x' & y' & Hin). exists x', y'.
      by apply list_elem_of_further.
    + apply IH.
Qed.

Lemma digit_not_newline (c : ascii) :
  is_digit c = true -> Ascii.eqb c newline = false.
Proof.
  intros H. destruct (Ascii.eqb_spec c newline) as [->|]; [|done].
  by vm_compute in H.
Qed.

Lemma block_text_one_line (a b : list ascii) :
  digit_run a -> digit_run b ->
  Forall (fun c => Ascii.eqb c newline = false) (block_text a b).
Proof.
  intros [_ Ha] [_ Hb]. unfold block_text.
  constructor; [done|]. apply Forall_app. split.
  - eapply Forall_impl; [exact Ha|]. apply digit_not_newline.
  - constructor; [done|]. apply Forall_app. split; [|by constructor].
    eapply Forall_impl; [exact Hb|]. apply digit_not_newline.
Qed.

Lemma head_omap_some {A B : Type} (f : A -> option B) (l : list A) (y : B) :
  head (omap f l) = Some y -> exists x, x ∈ l /\ f x = Some y.
Proof.
  induction l as [|x l IH]; [done|]. simpl.
  destruct (f x) as [y'|] eqn:Hx.
  - simpl. intros [= ->]. exists x. split; [apply list_elem_of_here|done].
  - intros (x' & Hin & Hx')%IH. exists x'. split; [|done].
    by apply list_elem_of_further.
Qed.

Lemma head_omap_none {A B : Type} (f : A -> option B) (l : list A) (x : A) :
  head (omap f l) = None -> x ∈ l -> f x = None.
Proof.
  induction l as [|x' l IH]; [by intros _ ?%elem_of_nil|]. simpl.
  destruct (f x') as [y'|] eqn:Hx; [done|].
  intros Hn [->|Hin]%elem_of_cons; [done|]. by apply IH.
Qed.

Lemma search_query_sound (query : string) (p a b s : list ascii) :
  search_query query = Some (p, a, b, s) ->
  exists before after,
    chars query = before ++ p ++ block_text a b ++ s ++ after
    /\ digit_run a /\ digit_run b.
Proof.
  unfold search_query.
  intros (line & Hin & Hline)%head_omap_some.
  apply search_line_sound in Hline as (-> & Ha & Hb).
  apply split_lines_elem in Hin as (before & after & Heq).
  change (rev [] ++ chars query) with (chars query) in Heq.
  exists before, after. split; [|by split]. rewrite Heq.
  by rewrite <- !app_assoc.
Qed.

Lemma search_query_none (query : string) :
  search_query query = None <-> ~ has_block (chars query).
Proof.
  split.
  - intros Hn (before & a & b & after & Heq & Ha & Hb).
    destruct (split_lines_keeps_block (block_text a b) before after []
                (block_text_one_line a b Ha Hb)) as (x' & y' & Hin).
    rewrite <- Heq in Hin.
    pose proof (head_omap_none _ _ _ Hn Hin) as Hline.
    by apply (search_line_complete x' a b y' Ha Hb).
  - intros Hn. destruct (search_query query) as [[[[p a] b] s]|] eqn:Hq; [|done].
    exfalso. apply Hn.
    apply search_query_sound in Hq as (before & after & Heq & Ha & Hb).
    exists (before ++ p), a, b, (s ++ after). split; [|by split].
    rewrite Heq. by rewrite <- !app_assoc.
Qed.

Lemma fold_digits_nonneg (ds : list ascii) (acc : Z) :
  Forall (fun c => is_digit c = true) ds -> 0 <= acc ->
  0 <= fold_left (fun acc c => 10 * acc + digit_val c) ds acc.
Proof.
  intros H. revert acc. induction H as [|c ds Hc _ IH]; intros acc Hacc; [done|].
  simpl. apply IH. unfold is_digit, digit_val in *.
  apply andb_true_iff in Hc as [Hlo _]. apply N.leb_le in Hlo. lia.
Qed.

Lemma int_of_digits_nonneg (ds : list ascii) :
  Forall (fun c => is_digit c = true) ds -> 0 <= int_of_digits ds.
Proof. intros H. by apply fold_digits_nonneg. Qed.

Lemma search_line_none (l : list ascii) :
  search_line l = None <-> ~ has_block l.
Proof.
  split.
  - intros Hn (before & a & b & after & -> & Ha & Hb).
    by apply (search_line_complete before a b after Ha Hb).
  - intros Hn. destruct (search_line l) as [[[[p a] b] s]|] eqn:Hl; [|done].
    exfalso. apply Hn. apply search_line_sound in Hl as (-> & Ha & Hb).
    by exists p, a, b, s.
Qed.

Lemma block_at_other (c : ascii) (l : list ascii) :
  c <> "{"%char -> block_at (c :: l) = None.
Proof.
  intros Hc. destruct c as [[] [] [] [] [] [] [] []]; try done.
Qed.

Lemma search_line_skip (ds l : list ascii) :
  Forall (fun c => c <> "{"%char) ds ->
  search_line l = None -> search_line (ds ++ l) = None.
Proof.
  intros Hds Hl. induction Hds as [|c ds Hc _ IH]; [done|].
  change ((c :: ds) ++ l) with (c :: (ds ++ l)).
  by rewrite search_line_cons, IH, block_at_other.
Qed.

Lemma digit_not_brace (c : ascii) : is_digit c = true -> c <> "{"%char.
Proof. by intros H ->. Qed.

(** The greedy first group takes the last block of a line. *)
Lemma search_line_last (prefix a b suffix : list ascii) :
  digit_run a -> digit_run b -> ~ has_block suffix ->
  search_line (prefix ++ block_text a b ++ suffix)
  = Some (prefix, a, b, suffix).
Proof.
  intros Ha Hb Hs. induction prefix as [|c prefix IH].
  - rewrite app_nil_l.
    assert (search_line (a ++ "-"%char :: b ++ "}"%char :: suffix) = None)
      as Hrest.
    { apply search_line_skip.
      { eapply Forall_impl; [exact (proj2 Ha)|]. apply digit_not_brace. }
      change ("-"%char :: b ++ "}"%char :: suffix)
        with (["-"%char] ++ (b ++ "}"%char :: suffix)).
      apply search_line_skip; [by repeat constructor|].
      apply search_line_skip.
      { eapply Forall_impl; [exact (proj2 Hb)|]. apply digit_not_brace. }
      change ("}"%char :: suffix) with (["}"%char] ++ suffix).
      apply search_line_skip; [by repeat constructor|].
      by apply search_line_none. }
    pose proof (block_at_complete a b suffix Ha Hb) as Hblock.
    assert (block_text a b ++ suffix
            = "{"%char :: a ++ "-"%char :: b ++ "}"%char :: suffix) as Heq.
    { unfold block_text. cbn [app]. rewrite <- app_assoc. cbn [app].
      by rewrite <- app_assoc. }
    rewrite Heq in Hblock |- *.
    by rewrite search_line_cons, Hrest, Hblock.
  - change ((c :: prefix) ++ block_text a b ++ suffix)
      with (c :: (prefix ++ block_text a b ++ suffix)).
    by rewrite search_line_cons, IH.
Qed.

Lemma split_lines_app (x rest cur : list ascii) :
  split_lines (x ++ newline :: rest) cur
  = split_lines x cur ++ split_lines rest [].
Proof.
  revert cur. induction x as [|c x IH]; intros cur.
  - rewrite app_nil_l, split_lines_cons.
    change (Ascii.eqb newline newline) with true. done.
  - change ((c :: x) ++ newline :: rest) with (c :: (x ++ newline :: rest)).
    rewrite !split_lines_cons. destruct (Ascii.eqb c newline).
    + by rewrite IH.
    + apply IH.
Qed.

Lemma split_lines_one_line (line : list ascii) :
  newline ∉ line -> split_lines line [] = [line].
Proof.
  intros Hline. rewrite <- (app_nil_r line) at 1.
  rewrite split_lines_same_line.
  - simpl. by rewrite app_nil_r, rev_involutive.
  - apply Forall_forall. intros c Hc.
    destruct (Ascii.eqb_spec c newline) as [->|]; done.
Qed.

Lemma omap_all_none {A B : Type} (f : A -> option B) (l : list A) :
  (forall x, x ∈ l -> f x = None) -> omap f l = [].
Proof.
  induction l as [|x l IH]; intros H; [done|]. simpl.
  rewrite (H x) by apply list_elem_of_here.
  apply IH. intros y Hy. by apply H, list_elem_of_further.
Qed.

Lemma lines_without_block (before : list ascii) (line : list ascii) :
  ~ has_block before -> line ∈ split_lines before [] ->
  search_line line = None.
Proof.
  intros Hn Hin. apply search_line_none.
  intros (p & a & b & s & -> & Ha & Hb). apply Hn.
  apply split_lines_elem in Hin as (x & y & Heq).
  change (rev [] ++ before) with before in Heq.
  exists (x ++ p), a, b, (s ++ y). split; [|done].
  rewrite Heq. by rewrite <- !app_assoc.
Qed.

(** The match of [gen_custom_query] in a query: the last block of the first
    line that has a block, with the text of that line around it. *)
Lemma search_query_line (before prefix a b suffix after : list ascii) :
  digit_run a -> digit_run b ->
  before = [] \/ (exists lines, before = lines ++ [newline]) ->
  ~ has_block before ->
  newline ∉ prefix -> newline ∉ suffix -> ~ has_block suffix ->
  after = [] \/ (exists rest, after = newline :: rest) ->
  search_query (join (before ++ prefix ++ block_text a b ++ suffix ++ after))
  = Some (prefix, a, b, suffix).
Proof.
  intros Ha Hb Hbefore Hnb Hp Hs Hns Hafter.
  unfold search_query. rewrite chars_join.
  set (line := prefix ++ block_text a b ++ suffix).
  assert (newline ∉ line) as Hline.
  { unfold line. rewrite !elem_of_app. intros [?|[Hin|?]]; [done| |done].
    pose proof (block_text_one_line a b Ha Hb) as Hone.
    apply (proj1 (Forall_forall _ _) Hone) in Hin.
    by rewrite Ascii.eqb_refl in Hin. }
  assert (exists tail, split_lines (line ++ after) [] = line :: tail)
    as [tail Htail].
  { destruct Hafter as [->|[rest ->]].
    - rewrite app_nil_r, split_lines_one_line by done. by eexists.
    - rewrite split_lines_app, split_lines_one_line by done. by eexists. }
  assert (head (omap search_line (split_lines (line ++ after) []))
          = Some (prefix, a, b, suffix)) as Hhead.
  { rewrite Htail. simpl. unfold line. by rewrite search_line_last. }
  replace (before ++ prefix ++ block_text a b ++ suffix ++ after)
    with (before ++ line ++ after)
    by (unfold line; by rewrite <- !app_assoc).
  destruct Hbefore as [->|[lines ->]]; [done|].
  rewrite <- app_assoc. cbn [app]. rewrite split_lines_app, omap_app.
  rewrite omap_all_none; [done|].
  intros l Hl. apply (lines_without_block lines); [|done].
  intros (x & a' & b' & y & -> & Ha' & Hb'). apply Hnb.
  exists x, a', b', (y ++ [newline]). split; [|done].
  by rewrite <- !app_assoc.
Qed.

(** The claim C7 as worded fails: on a query without a block the generator
    returns normally and yields nothing. *)
Lemma custom_query_without_block_is_silent :
  ~ has_block (chars "ID-100")
  /\ gen_custom_query "ID-100" false None = [].
Proof.
  split; [|done]. apply search_block_none. reflexivity.
Qed.

(** C7, amended. For a query string without a [{MIN-MAX}] block the
    custom-pattern generator yields the empty sequence and raises nothing,
    whatever the cursor. For a query with a block, take its first line that
    has a block and the last block of that line: the generator started
    without a cursor yields the integers MIN..MAX of that block in ascending
    order, each zero-padded, when padding is asked for, to the number of
    digits MAX is written with, between the whole text of the line before
    the block and the whole text of the line after it. *)
Theorem custom_query_block_or_nothing (add_zeros : bool) :
  (forall (query : string) (sa : option string),
     ~ has_block (chars query) -> gen_custom_query query add_zeros sa = [])
  /\ (forall before prefix a b suffix after : list ascii,
        digit_run a -> digit_run b ->
        before = [] \/ (exists lines, before = lines ++ [newline]) ->
        ~ has_block before ->
        newline ∉ prefix -> newline ∉ suffix -> ~ has_block suffix ->
        after = [] \/ (exists rest, after = newline :: rest) ->
        gen_custom_query
          (join (before ++ prefix ++ block_text a b ++ suffix ++ after))
          add_zeros None
        = map (fun i =>
                 join prefix
                 +:+ (if add_zeros then format_0d (length b) i else str i)
                 +:+ join suffix)
              (range (int_of_digits a) (int_of_digits b + 1))).
Proof.
  split.
  - intros query sa Hn. unfold gen_custom_query.
    by rewrite (proj2 (search_query_none query) Hn).
  - intros before prefix a b suffix after Ha Hb Hbefore Hnb Hp Hs Hns Hafter.
    unfold gen_custom_query.
    rewrite (search_query_line before prefix a b suffix after) by done.
    rewrite Z.max_l by (apply int_of_digits_nonneg, Ha).
    by destruct add_zeros.
Qed.

Lemma custom_query_block_witness :
  (forall sa, gen_custom_query "ID-100" true sa = [])
  /\ gen_custom_query
       (join ([] ++ chars "ID-" ++ block_text (chars "8") (chars "11")
              ++ chars "x" ++ []))
       true None
     = map (fun i => "ID-" +:+ format_0d 2 i +:+ "x") (range 8 (11 + 1)).
Proof.
  split.
  - intros sa.
    apply (proj1 (custom_query_block_or_nothing true) "ID-100" sa).
    apply search_block_none. reflexivity.
  - apply (proj2 (custom_query_block_or_nothing true)
             [] (chars "ID-") (chars "8") (chars "11") (chars "x") []).
    + split; [discriminate|repeat constructor].
    + split; [discriminate|repeat constructor].
    + by left.
    + apply search_block_none. reflexivity.
    + apply (bool_decide_unpack _). vm_compute. reflexivity.
    + apply (bool_decide_unpack _). vm_compute. reflexivity.
    + apply search_block_none. reflexivity.
    + by left.
Defined.

Example custom_query_padded :
  gen_custom_query "ID-{8-11}x" true None
  = ["ID-08x"; "ID-09x"; "ID-10x"; "ID-11x"].
Proof. reflexivity. Qed.

(** ** The dispatcher *)

Lemma attempt_crack_batch_some (pdf : string -> open_outcome)
  (passwords : list string) (p : string) :
  attempt_crack_batch pdf passwords = Some p ->
  p ∈ passwords /\ pdf p = Opened.
Proof.
  induction passwords as [|q rest IH]; [done|]. simpl.
  destruct (pdf q) eqn:Hq.
  - intros [= <-]. split; [apply list_elem_of_here|done].
  - intros [Hin Hp]%IH. split; [by apply list_elem_of_further|done].
  - intros [Hin Hp]%IH. split; [by apply list_elem_of_further|done].
Qed.

Lemma truthy_some (p : string) : truthy (Some p) = true <-> p <> EmptyString.
Proof. destruct p; simpl; split; done. Qed.

Lemma truthy_false_some (p : string) :
  truthy (Some p) = false <-> p = EmptyString.
Proof. destruct p; simpl; split; done. Qed.

Lemma last_pulled_app (tr1 tr2 : list event) :
  last_pulled (tr1 ++ tr2)
  = match last_pulled tr2 with
    | Some p => Some p
    | None => last_pulled tr1
    end.
Proof.
  induction tr1 as [|e tr1 IH]; simpl.
  - by destruct (last_pulled tr2).
  - rewrite IH. by destruct (last_pulled tr2).
Qed.

Lemma select_subset (positions : list nat) (fs : list future) (seen : list nat) :
  select positions fs seen ⊆ fs.
Proof.
  revert seen. induction positions as [|i rest IH]; intros seen; simpl.
  - apply list_subseteq_nil.
  - destruct (fs !! i) as [f|] eqn:Hf; [|apply IH].
    case_bool_decide; [apply IH|].
    intros x [->|Hx]%elem_of_cons.
    + by eapply list_elem_of_lookup_2.
    + by eapply IH.
Qed.

Lemma done_set_subset (positions : list nat) (fs : list future) :
  done_set positions fs ⊆ fs.
Proof.
  unfold done_set. pose proof (select_subset positions fs []) as Hs.
  destruct (select positions fs []); [|done].
  intros x Hx. by eapply subseteq_take.
Qed.

Lemma completion_order_subset (positions : list nat) (fs : list future) :
  completion_order positions fs ⊆ fs.
Proof.
  unfold completion_order. intros x [Hx|Hx]%elem_of_app.
  - by eapply select_subset.
  - by apply list_elem_of_filter in Hx as [_ Hx].
Qed.

Lemma remove_future_subset (f : future) (fs : list future) :
  remove_future f fs ⊆ fs.
Proof.
  induction fs as [|g fs IH]; simpl; [done|].
  case_bool_decide.
  - intros x Hx. by apply list_elem_of_further.
  - intros x [->|Hx]%elem_of_cons; [apply list_elem_of_here|].
    apply list_elem_of_further. by apply IH.
Qed.

Section DispatcherFacts.

Variable pdf : string -> open_outcome.
Variable sched : schedule.
Variables (workers batch_size : Z) (timeout : option Z).
Variable resume_pass : option string.

#[local] Abbreviation sound := (sound pdf resume_pass).

Lemma sound_initial : sound (initial resume_pass).
Proof. repeat split; simpl; constructor. Qed.

Lemma sound_submit (st : state) :
  sound st -> found_password st = None ->
  sound (submit st) /\ found_password (submit st) = None.
Proof.
  intros (Hc & Hf & Hs) Hnone. rewrite Hnone in Hs.
  split; [|done]. unfold sound, submit. simpl. rewrite Hnone.
  rewrite last_pulled_app. simpl. split; [done|]. split.
  - apply Forall_app. split.
    + eapply Forall_impl; [exact Hf|]. intros f Hin. simpl in Hin.
      apply elem_of_app. by left.
    + constructor; [|constructor]. apply elem_of_app. right.
      apply list_elem_of_here.
  - apply Forall_app. split; [done|]. by repeat constructor.
Qed.

Lemma sound_read_results (remove : bool) (fs : list future) (st : state) :
  sound st -> found_password st = None ->
  Forall (fun f => Submitted f ∈ trace st) fs ->
  sound (read_results pdf remove fs st).
Proof.
  revert st. induction fs as [|f fs IH]; intros st Hsound Hnone Hfs; [done|].
  destruct Hsound as (Hc & Hf & Hs). rewrite Hnone in Hs.
  apply Forall_cons in Hfs as [Hsub Hfs].
  simpl read_results.
  destruct (truthy (attempt_crack_batch pdf (fut_batch f))) eqn:Ht.
  - unfold sound. simpl. rewrite last_pulled_app. simpl.
    split; [done|]. split.
    + eapply Forall_impl; [exact Hf|]. intros g Hin. simpl in Hin.
      apply elem_of_app. by left.
    + destruct (attempt_crack_batch pdf (fut_batch f)) as [p|] eqn:Hres; [|done].
      exists (trace st), f. apply truthy_some in Ht. by repeat split.
  - apply IH.
    + unfold sound. simpl. rewrite last_pulled_app. simpl.
      split; [done|]. split.
      * assert (Forall (fun g => Submitted g ∈ trace st ++ [Completed f (attempt_crack_batch pdf (fut_batch f))]) (futures st)) as Hall.
        { eapply Forall_impl; [exact Hf|]. intros g Hin. simpl in Hin.
          apply elem_of_app. by left. }
        destruct remove; [|done].
        apply Forall_forall. intros g Hg.
        apply remove_future_subset in Hg.
        by apply (proj1 (Forall_forall _ _) Hall).
      * rewrite Hnone. apply Forall_app. split; [done|].
        constructor; [|constructor]. done.
    + done.
    + simpl. eapply Forall_impl; [exact Hfs|]. intros g Hin. simpl in Hin.
      apply elem_of_app. by left.
Qed.

Lemma sound_dispatch_batch (n : nat) (st : state) :
  sound st -> found_password st = None ->
  sound (fst (dispatch_batch pdf sched workers batch_size n st))
  /\ (snd (dispatch_batch pdf sched workers batch_size n st) = true ->
      found_password (fst (dispatch_batch pdf sched workers batch_size n st))
      = None).
Proof.
  intros Hsound Hnone. unfold dispatch_batch.
  destruct (batch_size <=? Z.of_nat (length (batch st))); [|by split].
  destruct (sound_submit st Hsound Hnone) as [Hsub Hnone'].
  set (st1 := submit st) in *.
  set (st2 := State [] (futures st1) (submitted st1) (found_password st1)
                    (last_checked_password st1) (trace st1)).
  assert (sound st2) as Hs2 by exact Hsub.
  assert (found_password st2 = None) as Hn2 by exact Hnone'.
  destruct (workers * 5 <=? Z.of_nat (length (futures st2))); [|by split].
  destruct (interrupt_at_wait sched n); [by split|].
  simpl. split; [|done].
  apply sound_read_results; [done|done|].
  destruct Hs2 as (_ & Hf & _).
  apply Forall_forall. intros f Hin%done_set_subset.
  by apply (proj1 (Forall_forall _ _) Hf).
Qed.

Lemma sound_found_truthy (st : state) :
  sound st -> truthy (found_password st) = false -> found_password st = None.
Proof.
  intros (_ & _ & Hs) Ht. destruct (found_password st) as [p|]; [|done].
  destruct Hs as (pre & f & _ & Hp & _). by apply truthy_false_some in Ht.
Qed.

Lemma sound_pull_loop (generator : list string) (n : nat) (st : state) :
  sound st -> found_password st = None ->
  sound (fst (pull_loop pdf sched workers batch_size timeout n generator st)).
Proof.
  revert n st. induction generator as [|pwd rest IH]; intros n st Hsound Hnone;
    [done|].
  simpl pull_loop.
  destruct (interrupt_at_pull sched n); [done|].
  set (st1 := State (batch st ++ [pwd]) (futures st) (submitted st)
                    (found_password st) (Some pwd) (trace st ++ [Pulled pwd])).
  assert (sound st1) as Hs1.
  { destruct Hsound as (Hc & Hf & Hs). rewrite Hnone in Hs.
    unfold sound, st1. simpl. rewrite last_pulled_app. simpl.
    split; [done|]. split.
    - eapply Forall_impl; [exact Hf|]. intros g Hin. simpl in Hin.
      apply elem_of_app. by left.
    - rewrite Hnone. apply Forall_app. split; [done|]. by repeat constructor. }
  assert (found_password st1 = None) as Hn1 by exact Hnone.
  destruct (sound_dispatch_batch n st1 Hs1 Hn1) as [Hs2 Hint].
  destruct (dispatch_batch pdf sched workers batch_size n st1)
    as [st2 interrupted].
  simpl in Hs2, Hint.
  destruct interrupted; [done|].
  destruct (truthy (found_password st2)) eqn:Ht; [done|].
  destruct (timeout_set timeout && timed_out_after sched n); [done|].
  apply IH; [done|]. by apply sound_found_truthy.
Qed.

Lemma sound_drain (st : state) :
  sound st -> found_password st = None -> sound (drain pdf sched st).
Proof.
  intros Hsound Hnone. unfold drain.
  apply sound_read_results; [done|done|].
  destruct Hsound as (_ & Hf & _).
  apply Forall_forall. intros f Hin.
  apply (proj1 (Forall_forall _ _) Hf).
  apply (completion_order_subset (drain_order sched)).
  destruct (drain_stop sched); [by eapply subseteq_take|done].
Qed.

Lemma sound_run_loop (generator : list string) :
  sound (run_loop pdf sched workers batch_size timeout generator resume_pass).
Proof.
  unfold run_loop.
  pose proof (sound_pull_loop generator 0 (initial resume_pass)
                sound_initial eq_refl) as Hs.
  destruct (pull_loop _ _ _ _ _ _ _ _) as [st exit]. simpl in Hs.
  destruct exit; [|done].
  destruct (truthy (found_password st)) eqn:Ht.
  - destruct (batch st); by rewrite Ht.
  - pose proof (sound_found_truthy st Hs Ht) as Hnone.
    destruct (sound_submit st Hs Hnone) as [Hsub Hnone'].
    destruct (batch st).
    + rewrite Ht. by apply sound_drain.
    + rewrite Hnone'. simpl. by apply sound_drain.
Qed.






End DispatcherFacts.


(** ** The checkpoint at the end of a run *)


Lemma save_session_done (renders : log_call -> bool)
  (dir pdf_path last : string) (d : disk) :
  mkdir_ok d = true -> writable d = true ->
  save_session renders dir pdf_path last d
  = Ok (Disk (<[session_file_of dir pdf_path := checkpoint last]> (files d))
             (writable d) (mkdir_ok d)).
Proof.
  destruct d as [fs w m]. simpl. intros -> ->.
  unfold save_session, get_session_file. cbn [mkdir_ok writable files].
  by rewrite bind_ok.
Qed.




(** ** Resuming after a cursor *)

Lemma skip_through_first (canonical : list string) (X : string) (k : nat) :
  first_at canonical X k -> skip_through X canonical = drop (S k) canonical.
Proof.
  revert k. induction canonical as [|y l IH]; intros k [Hk Hfirst]; [done|].
  simpl. destruct k as [|k].
  - simpl in Hk. injection Hk as ->. by rewrite bool_decide_eq_true_2.
  - rewrite bool_decide_eq_false_2.
    + apply IH. split; [done|]. intros j Hj. apply (Hfirst (S j)). lia.
    + intros ->. by apply (Hfirst 0%nat); [lia|].
Qed.

Lemma eq_start_some (x X : string) :
  eq_start x (Some X) = bool_decide (x = X).
Proof.
  unfold eq_start. apply bool_decide_ext. split; [by intros [= ->]|by intros ->].
Qed.

Lemma wordlist_loop_resume (X : string) (lines : list string) :
  wordlist_loop (Some X) false lines = skip_through X (map strip lines).
Proof.
  induction lines as [|line rest IH]; [done|]. simpl.
  rewrite eq_start_some. case_bool_decide; [|done].
  apply wordlist_loop_fresh.
Qed.

Lemma date_loop_fresh (sa : option string) (dates : list string) :
  date_loop sa true dates = dates.
Proof. induction dates as [|x rest IH]; simpl; [done|]. by rewrite IH. Qed.

Lemma date_loop_resume (X : string) (dates : list string) :
  date_loop (Some X) false dates = skip_through X dates.
Proof.
  induction dates as [|x rest IH]; [done|]. simpl.
  rewrite eq_start_some. case_bool_decide; [|done].
  apply date_loop_fresh.
Qed.

Lemma mask_loop_resume (X : string) (combinations : list (list (list ascii))) :
  mask_loop (Some X) true combinations
  = skip_through X (map (fun t => join (concat t)) combinations).
Proof.
  induction combinations as [|t rest IH]; [done|]. simpl.
  rewrite eq_start_some. case_bool_decide; simpl; [|done].
  apply mask_loop_fresh.
Qed.

Lemma truthy_nonempty (X : string) : X <> EmptyString -> truthy (Some X) = true.
Proof. by intros ?%truthy_some. Qed.

Lemma wordlist_resumes (content X : string) (k : nat) :
  X <> EmptyString ->
  first_at (gen_wordlist content None) X k ->
  gen_wordlist content (Some X) = drop (S k) (gen_wordlist content None).
Proof.
  intros HX Hk. unfold gen_wordlist in *. rewrite truthy_nonempty by done.
  simpl in *. rewrite wordlist_loop_fresh in *. rewrite wordlist_loop_resume.
  by apply skip_through_first.
Qed.

Lemma date_resumes (start_year end_year : Z) (format separator X : string)
  (canonical : list string) (k : nat) :
  X <> EmptyString ->
  gen_date start_year end_year format separator None = Ok canonical ->
  first_at canonical X k ->
  gen_date start_year end_year format separator (Some X)
  = Ok (drop (S k) canonical).
Proof.
  intros HX Hgen Hk. unfold gen_date in *. rewrite truthy_nonempty by done.
  destruct (mapM _ _) as [dates|e]; [|done]. rewrite bind_ok in *.
  simpl in Hgen. rewrite date_loop_fresh in Hgen. injection Hgen as <-.
  simpl. rewrite date_loop_resume. f_equal. by apply skip_through_first.
Qed.

Lemma mapM_ok_forall {A B : Type} (f : A -> result B) (l : list A) (r : list B) :
  mapM f l = Ok r -> Forall (fun x => exists y, f x = Ok y) l.
Proof.
  revert r. induction l as [|x l IH]; intros r; [constructor|].
  simpl. destruct (f x) as [y|e] eqn:Hx; [|done]. rewrite bind_ok.
  destruct (mapM f l) as [r'|e] eqn:Hl; [|done]. intros _.
  constructor; [by exists y|]. by eapply IH.
Qed.

Lemma gen_from_parsed_ok_nonneg (parsed : list segment) (sa : option string)
  (l : list string) :
  gen_from_parsed parsed sa = Ok l -> nonneg_lengths parsed.
Proof.
  unfold gen_from_parsed.
  destruct (mapM _ parsed) as [pools|e] eqn:Hm; [|done]. intros _.
  apply mapM_ok_forall in Hm.
  eapply Forall_impl; [exact Hm|]. intros s [y Hy]. simpl in Hy.
  unfold segment_products in Hy.
  destruct (mapM _ (seg_len_range s)) as [its|e] eqn:Hm2; [|done].
  apply mapM_ok_forall in Hm2.
  eapply Forall_impl; [exact Hm2|]. intros len [t Ht]. simpl in Ht.
  unfold product_repeat in Ht. by destruct (Z.ltb_spec len 0).
Qed.

Lemma mask_resumes (mask X : string) (canonical : list string) (k : nat) :
  X <> EmptyString ->
  gen_from_mask mask None = Ok canonical ->
  first_at canonical X k ->
  gen_from_mask mask (Some X) = Ok (drop (S k) canonical).
Proof.
  intros HX Hgen Hk. unfold gen_from_mask in *.
  destruct (parse_mask mask) as [parsed|e] eqn:Hp; [|done].
  rewrite bind_ok in *.
  pose proof (gen_from_parsed_ok_nonneg _ _ _ Hgen) as Hn.
  pose proof (parse_mask_nonempty _ _ Hp) as Hne.
  rewrite gen_from_parsed_nonneg in * by done.
  rewrite truthy_nonempty by done. simpl in Hgen.
  rewrite mask_loop_fresh in Hgen. injection Hgen as <-.
  rewrite mask_loop_resume. f_equal. by apply skip_through_first.
Qed.

(** ** [str], [int] and zero padding *)

Lemma digit_char_spec (d : Z) :
  0 <= d <= 9 ->
  digit_val (digit_char d) = d /\ is_digit (digit_char d) = true.
Proof.
  intros H.
  assert (d = 0 \/ d = 1 \/ d = 2 \/ d = 3 \/ d = 4 \/ d = 5 \/ d = 6
          \/ d = 7 \/ d = 8 \/ d = 9) as Hd by lia.
  repeat (destruct Hd as [->|Hd]; [by vm_compute|]). subst. by vm_compute.
Qed.

Lemma fold_left_snoc {A B : Type} (f : A -> B -> A) (l : list B) (x : B) (a : A) :
  fold_left f (l ++ [x]) a = f (fold_left f l a) x.
Proof. by rewrite fold_left_app. Qed.

Lemma digits_fuel_spec (fuel : nat) (n : Z) (rest : list ascii) :
  0 <= n < 2 ^ Z.of_nat (S fuel) ->
  exists ds,
    digits_fuel (S fuel) n rest = ds ++ rest
    /\ ds <> []
    /\ Forall (fun c => is_digit c = true) ds
    /\ forall a, fold_left digit_step ds a
                 = a * 10 ^ Z.of_nat (length ds) + n.
Proof.
  revert n rest. induction fuel as [|fuel IH]; intros n rest Hn.
  - assert (n < 10) as Hlt by (change (2 ^ Z.of_nat 1) with 2 in Hn; lia).
    simpl. destruct (Z.ltb_spec n 10); [|lia].
    rewrite Z.mod_small by lia.
    destruct (digit_char_spec n) as [Hv Hd]; [lia|].
    exists [digit_char n]. repeat split; [done|by repeat constructor|].
    intros a. simpl. unfold digit_step. rewrite Hv. lia.
  - change (digits_fuel (S (S fuel)) n rest)
      with (if n <? 10 then digit_char (n mod 10) :: rest
            else digits_fuel (S fuel) (n / 10) (digit_char (n mod 10) :: rest)).
    destruct (digit_char_spec (n mod 10)) as [Hv Hd].
    { pose proof (Z.mod_pos_bound n 10). lia. }
    destruct (Z.ltb_spec n 10).
    + rewrite Z.mod_small in * by lia.
      exists [digit_char n]. repeat split; [done|by repeat constructor|].
      intros a. simpl. unfold digit_step. rewrite Hv. lia.
    + destruct (IH (n / 10) (digit_char (n mod 10) :: rest))
        as (ds & Heq & Hne & Hds & Hval).
      { split; [apply Z.div_pos; lia|].
        apply Z.div_lt_upper_bound; [lia|].
        rewrite (Nat2Z.inj_succ (S fuel)), Z.pow_succ_r in Hn by lia. lia. }
      exists (ds ++ [digit_char (n mod 10)]). repeat split.
      * rewrite Heq. by rewrite <- app_assoc.
      * by destruct ds.
      * apply Forall_app. split; [done|by repeat constructor].
      * intros a. rewrite fold_left_snoc, Hval. unfold digit_step at 1.
        rewrite Hv, length_app, Nat2Z.inj_add. simpl length.
        rewrite Z.pow_add_r by lia. change (10 ^ Z.of_nat 1) with 10.
        pose proof (Z.div_mod n 10). lia.
Qed.

Lemma digits_spec (n : Z) :
  0 <= n ->
  digits n <> []
  /\ Forall (fun c => is_digit c = true) (digits n)
  /\ fold_left digit_step (digits n) 0 = n.
Proof.
  intros Hn. unfold digits.
  destruct (digits_fuel_spec (Z.to_nat (Z.log2 n)) n [])
    as (ds & Heq & Hne & Hds & Hval).
  { split; [done|]. rewrite Nat2Z.inj_succ, Z2Nat.id by apply Z.log2_nonneg.
    destruct (Z.eq_dec n 0) as [->|]; [done|].
    apply Z.log2_spec. lia. }
  rewrite app_nil_r in Heq. rewrite !Heq. repeat split; [done|done|].
  rewrite Hval. lia.
Qed.

Lemma int_digits_run (ds rest : list ascii) (prev : bool) (acc : Z) :
  ds <> [] -> Forall (fun c => is_digit c = true) ds ->
  int_digits prev acc (ds ++ rest)
  = int_digits true (fold_left digit_step ds acc) rest.
Proof.
  intros Hne Hds. revert prev acc.
  induction Hds as [|c ds Hc Hds IH]; intros prev acc; [done|].
  simpl. rewrite Hc. destruct ds as [|c' ds]; [done|].
  by apply IH.
Qed.

Lemma digit_not_space (c : ascii) : is_digit c = true -> is_space c = false.
Proof.
  unfold is_digit, is_space. set (n := code c). clearbody n.
  intros [H1 H2]%andb_true_iff. apply N.leb_le in H1, H2.
  repeat (apply orb_false_iff; split); try (apply andb_false_iff);
    rewrite ?N.leb_gt, ?N.eqb_neq; lia.
Qed.

Lemma lstrip_solid (l : list ascii) :
  Forall (fun c => is_space c = false) l -> lstrip l = l.
Proof. intros [|c l' Hc _]; [done|]. simpl. by rewrite Hc. Qed.

Lemma digit_not_int_space (c : ascii) :
  is_digit c = true -> is_int_space c = false.
Proof.
  unfold is_digit, is_int_space. set (n := code c). clearbody n.
  intros [H1 H2]%andb_true_iff. apply N.leb_le in H1, H2.
  repeat (apply orb_false_iff; split); try (apply andb_false_iff);
    rewrite ?N.leb_gt, ?N.eqb_neq; lia.
Qed.

Lemma int_lstrip_solid (l : list ascii) :
  Forall (fun c => is_int_space c = false) l -> int_lstrip l = l.
Proof. destruct 1 as [|c l Hc _]; [done|]. simpl. by rewrite Hc. Qed.

Lemma int_strip_solid (l : list ascii) :
  Forall (fun c => is_int_space c = false) l -> int_strip (join l) = join l.
Proof.
  intros H. unfold int_strip. rewrite chars_join, (int_lstrip_solid l H).
  rewrite int_lstrip_solid by by apply Forall_rev.
  by rewrite rev_involutive.
Qed.

Lemma strip_solid (l : list ascii) :
  Forall (fun c => is_space c = false) l -> strip (join l) = join l.
Proof.
  intros H. unfold strip. rewrite chars_join, (lstrip_solid l H).
  rewrite lstrip_solid by by apply Forall_rev.
  by rewrite rev_involutive.
Qed.

Lemma int_of_digit_chars (ds : list ascii) :
  ds <> [] -> Forall (fun c => is_digit c = true) ds ->
  int (join ds) = Ok (fold_left digit_step ds 0).
Proof.
  intros Hne Hds. unfold int.
  rewrite int_strip_solid, chars_join.
  2:{ eapply Forall_impl; [exact Hds|]. apply digit_not_int_space. }
  assert (int_digits false 0 ds = Some (fold_left digit_step ds 0)) as Hrun.
  { rewrite <- (app_nil_r ds) at 1. by rewrite int_digits_run. }
  destruct ds as [|c ds]; [done|].
  apply Forall_cons in Hds as [Hc _].
  destruct c as [[] [] [] [] [] [] [] []];
    try (exfalso; vm_compute in Hc; discriminate Hc); by rewrite Hrun.
Qed.

Lemma int_str (i : Z) : int (str i) = Ok i.
Proof.
  unfold str. destruct (Z.ltb_spec i 0).
  - destruct (digits_spec (- i)) as (Hne & Hds & Hval); [lia|].
    unfold int. rewrite int_strip_solid, chars_join.
    2:{ constructor; [done|]. eapply Forall_impl; [exact Hds|].
        apply digit_not_int_space. }
    rewrite <- (app_nil_r (digits (- i))), int_digits_run by done.
    rewrite ?app_nil_r, Hval. simpl. f_equal. lia.
  - destruct (digits_spec i) as (Hne & Hds & Hval); [lia|].
    rewrite int_of_digit_chars by done. by rewrite Hval.
Qed.

Lemma str_nonempty (i : Z) : str i <> EmptyString.
Proof.
  unfold str. destruct (Z.ltb_spec i 0); [done|].
  destruct (digits_spec i) as (Hne & _); [lia|].
  by destruct (digits i).
Qed.

Lemma fold_zeros (k : nat) :
  fold_left digit_step (replicate k "0"%char) 0 = 0.
Proof.
  induction k as [|k IH]; [done|]. cbn [replicate fold_left].
  change (digit_step 0 "0"%char) with 0. apply IH.
Qed.

Lemma int_format_0d (width : nat) (i : Z) :
  0 <= i -> int (format_0d width i) = Ok i.
Proof.
  intros Hi. unfold format_0d. destruct (Z.ltb_spec i 0); [lia|].
  rewrite Z.abs_eq by done.
  destruct (digits_spec i) as (Hne & Hds & Hval); [done|].
  rewrite int_of_digit_chars.
  - by rewrite fold_left_app, fold_zeros, Hval.
  - by destruct (replicate _ _).
  - apply Forall_app. split; [|done]. by apply Forall_replicate.
Qed.

Lemma format_0d_nonempty (width : nat) (i : Z) :
  0 <= i -> format_0d width i <> EmptyString.
Proof.
  intros Hi. unfold format_0d. destruct (Z.ltb_spec i 0); [done|].
  rewrite Z.abs_eq by done.
  destruct (digits_spec i) as (Hne & _); [done|].
  destruct (replicate _ _); [|done]. by destruct (digits i).
Qed.

Lemma range_resumes (start end_ : Z) (X : string) (canonical : list string)
  (k : nat) :
  gen_range start end_ None = Ok canonical ->
  canonical !! k = Some X ->
  gen_range start end_ (Some X) = Ok (drop (S k) canonical).
Proof.
  unfold gen_range. simpl. intros [= <-] Hk.
  rewrite list_lookup_fmap in Hk.
  destruct (range start (end_ + 1) !! k) as [i|] eqn:Hi; [|done].
  injection Hk as <-.
  pose proof (lookup_lt_Some _ _ _ Hi) as Hlt. rewrite range_length in Hlt.
  rewrite range_lookup in Hi by done. injection Hi as <-.
  pose proof (str_nonempty (start + Z.of_nat k)) as Hne.
  destruct (str (start + Z.of_nat k)) as [|c s] eqn:Hs; [done|].
  rewrite <- Hs, int_str, bind_ok. simpl. f_equal.
  rewrite skipn_map, range_drop. do 2 f_equal. lia.
Qed.

Lemma numeric_resumes (length : Z) (X : string) (canonical : list string)
  (k : nat) :
  gen_numeric length None = Ok canonical ->
  canonical !! k = Some X ->
  gen_numeric length (Some X) = Ok (drop (S k) canonical).
Proof.
  unfold gen_numeric. simpl. destruct (Z.ltb_spec length 0); [done|].
  intros [= <-] Hk.
  rewrite list_lookup_fmap in Hk.
  destruct (range 0 (10 ^ length) !! k) as [i|] eqn:Hi; [|done].
  injection Hk as <-.
  pose proof (lookup_lt_Some _ _ _ Hi) as Hlt. rewrite range_length in Hlt.
  rewrite range_lookup in Hi by done. injection Hi as <-.
  pose proof (format_0d_nonempty (Z.to_nat length) (0 + Z.of_nat k)) as Hne.
  destruct (format_0d (Z.to_nat length) (0 + Z.of_nat k)) as [|c s] eqn:Hs;
    [exfalso; apply Hne; [lia|done]|].
  rewrite <- Hs, int_format_0d, !bind_ok by lia. f_equal.
  rewrite skipn_map, range_drop. do 2 f_equal. lia.
Qed.

Lemma skip_through_app_absent (X : string) (l1 l2 : list string) :
  X ∉ l1 -> skip_through X (l1 ++ l2) = skip_through X l2.
Proof.
  induction l1 as [|y l1 IH]; [done|].
  intros [Hne Hl1]%not_elem_of_cons. simpl.
  rewrite bool_decide_eq_false_2 by done. by apply IH.
Qed.

Lemma skip_through_app_present (X : string) (l1 l2 : list string) :
  X ∈ l1 -> skip_through X (l1 ++ l2) = skip_through X l1 ++ l2.
Proof.
  induction l1 as [|y l1 IH]; [by intros ?%elem_of_nil|].
  simpl. case_bool_decide; [done|].
  intros [->|Hin]%elem_of_cons; [done|]. by apply IH.
Qed.

Lemma drop_through_join (X : string) (g : list (list ascii)) :
  map join (drop_through (chars X) g) = skip_through X (map join g).
Proof.
  induction g as [|t g IH]; [done|]. simpl.
  destruct (decide (t = chars X)) as [->|Hne].
  - by rewrite !bool_decide_eq_true_2 by (done || apply join_chars).
  - rewrite !bool_decide_eq_false_2; [done| |done].
    intros <-. by rewrite chars_join in Hne.
Qed.

Lemma join_length (t : list ascii) : String.length (join t) = length t.
Proof. by rewrite <- chars_length, chars_join. Qed.

Lemma range_split (a b c : Z) :
  a <= b <= c -> range a c = range a b ++ range b c.
Proof.
  intros H. remember (Z.to_nat (b - a)) as n eqn:Hn.
  revert a H Hn. induction n as [|n IH]; intros a H Hn.
  - assert (a = b) as -> by lia. by rewrite (range_nil b b).
  - rewrite (range_cons a c), (range_cons a b) by lia.
    simpl. f_equal. apply IH; lia.
Qed.

Lemma custom_brute_loop_ok_nonneg (charset : string) (sa : option string)
  (lengths : list Z) (l : list string) :
  custom_brute_loop charset sa lengths = Ok l ->
  Forall (fun len => 0 <= len) lengths.
Proof.
  revert sa l. induction lengths as [|len rest IH]; intros sa l; [constructor|].
  simpl. unfold product_repeat at 1.
  destruct (Z.ltb_spec len 0); [done|]. rewrite bind_ok.
  destruct (match sa with Some _ => _ | None => _ end) as [g' sa'].
  destruct (custom_brute_loop charset sa' rest) as [more|e] eqn:Hm; [|done].
  intros _. constructor; [done|]. by eapply IH.
Qed.

Lemma custom_brute_resumes (charset : string) (min_l max_l : Z) (X : string)
  (canonical : list string) (k : nat) :
  X <> EmptyString ->
  gen_custom_brute charset min_l max_l None = Ok canonical ->
  first_at canonical X k ->
  gen_custom_brute charset min_l max_l (Some X) = Ok (drop (S k) canonical).
Proof.
  intros HX Hgen Hk. rewrite <- (skip_through_first _ _ _ Hk).
  destruct Hk as [Hk _]. apply list_elem_of_lookup_2 in Hk.
  unfold gen_custom_brute in *.
  pose proof (custom_brute_loop_ok_nonneg _ _ _ _ Hgen) as Hnn.
  rewrite custom_brute_loop_fresh in Hgen by done. injection Hgen as <-.
  set (blk := fun len => map join (lex_tuples (chars charset) (Z.to_nat len)))
    in *.
  assert (forall len t, 0 <= len -> t ∈ blk len ->
                        Z.of_nat (String.length t) = len) as Hblk.
  { intros len t Hlen Ht. unfold blk in Ht.
    apply list_elem_of_In, in_map_iff in Ht as (u & <- & Hu).
    apply list_elem_of_In, lex_tuples_elem_length in Hu.
    rewrite join_length. lia. }
  set (L := Z.of_nat (String.length X)).
  apply list_elem_of_In, in_flat_map in Hk as (len & Hlen & Hin).
  apply list_elem_of_In in Hlen, Hin.
  pose proof (proj1 (Forall_forall _ _) Hnn len Hlen) as Hlen0.
  pose proof (Hblk len X Hlen0 Hin) as HL. fold L in HL. subst len.
  apply range_elem in Hlen.
  destruct X as [|c X']; [done|]. fold L.
  rewrite (range_cons L (max_l + 1)) by lia.
  cbn [custom_brute_loop]. rewrite product_repeat_nonneg by lia.
  rewrite bind_ok. fold L. rewrite Z.eqb_refl.
  rewrite custom_brute_loop_fresh.
  2:{ apply Forall_forall. intros x Hx%range_elem. lia. }
  rewrite bind_ok. f_equal.
  rewrite drop_through_join. fold (blk L). fold blk.
  rewrite (range_split min_l L (max_l + 1)) by lia.
  rewrite (range_cons L (max_l + 1)) by lia.
  rewrite flat_map_app. cbn [flat_map].
  rewrite skip_through_app_absent.
  - by rewrite skip_through_app_present.
  - intros (len & Hlen' & Hin')%list_elem_of_In%in_flat_map.
    apply list_elem_of_In in Hlen', Hin'. apply range_elem in Hlen'.
    pose proof (proj1 (Forall_forall _ _) Hnn len) as Hl0.
    assert (0 <= len) as Hl1.
    { apply Hl0. apply range_elem. lia. }
    pose proof (Hblk len _ Hl1 Hin'). fold L in H. lia.
Qed.

Lemma chars_append (s1 s2 : string) :
  chars (s1 +:+ s2) = chars s1 ++ chars s2.
Proof. induction s1 as [|c s1 IH]; simpl; [done|]. by rewrite IH. Qed.

Lemma first_digits_skip (p l : list ascii) :
  Forall (fun c => is_digit c = false) p ->
  first_digits (p ++ l) = first_digits l.
Proof. induction 1 as [|c p Hc _ IH]; [done|]. simpl. by rewrite Hc. Qed.

Lemma first_digits_run (ds rest : list ascii) :
  ds <> [] -> Forall (fun c => is_digit c = true) ds ->
  head (is_digit <$> rest) <> Some true ->
  first_digits (ds ++ rest) = Some ds.
Proof.
  intros Hne Hds Hrest.
  pose proof (span_digits_run ds rest Hds Hrest) as Hspan.
  destruct ds as [|c ds]; [done|].
  apply Forall_cons in Hds as [Hc _].
  change (first_digits ((c :: ds) ++ rest))
    with (if is_digit c then Some (fst (span_digits ((c :: ds) ++ rest)))
          else first_digits (ds ++ rest)).
  by rewrite Hc, Hspan.
Qed.

(** The number of a candidate of the custom-pattern mode. *)
Lemma number_text (add_zeros : bool) (width : nat) (i : Z) :
  0 <= i ->
  exists ds,
    (if add_zeros then format_0d width i else str i) = join ds
    /\ ds <> []
    /\ Forall (fun c => is_digit c = true) ds
    /\ int_of_digits ds = i.
Proof.
  intros Hi. destruct (digits_spec i Hi) as (Hne & Hds & Hval).
  destruct add_zeros.
  - unfold format_0d. destruct (Z.ltb_spec i 0); [lia|].
    rewrite Z.abs_eq by done. eexists. split; [done|]. repeat split.
    + destruct (replicate _ _); [|done]. by destruct (digits i).
    + apply Forall_app. split; [|done]. by apply Forall_replicate.
    + unfold int_of_digits. fold digit_step.
      by rewrite fold_left_app, fold_zeros.
  - unfold str. destruct (Z.ltb_spec i 0); [lia|]. by exists (digits i).
Qed.

Lemma custom_query_resumes (query : string) (add_zeros : bool) (X : string)
  (k : nat) :
  cursor_by_value (CustomQuery query add_zeros) ->
  gen_custom_query query add_zeros None !! k = Some X ->
  gen_custom_query query add_zeros (Some X)
  = drop (S k) (gen_custom_query query add_zeros None).
Proof.
  unfold cursor_by_value, gen_custom_query.
  destruct (search_query query) as [[[[p a] b] s]|] eqn:Hq; [|done].
  intros [Hp Hs] Hk.
  apply search_query_sound in Hq as (_ & _ & _ & [_ Ha] & _).
  pose proof (int_of_digits_nonneg a Ha) as Hstart.
  rewrite Z.max_l in * by done.
  set (start := int_of_digits a) in *. set (end_ := int_of_digits b) in *.
  set (width := if add_zeros then length b else 0%nat) in *.
  rewrite list_lookup_fmap in Hk.
  destruct (range start (end_ + 1) !! k) as [i|] eqn:Hi; [|done].
  pose proof (lookup_lt_Some _ _ _ Hi) as Hlt. rewrite range_length in Hlt.
  rewrite range_lookup in Hi by done. injection Hi as <-.
  simpl in Hk. injection Hk as HX.
  destruct (number_text add_zeros width (start + Z.of_nat k))
    as (ds & Hnum & Hne & Hds & Hval); [lia|].
  rewrite Hnum in HX.
  assert (chars X = p ++ ds ++ s) as Hchars.
  { rewrite <- HX. by rewrite !chars_append, !chars_join. }
  destruct X as [|c X'].
  { destruct p; [destruct ds; [done|]|]; discriminate Hchars. }
  rewrite Hchars, first_digits_skip, first_digits_run by done.
  rewrite Hval. rewrite Z.max_r by lia.
  rewrite skipn_map, range_drop. do 2 f_equal. lia.
Qed.

(** The claim C1 as worded fails. In a wordlist with a repeated line the
    cursor is found at its first occurrence, so resuming from the second one
    yields again what lies between them. The hybrid generator resumed after
    [00] goes on with [10], skipping [01] to [09]. The custom-pattern
    generator reads the first run of digits of the cursor, which is part of
    the prefix in [a1b7], and starts over from [a1b5]. *)
Lemma resume_not_exact :
  ~ resumes_exactly (generator no_files (Wordlist (unlines ["a"; "b"; "a"; "c"])))
  /\ ~ resumes_exactly (generator no_files (Hybrid ["d"; "d"]))
  /\ ~ resumes_exactly (generator no_files (CustomQuery "a1b{5-9}" false)).
Proof.
  split; [|split].
  - intros H. pose proof (H ["a"; "b"; "a"; "c"] "a" 2%nat) as H'.
    vm_compute in H'. specialize (H' eq_refl eq_refl). discriminate H'.
  - intros H.
    pose proof (H (map (format_0d 2) (range 0 100)) "00" 0%nat) as H'.
    vm_compute in H'. specialize (H' eq_refl eq_refl). discriminate H'.
  - intros H.
    pose proof (H ["a1b5"; "a1b6"; "a1b7"; "a1b8"; "a1b9"] "a1b7" 2%nat) as H'.
    vm_compute in H'. specialize (H' eq_refl eq_refl). discriminate H'.
Qed.

Example hybrid_resume_skips :
  gen_hybrid no_files ["d"; "d"] (Some "00")
  = Ok (map (format_0d 2) (range 10 100)).
Proof. vm_compute. reflexivity. Qed.

(** C1, amended. For the wordlist, range, fixed-length numeric, date,
    mask and custom-charset modes, and for the custom-pattern mode when the
    text before the block has no digit and the text after it does not begin
    with one: if a non-empty cursor [X] occurs in the canonical sequence and
    position [k] is its first occurrence, the resumed generator yields exactly
    the elements after position [k], in order. The hybrid mode is not
    covered. *)
Theorem resume_after_first_occurrence
  (fs : string -> option string) (m : mode) (canonical : list string)
  (X : string) (k : nat) :
  cursor_by_value m ->
  X <> EmptyString ->
  generator fs m None = Ok canonical ->
  first_at canonical X k ->
  generator fs m (Some X) = Ok (drop (S k) canonical).
Proof.
  intros Hm HX Hgen Hk. destruct m; simpl in Hgen |- *.
  - injection Hgen as <-. f_equal. by apply wordlist_resumes.
  - destruct Hk as [Hk _]. by eapply range_resumes.
  - destruct Hk as [Hk _]. by eapply numeric_resumes.
  - by eapply date_resumes.
  - injection Hgen as <-. destruct Hk as [Hk _]. f_equal.
    by apply custom_query_resumes.
  - by eapply mask_resumes.
  - done.
  - by eapply custom_brute_resumes.
Qed.

Lemma resume_after_first_occurrence_witness :
  generator no_files (Wordlist (unlines ["a"; "b"; "a"; "c"])) (Some "a")
  = Ok ["b"; "a"; "c"]
  /\ generator no_files (CustomQuery "ID-{8-11}x" true) (Some "ID-09x")
     = Ok ["ID-10x"; "ID-11x"].
Proof.
  split.
  - apply (resume_after_first_occurrence no_files
             (Wordlist (unlines ["a"; "b"; "a"; "c"]))
             ["a"; "b"; "a"; "c"] "a" 0%nat).
    + exact I.
    + discriminate.
    + reflexivity.
    + split; [reflexivity|]. intros j Hj. lia.
  - apply (resume_after_first_occurrence no_files
             (CustomQuery "ID-{8-11}x" true)
             ["ID-08x"; "ID-09x"; "ID-10x"; "ID-11x"] "ID-09x" 1%nat).
    + simpl. split; [by repeat constructor|discriminate].
    + discriminate.
    + reflexivity.
    + split; [reflexivity|]. intros [|j] Hj; [discriminate|lia].
Defined.

(** * Further properties *)

Import Notions.

(** ** The dispatcher: batching and exhaustiveness *)

Lemma attempt_crack_batch_none (pdf : string -> open_outcome)
  (passwords : list string) :
  attempt_crack_batch pdf passwords = None ->
  Forall (fun p => pdf p <> Opened) passwords.
Proof.
  induction passwords as [|q rest IH]; [constructor|]. simpl.
  destruct (pdf q) eqn:Hq; [done| |];
    intros H; (constructor; [congruence|by apply IH]).
Qed.

Lemma attempt_falsy_none (pdf : string -> open_outcome)
  (passwords : list string) :
  pdf EmptyString <> Opened ->
  truthy (attempt_crack_batch pdf passwords) = false ->
  attempt_crack_batch pdf passwords = None.
Proof.
  intros Hlocked Ht.
  destruct (attempt_crack_batch pdf passwords) as [p|] eqn:Hres; [|done].
  apply truthy_false_some in Ht as ->.
  by apply attempt_crack_batch_some in Hres as [_ ?].
Qed.

Lemma remove_future_other (f g : future) (fs : list future) :
  g ∈ fs -> g <> f -> g ∈ remove_future f fs.
Proof.
  induction fs as [|h fs IH]; [by intros ?%elem_of_nil|].
  intros [->|Hin]%elem_of_cons Hne; simpl.
  - rewrite bool_decide_eq_false_2 by done. apply list_elem_of_here.
  - case_bool_decide; [done|]. apply list_elem_of_further. by apply IH.
Qed.

Lemma completion_order_covers (positions : list nat) (fs : list future)
  (f : future) :
  f ∈ fs -> f ∈ completion_order positions fs.
Proof.
  intros Hf. unfold completion_order. apply elem_of_app.
  destruct (decide (f ∈ select positions fs [])) as [Hin|Hout]; [by left|].
  right. by apply list_elem_of_filter.
Qed.

Lemma elem_of_snoc {A : Type} (x y : A) (l : list A) :
  x ∈ l ++ [y] <-> x ∈ l \/ x = y.
Proof. rewrite elem_of_app, list_elem_of_singleton. done. Qed.

Section BatchingFacts.

Variable pdf : string -> open_outcome.
Variable sched : schedule.
Variables (workers batch_size : Z) (timeout : option Z).

#[local] Abbreviation batching := (batching batch_size).
#[local] Abbreviation cleared := (cleared pdf).

(** Reading results changes neither the batches nor the candidates seen. *)
Lemma read_results_frame (remove : bool) (fs : list future) (st : state) :
  batch (read_results pdf remove fs st) = batch st
  /\ submitted_batches (trace (read_results pdf remove fs st))
     = submitted_batches (trace st)
  /\ pulled (trace (read_results pdf remove fs st)) = pulled (trace st)
  /\ forall f, Submitted f ∈ trace (read_results pdf remove fs st)
               <-> Submitted f ∈ trace st.
Proof.
  revert st. induction fs as [|f fs IH]; intros st; [done|].
  simpl read_results.
  set (tr := trace st ++ [Completed f (attempt_crack_batch pdf (fut_batch f))]).
  assert (submitted_batches tr = submitted_batches (trace st)
          /\ pulled tr = pulled (trace st)
          /\ forall g, Submitted g ∈ tr <-> Submitted g ∈ trace st)
    as (Hs & Hp & He).
  { unfold tr, submitted_batches, pulled. rewrite !omap_app. simpl.
    rewrite !app_nil_r. repeat split; try done.
    - by intros [?|[=]]%elem_of_snoc.
    - intros ?. apply elem_of_snoc. by left. }
  destruct (truthy _); [done|].
  destruct (IH (State (batch st)
                  (if remove then remove_future f (futures st) else futures st)
                  (submitted st) (found_password st)
                  (last_checked_password st) tr))
    as (-> & -> & -> & He').
  repeat split; try done.
  - intros ?%He'. by apply He.
  - intros ?%He. by apply He'.
Qed.

Lemma read_results_found (remove : bool) (fs : list future) (st : state) :
  found_password st = None ->
  truthy (found_password (read_results pdf remove fs st)) = false ->
  found_password (read_results pdf remove fs st) = None.
Proof.
  revert st. induction fs as [|f fs IH]; intros st Hnone; [done|].
  simpl read_results.
  destruct (truthy (attempt_crack_batch pdf (fut_batch f))) eqn:Ht.
  - simpl. by rewrite Ht.
  - by apply IH.
Qed.

Lemma pull_loop_cons (n : nat) (pwd : string) (rest : list string) (st : state) :
  pull_loop pdf sched workers batch_size timeout n (pwd :: rest) st
  = if interrupt_at_pull sched n then (st, Interrupted)
    else
      let '(st2, interrupted) :=
        dispatch_batch pdf sched workers batch_size n (after_pull pwd st) in
      if interrupted then (st2, Interrupted)
      else if truthy (found_password st2) then (st2, LoopEnded)
      else if timeout_set timeout && timed_out_after sched n
           then (st2, LoopEnded)
           else pull_loop pdf sched workers batch_size timeout (S n) rest st2.
Proof. reflexivity. Qed.

Lemma dispatch_batch_found (n : nat) (st : state) :
  found_password st = None ->
  truthy (found_password
            (fst (dispatch_batch pdf sched workers batch_size n st))) = false ->
  found_password (fst (dispatch_batch pdf sched workers batch_size n st)) = None.
Proof.
  intros Hnone. unfold dispatch_batch. cbv zeta.
  destruct (batch_size <=? _); [|done].
  destruct (workers * 5 <=? _); [|done].
  destruct (interrupt_at_wait sched n); [done|].
  cbn [fst]. by apply read_results_found.
Qed.

Lemma dispatch_batch_interrupted (n : nat) (st : state) :
  snd (dispatch_batch pdf sched workers batch_size n st) = true ->
  interrupt_at_wait sched n = true.
Proof.
  unfold dispatch_batch. cbv zeta.
  destruct (batch_size <=? _); [|done].
  destruct (workers * 5 <=? _); [|done].
  by destruct (interrupt_at_wait sched n).
Qed.

(** One candidate: it joins the batch, and a full batch is submitted. *)
Lemma batching_step (n : nat) (pwd : string) (st : state) :
  batching st ->
  batching (fst (dispatch_batch pdf sched workers batch_size n
                   (after_pull pwd st)))
  /\ pulled (trace (fst (dispatch_batch pdf sched workers batch_size n
                           (after_pull pwd st))))
     = pulled (trace st) ++ [pwd].
Proof.
  intros (HB & HS & HL). set (st1 := after_pull pwd st).
  assert (pulled (trace st1) = pulled (trace st) ++ [pwd]) as Hp1.
  { unfold st1, pulled. simpl. by rewrite omap_app. }
  assert (submitted_batches (trace st1) = submitted_batches (trace st)) as Hs1.
  { unfold st1, submitted_batches. simpl. rewrite omap_app. simpl.
    by rewrite app_nil_r. }
  unfold dispatch_batch. cbv zeta.
  destruct (Z.leb_spec batch_size (Z.of_nat (length (batch st1)))) as [Hfull|Hnot].
  - set (st2 := State [] (futures (submit st1)) (submitted (submit st1))
                      (found_password (submit st1))
                      (last_checked_password (submit st1))
                      (trace (submit st1))).
    assert (batching st2 /\ pulled (trace st2) = pulled (trace st) ++ [pwd])
      as [(HB2 & HS2 & HL2) Hp2].
    { unfold batching, Notions.batching, st2, submit, submitted_batches, pulled.
      simpl. rewrite !omap_app. simpl. rewrite !app_nil_r.
      fold (submitted_batches (trace st)). fold (pulled (trace st)).
      repeat split.
      - rewrite concat_app. simpl. rewrite !app_nil_r, app_assoc. by rewrite HB.
      - apply Forall_app. split; [done|]. constructor; [|constructor].
        unfold st1 in Hfull. simpl in Hfull.
        rewrite length_app in *. simpl in *. unfold full_size in *. lia.
      - unfold full_size. lia. }
    clearbody st2.
    destruct (workers * 5 <=? Z.of_nat (length (futures st2)));
      [|by split; [repeat split|]].
    destruct (interrupt_at_wait sched n); [by split; [repeat split|]|].
    cbn [fst].
    set (done := done_set (wait_done sched n) (futures st2)).
    destruct (read_results_frame true done st2) as (Hb & Hs & Hp & He).
    split; [|by rewrite Hp].
    unfold batching, Notions.batching. by rewrite Hb, Hs, Hp.
  - cbn [fst]. split; [|done].
    unfold batching, Notions.batching. rewrite Hs1, Hp1.
    repeat split; try done.
    + unfold st1. simpl. by rewrite app_assoc, HB.
    + unfold st1 in *. simpl in *. rewrite length_app in *. simpl in *.
      unfold full_size. lia.
Qed.

(** The candidates pulled are a prefix of the stream; the loop ends it only
    on an interrupt, a timeout or a success. *)
Lemma batching_pull_loop (generator : list string) (n : nat) (st : state) :
  batching st -> found_password st = None ->
  let r := pull_loop pdf sched workers batch_size timeout n generator st in
  batching (fst r)
  /\ exists seen rest,
       generator = seen ++ rest
       /\ pulled (trace (fst r)) = pulled (trace st) ++ seen
       /\ (uninterrupted sched timeout ->
           snd r = LoopEnded /\ (found_password (fst r) = None -> rest = [])).
Proof.
  revert n st. induction generator as [|pwd rest IH]; intros n st Hb Hnone r.
  - unfold r. simpl. split; [done|]. exists [], [].
    rewrite !app_nil_r. split; [done|]. split; [done|]. intros _. by split.
  - unfold r. rewrite pull_loop_cons.
    destruct (interrupt_at_pull sched n) eqn:Hip.
    { split; [done|]. exists [], (pwd :: rest). rewrite !app_nil_r.
      split; [done|]. split; [done|]. intros (Hu & _). by rewrite Hu in Hip. }
    destruct (batching_step n pwd st Hb) as [Hb2 Hp2].
    pose proof (dispatch_batch_found n (after_pull pwd st) Hnone) as Hf2.
    pose proof (dispatch_batch_interrupted n (after_pull pwd st)) as Hi2.
    destruct (dispatch_batch _ _ _ _ _ _) as [st2 interrupted].
    cbn [fst snd] in *.
    destruct interrupted.
    { split; [done|]. exists [pwd], rest.
      split; [done|]. split; [done|].
      intros (_ & Hu & _). specialize (Hi2 eq_refl). by rewrite Hu in Hi2. }
    destruct (truthy (found_password st2)) eqn:Ht.
    { split; [done|]. exists [pwd], rest.
      split; [done|]. split; [done|].
      intros _. split; [done|]. intros Hn. cbn [fst] in Hn. by rewrite Hn in Ht. }
    destruct (timeout_set timeout && timed_out_after sched n) eqn:Hto.
    { split; [done|]. exists [pwd], rest.
      split; [done|]. split; [done|].
      intros (_ & _ & Hu & _). by rewrite Hu in Hto. }
    destruct (IH (S n) st2 Hb2 (Hf2 eq_refl))
      as (Hb3 & seen & rest' & -> & Hp3 & Hu).
    split; [done|]. exists (pwd :: seen), rest'.
    split; [done|]. split; [|done].
    rewrite Hp3, Hp2. by rewrite <- app_assoc.
Qed.

Lemma submitted_batch_listed (tr : list event) (f : future) :
  Submitted f ∈ tr -> fut_batch f ∈ submitted_batches tr.
Proof.
  intros Hf. unfold submitted_batches. apply list_elem_of_omap.
  by exists (Submitted f).
Qed.

(** The batches at the end of the [try] block. *)
Lemma batching_run_loop (generator : list string) (resume_pass : option string) :
  let tr := trace (run_loop pdf sched workers batch_size timeout generator
                            resume_pass) in
  concat (submitted_batches tr) `prefix_of` pulled tr
  /\ pulled tr `prefix_of` generator
  /\ exists full tail,
       submitted_batches tr = full ++ tail
       /\ Forall (fun b => length b = full_size batch_size) full
       /\ (tail = []
           \/ exists b, tail = [b]
                        /\ (0 < length b < full_size batch_size)%nat).
Proof.
  intros tr. unfold tr, run_loop. clear tr.
  destruct (batching_pull_loop generator 0 (initial resume_pass))
    as ((HB & HS & HL) & seen & rest & Hgen & Hp & _).
  { repeat split; simpl; [constructor|unfold full_size; lia]. }
  { done. }
  destruct (pull_loop _ _ _ _ _ _ _ _) as [st exit]. cbn [fst snd] in *.
  simpl in Hp.
  assert (concat (submitted_batches (trace st)) `prefix_of` pulled (trace st)
          /\ pulled (trace st) `prefix_of` generator
          /\ exists full tail,
               submitted_batches (trace st) = full ++ tail
               /\ Forall (fun b => length b = full_size batch_size) full
               /\ (tail = []
                   \/ exists b, tail = [b]
                        /\ (0 < length b < full_size batch_size)%nat))
    as Hunsubmitted.
  { split; [by exists (batch st)|]. split; [exists rest; by rewrite Hp|].
    exists (submitted_batches (trace st)), []. rewrite app_nil_r.
    by repeat split; [|left]. }
  destruct exit; [|done].
  set (st1 := match batch st with
              | [] => st
              | _ :: _ => if truthy (found_password st) then st else submit st
              end).
  assert (concat (submitted_batches (trace st1)) `prefix_of` pulled (trace st1)
          /\ pulled (trace st1) `prefix_of` generator
          /\ exists full tail,
               submitted_batches (trace st1) = full ++ tail
               /\ Forall (fun b => length b = full_size batch_size) full
               /\ (tail = []
                   \/ exists b, tail = [b]
                        /\ (0 < length b < full_size batch_size)%nat))
    as H1.
  { unfold st1. destruct (batch st) as [|c b] eqn:Hbatch; [done|].
    destruct (truthy (found_password st)); [done|].
    unfold submit, submitted_batches, pulled. simpl. rewrite !omap_app.
    simpl. rewrite !app_nil_r, Hbatch.
    fold (submitted_batches (trace st)). fold (pulled (trace st)).
    split; [|split].
    - exists []. rewrite app_nil_r, concat_app. simpl.
      by rewrite app_nil_r, <- HB.
    - exists rest. by rewrite Hp.
    - exists (submitted_batches (trace st)), [c :: b].
      repeat split; [done|]. right. exists (c :: b). split; [done|].
      simpl in *. lia. }
  destruct (truthy (found_password st1)); [done|].
  unfold drain.
  destruct (read_results_frame false
              match drain_stop sched with
              | Some k => take k (completion_order (drain_order sched) (futures st1))
              | None => completion_order (drain_order sched) (futures st1)
              end st1) as (_ & -> & -> & _).
  done.
Qed.

End BatchingFacts.

Section ExhaustiveFacts.

Variable pdf : string -> open_outcome.
Variable sched : schedule.
Variables (workers batch_size : Z) (timeout : option Z).

Hypothesis locked : pdf EmptyString <> Opened.

#[local] Abbreviation cleared := (cleared pdf).

(** A batch read without success is set aside; the others stay outstanding. *)
Lemma read_results_cleared (remove : bool) (fs : list future) (st : state) :
  found_password st = None ->
  (forall f, Submitted f ∈ trace st ->
             f ∈ futures st \/ attempt_crack_batch pdf (fut_batch f) = None) ->
  found_password (read_results pdf remove fs st) = None ->
  Forall (fun f => attempt_crack_batch pdf (fut_batch f) = None) fs
  /\ forall f, Submitted f ∈ trace (read_results pdf remove fs st) ->
               f ∈ futures (read_results pdf remove fs st)
               \/ attempt_crack_batch pdf (fut_batch f) = None.
Proof.
  revert st. induction fs as [|f fs IH]; intros st Hnone Hc; [by split|].
  simpl read_results.
  destruct (truthy (attempt_crack_batch pdf (fut_batch f))) eqn:Ht.
  { simpl. intros Hres. rewrite Hres in Ht. done. }
  pose proof (attempt_falsy_none pdf _ locked Ht) as Hf.
  intros Hend. apply IH in Hend as [Hall Hc'].
  - split; [by constructor|done].
  - done.
  - simpl. intros g [Hg|[=]]%elem_of_snoc.
    destruct (Hc g Hg) as [Hin|Hg']; [|by right].
    destruct remove; [|by left].
    destruct (decide (g = f)) as [->|Hne]; [by right|].
    left. by apply remove_future_other.
Qed.

Lemma cleared_step (n : nat) (pwd : string) (st : state) :
  cleared st -> found_password st = None ->
  cleared (fst (dispatch_batch pdf sched workers batch_size n
                  (after_pull pwd st))).
Proof.
  intros HC Hnone. specialize (HC Hnone).
  set (st1 := after_pull pwd st).
  assert (forall f, Submitted f ∈ trace st1 ->
                    f ∈ futures st1
                    \/ attempt_crack_batch pdf (fut_batch f) = None) as HC1.
  { intros f [Hf|[=]]%elem_of_snoc. by apply HC. }
  unfold dispatch_batch. cbv zeta.
  destruct (batch_size <=? _); [|by intros _].
  set (st2 := State [] (futures (submit st1)) (submitted (submit st1))
                    (found_password (submit st1))
                    (last_checked_password (submit st1))
                    (trace (submit st1))).
  assert (forall f, Submitted f ∈ trace st2 ->
                    f ∈ futures st2
                    \/ attempt_crack_batch pdf (fut_batch f) = None) as HC2.
  { unfold st2, submit. simpl. intros f [Hf|[= ->]]%elem_of_snoc.
    - destruct (HC1 f Hf) as [?|?]; [left|by right].
      apply elem_of_snoc. by left.
    - left. apply elem_of_snoc. by right. }
  assert (found_password st2 = None) as Hnone2 by exact Hnone.
  clearbody st2.
  destruct (workers * 5 <=? _); [|by intros _].
  destruct (interrupt_at_wait sched n); [by intros _|].
  cbn [fst]. intros Hend.
  by apply (read_results_cleared true _ st2 Hnone2 HC2 Hend).
Qed.

Lemma cleared_pull_loop (generator : list string) (n : nat) (st : state) :
  cleared st -> found_password st = None ->
  cleared (fst (pull_loop pdf sched workers batch_size timeout n generator st)).
Proof.
  revert n st. induction generator as [|pwd rest IH]; intros n st HC Hnone;
    [done|].
  rewrite pull_loop_cons.
  destruct (interrupt_at_pull sched n); [done|].
  pose proof (cleared_step n pwd st HC Hnone) as HC2.
  pose proof (dispatch_batch_found pdf sched workers batch_size n
                (after_pull pwd st) Hnone) as Hf2.
  destruct (dispatch_batch _ _ _ _ _ _) as [st2 interrupted].
  cbn [fst] in *.
  destruct interrupted; [done|].
  destruct (truthy (found_password st2)); [done|].
  destruct (timeout_set timeout && timed_out_after sched n); [done|].
  by apply IH; [|apply Hf2].
Qed.

(** A run that nothing cuts short and that finds nothing has pulled the
    whole stream, submitted all of it, and read a failure for every batch. *)
Lemma run_loop_exhausted (generator : list string) (resume_pass : option string) :
  uninterrupted sched timeout ->
  let st := run_loop pdf sched workers batch_size timeout generator
                     resume_pass in
  found_password st = None ->
  pulled (trace st) = generator
  /\ concat (submitted_batches (trace st)) = generator
  /\ forall f, Submitted f ∈ trace st ->
               attempt_crack_batch pdf (fut_batch f) = None.
Proof.
  intros Hun st. unfold st, run_loop. clear st.
  destruct (batching_pull_loop pdf sched workers batch_size timeout generator 0
              (initial resume_pass))
    as ((HB & HS & HL) & seen & rest & Hgen & Hp & Hu).
  { repeat split; simpl; [constructor|unfold full_size; lia]. }
  { done. }
  pose proof (cleared_pull_loop generator 0 (initial resume_pass)) as HC.
  pose proof (sound_pull_loop pdf sched workers batch_size timeout resume_pass
                generator 0 (initial resume_pass)
                (sound_initial pdf resume_pass) eq_refl) as Hsound.
  specialize (HC (fun _ _ H => match not_elem_of_nil _ H with end) eq_refl).
  destruct (pull_loop _ _ _ _ _ _ _ _) as [st exit]. cbn [fst snd] in *.
  simpl in Hp. destruct (Hu Hun) as [-> Hrest].
  destruct (truthy (found_password st)) eqn:Ht.
  { destruct (batch st); rewrite ?Ht; intros Hn; by rewrite Hn in Ht. }
  pose proof (sound_found_truthy pdf resume_pass st Hsound Ht) as Hnone.
  specialize (Hrest Hnone). subst rest. rewrite app_nil_r in Hgen. subst seen.
  specialize (HC Hnone).
  set (st1 := match batch st with
              | [] => st
              | _ :: _ => submit st
              end).
  assert (found_password st1 = None
          /\ pulled (trace st1) = generator
          /\ concat (submitted_batches (trace st1)) = generator
          /\ forall f, Submitted f ∈ trace st1 ->
                       f ∈ futures st1
                       \/ attempt_crack_batch pdf (fut_batch f) = None)
    as (Hnone1 & Hp1 & Hs1 & HC1).
  { unfold st1. destruct (batch st) as [|c b] eqn:Hbatch.
    - rewrite app_nil_r in HB. by rewrite HB.
    - unfold submit, submitted_batches, pulled. simpl. rewrite !omap_app.
      simpl. rewrite !app_nil_r, Hbatch.
      fold (submitted_batches (trace st)). fold (pulled (trace st)).
      split; [done|]. split; [done|]. split.
      + rewrite concat_app. simpl. by rewrite app_nil_r, HB.
      + intros f [Hf|[= ->]]%elem_of_snoc.
        * destruct (HC f Hf) as [?|?]; [left|by right].
          apply elem_of_snoc. by left.
        * left. apply elem_of_snoc. by right. }
  clearbody st1. rewrite Hnone1. cbn [truthy].
  unfold drain. destruct Hun as (_ & _ & _ & ->).
  intros Hend.
  destruct (read_results_frame pdf false
              (completion_order (drain_order sched) (futures st1)) st1)
    as (_ & Hsub & Hpul & Hfut).
  destruct (read_results_cleared false _ st1 Hnone1 HC1 Hend) as [Hall _].
  rewrite Hsub, Hpul. split; [done|]. split; [done|].
  intros f Hf.
  assert (Submitted f ∈ trace st1) as Hf1.
  { by apply Hfut. }
  destruct (HC1 f Hf1) as [Hin|?]; [|done].
  apply (proj1 (Forall_forall _ _) Hall).
  by apply completion_order_covers.
Qed.

End ExhaustiveFacts.

(** ** The end of a run that reads a success *)

Lemma run_attack_returned
  (pdf : string -> open_outcome) (sched : schedule) (workers batch_size : Z)
  (timeout : option Z) (renders : log_call -> bool)
  (session_dir attack_name : string) (generator : list string)
  (pdf_path : string) (resume_pass : option string) (d d' : disk)
  (res : option string) :
  run_attack pdf sched workers batch_size timeout renders session_dir
             attack_name generator pdf_path resume_pass d = Ok (res, d') ->
  res = found_password (run_loop pdf sched workers batch_size timeout
                                 generator resume_pass).
Proof.
  unfold run_attack, log. destruct (renders _); [|done]. rewrite bind_ok.
  destruct (workers <=? 0); [done|].
  match goal with
  | |- (?r ≫= _) = _ -> _ => destruct r as [d1|e]; [|done]
  end.
  rewrite bind_ok. by intros [= <- _].
Qed.




Example run_attack_trace_batches :
  omap (fun e => match e with Submitted f => Some f | _ => None end)
    (trace (run_loop (locked_with "2") calm 1 1 None (map str (range 0 10)) None))
  = map (fun i => Future i [str (Z.of_nat i)]) (seq 0 7).
Proof. vm_compute. reflexivity. Qed.

(** ** The dispatcher: batches, verdicts and the throttle *)

(** X1. Under every schedule, the batches that [run_attack] submits are
    consecutive slices of the candidate stream: concatenated in the order of
    submission they are a prefix of the candidates pulled, which are a prefix
    of the stream. Every batch holds exactly [max(1, batch_size)] candidates,
    except that the last one submitted may be a shorter, non-empty one (the
    final batch). *)
Theorem run_attack_batches_slice_stream
  (pdf : string -> open_outcome) (sched : schedule) (workers batch_size : Z)
  (timeout : option Z) (generator : list string) (resume_pass : option string) :
  let tr := trace (run_loop pdf sched workers batch_size timeout generator
                            resume_pass) in
  concat (submitted_batches tr) `prefix_of` pulled tr
  /\ pulled tr `prefix_of` generator
  /\ exists full tail,
       submitted_batches tr = full ++ tail
       /\ Forall (fun b => length b = full_size batch_size) full
       /\ (tail = []
           \/ exists b, tail = [b]
                        /\ (0 < length b < full_size batch_size)%nat).
Proof. apply batching_run_loop. Qed.

(** X2. An attack that neither the user nor the timeout cuts short is
    exhaustive: when it returns [None] for a password-protected document, no
    candidate of the stream opens the document. *)
Theorem run_attack_none_is_exhaustive
  (pdf : string -> open_outcome) (sched : schedule) (workers batch_size : Z)
  (timeout : option Z) (renders : log_call -> bool)
  (session_dir attack_name : string) (generator : list string)
  (pdf_path : string) (resume_pass : option string) (d d' : disk) :
  pdf EmptyString <> Opened ->
  uninterrupted sched timeout ->
  run_attack pdf sched workers batch_size timeout renders session_dir
             attack_name generator pdf_path resume_pass d = Ok (None, d') ->
  Forall (fun p => pdf p <> Opened) generator.
Proof.
  intros Hlocked Hun Hnone%run_attack_returned. symmetry in Hnone.
  destruct (run_loop_exhausted pdf sched workers batch_size timeout Hlocked
              generator resume_pass Hun Hnone) as (_ & Hsub & Hall).
  apply Forall_forall. intros p Hp. rewrite <- Hsub in Hp.
  apply list_elem_of_In, in_concat in Hp as (b & Hb & Hp).
  apply list_elem_of_In in Hb. apply list_elem_of_In in Hp.
  unfold submitted_batches in Hb. apply list_elem_of_omap in Hb as (e & He & Hb).
  destruct e as [|f|]; try done. injection Hb as <-.
  pose proof (attempt_crack_batch_none pdf (fut_batch f) (Hall f He)) as Hn.
  by apply (proj1 (Forall_forall _ _) Hn).
Qed.

(** Ten candidates in batches of three, none of which opens the document. *)
Lemma run_attack_none_is_exhaustive_witness :
  Forall (fun p => locked_with "x" p <> Opened) (map str (range 0 10)).
Proof.
  apply (run_attack_none_is_exhaustive (locked_with "x") calm 2 3 None
           (fun _ => true) "sessions" "range" (map str (range 0 10))
           "doc.pdf" None (Disk ∅ true true)
           (Disk {[ session_file_of "sessions" "doc.pdf" := checkpoint "9" ]}
                 true true)).
  - discriminate.
  - by repeat split.
  - vm_compute. reflexivity.
Defined.

(** X3. Under every schedule and for every document, a password that
    [run_attack] returns is a candidate of the stream it was given, is not
    empty, and opens the document. *)
Theorem run_attack_reports_stream_candidate
  (pdf : string -> open_outcome) (sched : schedule) (workers batch_size : Z)
  (timeout : option Z) (renders : log_call -> bool)
  (session_dir attack_name : string) (generator : list string)
  (pdf_path : string) (resume_pass : option string) (d d' : disk)
  (p : string) :
  run_attack pdf sched workers batch_size timeout renders session_dir
             attack_name generator pdf_path resume_pass d = Ok (Some p, d') ->
  p ∈ generator /\ p <> EmptyString /\ pdf p = Opened.
Proof.
  intros Hfound%run_attack_returned. symmetry in Hfound.
  pose proof (sound_run_loop pdf sched workers batch_size timeout resume_pass
                generator) as (_ & _ & Hs).
  rewrite Hfound in Hs.
  destruct Hs as (pre & f & Htr & Hne & _ & Hsub & Hres).
  apply attempt_crack_batch_some in Hres as [Hin Hopen].
  split; [|done].
  destruct (batching_run_loop pdf sched workers batch_size timeout generator
              resume_pass) as ([r1 H1] & [r2 H2] & _).
  rewrite H2, H1. apply elem_of_app. left. apply elem_of_app. left.
  apply list_elem_of_In, in_concat. exists (fut_batch f).
  split; apply list_elem_of_In; [|done].
  apply submitted_batch_listed. rewrite Htr. apply elem_of_app. by left.
Qed.

Lemma run_attack_reports_stream_candidate_witness :
  "7" ∈ map str (range 0 10) /\ "7" <> EmptyString
  /\ locked_with "7" "7" = Opened.
Proof.
  apply (run_attack_reports_stream_candidate (locked_with "7") calm 2 3 None
           (fun _ => true) "sessions" "range" (map str (range 0 10))
           "doc.pdf" None
           (Disk {[ session_file_of "sessions" "doc.pdf" := checkpoint "4" ]}
                 true true)
           (Disk ∅ true true)).
  vm_compute. reflexivity.
Defined.

Section ThrottleFacts.

Variable pdf : string -> open_outcome.
Variable sched : schedule.
Variables (workers batch_size : Z) (timeout : option Z).

Hypothesis workers_positive : 0 < workers.

Lemma remove_future_length (f : future) (fs : list future) :
  (length (remove_future f fs) <= length fs)%nat
  /\ (f ∈ fs -> (length (remove_future f fs) < length fs)%nat).
Proof.
  induction fs as [|g fs [IH1 IH2]]; simpl.
  - split; [lia|]. by intros ?%not_elem_of_nil.
  - case_bool_decide as Hg; simpl; [split; lia|].
    split; [lia|]. intros [?|Hin]%elem_of_cons; [done|].
    specialize (IH2 Hin). lia.
Qed.

Lemma read_results_length (fs : list future) (st : state) :
  (length (futures (read_results pdf true fs st)) <= length (futures st))%nat.
Proof.
  revert st. induction fs as [|f fs IH]; intros st; [done|].
  simpl read_results. destruct (truthy _); [done|].
  etransitivity; [apply IH|]. simpl. apply remove_future_length.
Qed.

Lemma done_set_head (positions : list nat) (fs : list future) :
  fs <> [] ->
  exists f rest, done_set positions fs = f :: rest /\ f ∈ fs.
Proof.
  intros Hfs. unfold done_set.
  pose proof (select_subset positions fs []) as Hsub.
  destruct (select positions fs []) as [|f rest].
  - destruct fs as [|f fs]; [done|]. exists f, []. split; [done|].
    apply list_elem_of_here.
  - exists f, rest. split; [done|]. apply Hsub, list_elem_of_here.
Qed.

Lemma throttled_dispatch (n : nat) (st : state) :
  found_password st = None ->
  Z.of_nat (length (futures st)) < workers * 5 ->
  let r := dispatch_batch pdf sched workers batch_size n st in
  Z.of_nat (length (futures (fst r))) <= workers * 5
  /\ (snd r = false -> found_password (fst r) = None ->
      Z.of_nat (length (futures (fst r))) < workers * 5).
Proof.
  intros Hnone Hlt. unfold dispatch_batch. cbv zeta.
  destruct (batch_size <=? _); [|cbn [fst snd]; split; [lia|intros; lia]].
  set (st2 := State [] (futures (submit st)) (submitted (submit st))
                    (found_password (submit st))
                    (last_checked_password (submit st))
                    (trace (submit st))).
  assert (length (futures st2) = S (length (futures st))) as Hlen.
  { unfold st2, submit. simpl. rewrite length_app. simpl. lia. }
  assert (found_password st2 = None) as Hnone2 by exact Hnone.
  clearbody st2.
  destruct (Z.leb_spec (workers * 5) (Z.of_nat (length (futures st2))))
    as [Hfull|Hroom]; [|cbn [fst snd]; split; [lia|intros; lia]].
  destruct (interrupt_at_wait sched n); [cbn [fst snd]; split; [lia|done]|].
  cbn [fst snd].
  pose proof (read_results_length
                (done_set (wait_done sched n) (futures st2)) st2) as Hle.
  split; [lia|]. intros _ Hend.
  destruct (done_set_head (wait_done sched n) (futures st2))
    as (f & rest & Hdone & Hin).
  { intros Hnil. rewrite Hnil in Hlen. done. }
  rewrite Hdone in Hend |- *. simpl read_results in Hend |- *.
  destruct (truthy (attempt_crack_batch pdf (fut_batch f))) eqn:Ht.
  { simpl in Hend. by rewrite Hend in Ht. }
  set (st3 := State _ _ _ _ _ _) in *.
  pose proof (read_results_length rest st3) as Hle3.
  assert (length (futures st3) < length (futures st2))%nat as Hdrop
    by (by apply remove_future_length).
  lia.
Qed.

Lemma throttled_pull_loop (generator : list string) (n : nat) (st : state) :
  found_password st = None ->
  Z.of_nat (length (futures st)) < workers * 5 ->
  let r := pull_loop pdf sched workers batch_size timeout n generator st in
  Z.of_nat (length (futures (fst r))) <= workers * 5
  /\ (snd r = LoopEnded -> found_password (fst r) = None ->
      Z.of_nat (length (futures (fst r))) < workers * 5).
Proof.
  revert n st. induction generator as [|pwd rest IH]; intros n st Hnone Hlt.
  { simpl. split; [lia|done]. }
  rewrite pull_loop_cons.
  destruct (interrupt_at_pull sched n); [simpl; split; [lia|done]|].
  pose proof (throttled_dispatch n (after_pull pwd st) Hnone Hlt) as [Hle Hlt2].
  pose proof (dispatch_batch_found pdf sched workers batch_size n
                (after_pull pwd st) Hnone) as Hf2.
  destruct (dispatch_batch _ _ _ _ _ _) as [st2 interrupted].
  cbn [fst snd] in *.
  destruct interrupted; [simpl; split; [lia|done]|].
  destruct (truthy (found_password st2)) eqn:Ht.
  { cbn [fst snd]. split; [lia|]. intros _ Hn. by rewrite Hn in Ht. }
  destruct (timeout_set timeout && timed_out_after sched n).
  { cbn [fst snd]. split; [lia|]. intros _. by apply Hlt2. }
  apply IH; [by apply Hf2|]. apply Hlt2; [done|by apply Hf2].
Qed.

End ThrottleFacts.

Lemma read_results_keep (pdf : string -> open_outcome) (fs : list future)
  (st : state) :
  futures (read_results pdf false fs st) = futures st.
Proof.
  revert st. induction fs as [|f fs IH]; intros st; [done|].
  simpl read_results. destruct (truthy _); [done|]. by rewrite IH.
Qed.

(** X4. The throttle: with a positive number of workers, and under every
    schedule, the list of futures never holds more than [workers * 5]
    batches, neither when the loop over the candidates is left (after any
    number of candidates) nor at the end of the run. *)
Theorem run_attack_throttles_submission
  (pdf : string -> open_outcome) (sched : schedule) (workers batch_size : Z)
  (timeout : option Z) (generator : list string) (resume_pass : option string) :
  0 < workers ->
  Z.of_nat (length (futures (fst (pull_loop pdf sched workers batch_size timeout
                                    0 generator (initial resume_pass)))))
  <= workers * 5
  /\ Z.of_nat (length (futures (run_loop pdf sched workers batch_size timeout
                                  generator resume_pass)))
     <= workers * 5.
Proof.
  intros Hw.
  pose proof (throttled_pull_loop pdf sched workers batch_size timeout
                generator 0 (initial resume_pass) eq_refl) as [Hle Hlt].
  { simpl. lia. }
  split; [done|]. unfold run_loop.
  pose proof (sound_pull_loop pdf sched workers batch_size timeout resume_pass
                generator 0 (initial resume_pass)
                (sound_initial pdf resume_pass) eq_refl) as Hsound.
  destruct (pull_loop _ _ _ _ _ _ _ _) as [st exit]. cbn [fst snd] in *.
  destruct exit; [|done].
  destruct (truthy (found_password st)) eqn:Ht.
  { destruct (batch st); by rewrite ?Ht. }
  pose proof (sound_found_truthy pdf resume_pass st Hsound Ht) as Hnone.
  specialize (Hlt eq_refl Hnone).
  set (st1 := match batch st with
              | [] => st
              | _ :: _ => submit st
              end).
  assert (Z.of_nat (length (futures st1)) <= workers * 5) as H1.
  { unfold st1. destruct (batch st); [lia|].
    unfold submit. simpl. rewrite length_app. simpl. lia. }
  destruct (truthy (found_password st1)); [done|].
  unfold drain. by rewrite read_results_keep.
Qed.

Lemma run_attack_throttles_submission_witness :
  let generator := map str (range 0 40) in
  Z.of_nat (length (futures (fst (pull_loop (locked_with "x") calm 1 2 None
                                    0 generator (initial None)))))
  <= 1 * 5
  /\ Z.of_nat (length (futures (run_loop (locked_with "x") calm 1 2 None
                                  generator None)))
     <= 1 * 5.
Proof.
  intros generator.
  apply (run_attack_throttles_submission (locked_with "x") calm 1 2 None
           generator None).
  lia.
Defined.

(** ** The generators: how many candidates, and which *)

Lemma custom_brute_total_sum (n : Z) (lengths : list Z) (total : Z) :
  Forall (fun len => 0 <= len) lengths ->
  custom_brute_total n lengths (Some total)
  = Ok (Some (total + foldr Z.add 0 (map (fun len => n ^ len) lengths))).
Proof.
  intros Hnn. revert total.
  induction Hnn as [|len rest Hlen _ IH]; intros total; simpl.
  - do 2 f_equal. lia.
  - destruct (Z.ltb_spec len 0); [lia|]. rewrite bind_ok, IH.
    do 2 f_equal. lia.
Qed.

Lemma ascending_lengths_count (charset : string) (lengths : list Z) :
  Forall (fun len => 0 <= len) lengths ->
  Z.of_nat
    (length (flat_map
               (fun len => map join (lex_tuples (chars charset) (Z.to_nat len)))
               lengths))
  = foldr Z.add 0
      (map (fun len => Z.of_nat (String.length charset) ^ len) lengths).
Proof.
  induction 1 as [|len rest Hlen _ IH]; [done|]. simpl.
  rewrite length_app, Nat2Z.inj_add, IH, length_map, lex_tuples_length.
  rewrite chars_length, Nat2Z.inj_pow, Z2Nat.id by done. done.
Qed.

(** X5. For a minimum length that is not negative, the estimate of the
    custom brute-force mode is exact: [gen_custom_brute] without a cursor
    yields exactly [estimate_total_custom_brute] candidates (none when the
    minimum exceeds the maximum). *)
Theorem custom_brute_estimate_is_exact (charset : string) (min_l max_l : Z) :
  0 <= min_l ->
  exists l,
    gen_custom_brute charset min_l max_l None = Ok l
    /\ estimate_total_custom_brute charset min_l max_l
       = Ok (EstInt (Z.of_nat (length l))).
Proof.
  intros Hmin. unfold gen_custom_brute, estimate_total_custom_brute.
  assert (Forall (fun len => 0 <= len) (range min_l (max_l + 1))) as Hnn.
  { apply Forall_forall. intros x Hx%range_elem. lia. }
  rewrite custom_brute_loop_fresh by done. eexists. split; [done|].
  rewrite ascending_lengths_count by done.
  destruct (Z.ltb_spec max_l min_l) as [Hlt|Hle].
  - by rewrite range_nil by lia.
  - by rewrite custom_brute_total_sum, bind_ok.
Qed.

Lemma custom_brute_estimate_is_exact_witness :
  exists l,
    gen_custom_brute "abc" 1 3 None = Ok l
    /\ estimate_total_custom_brute "abc" 1 3
       = Ok (EstInt (Z.of_nat (length l))).
Proof. apply custom_brute_estimate_is_exact. lia. Defined.

Lemma str_inj (i j : Z) : str i = str j -> i = j.
Proof.
  intros H. pose proof (int_str i) as Hi. rewrite H, int_str in Hi.
  by injection Hi.
Qed.

Lemma mapM_int_str (l : list Z) : mapM int (map str l) = Ok l.
Proof.
  induction l as [|i l IH]; [done|]. simpl.
  rewrite int_str. simpl. rewrite IH. done.
Qed.

Lemma range_NoDup (a b : Z) : NoDup (range a b).
Proof.
  unfold range. apply NoDup_fmap_2; [|apply NoDup_seq].
  intros i j. lia.
Qed.

(** X6. The range mode without a cursor yields the decimal texts of the
    integers from [start] to [end] in ascending order: [end - start + 1]
    candidates when that is positive and none otherwise, no two of them
    equal, each read back by [int] as the integer it was printed from. *)
Theorem gen_range_counts_distinct_numbers (start end_ : Z) :
  exists l,
    gen_range start end_ None = Ok l
    /\ Z.of_nat (length l) = Z.max 0 (end_ - start + 1)
    /\ NoDup l
    /\ mapM int l = Ok (range start (end_ + 1)).
Proof.
  unfold gen_range. rewrite bind_ok. eexists. split; [done|].
  rewrite length_map, range_length. split; [lia|]. split.
  - apply NoDup_fmap_2; [|apply range_NoDup]. intros i j. apply str_inj.
  - apply mapM_int_str.
Qed.

Lemma digits_fuel_length (fuel : nat) (n : Z) (acc : list ascii) (k : nat) :
  (1 <= k)%nat -> 0 <= n < 10 ^ Z.of_nat k ->
  (length (digits_fuel fuel n acc) <= k + length acc)%nat.
Proof.
  revert n acc k. induction fuel as [|fuel IH]; intros n acc k Hk Hn; simpl;
    [lia|].
  destruct (Z.ltb_spec n 10) as [Hlt|Hge]; simpl; [lia|].
  destruct k as [|[|k]]; [lia| |].
  - change (10 ^ Z.of_nat 1) with 10 in Hn. lia.
  - etransitivity; [apply (IH _ _ (S k))|simpl; lia]; [lia|].
    rewrite (Nat2Z.inj_succ (S k)), Z.pow_succ_r in Hn by lia.
    split; [apply Z.div_pos; lia|].
    apply Z.div_lt_upper_bound; lia.
Qed.

Lemma format_0d_width (width : nat) (i : Z) :
  (1 <= width)%nat -> 0 <= i < 10 ^ Z.of_nat width ->
  String.length (format_0d width i) = width
  /\ Forall (fun c => is_digit c = true) (chars (format_0d width i)).
Proof.
  intros Hw Hi. unfold format_0d.
  destruct (Z.ltb_spec i 0) as [?|_]; [lia|].
  rewrite Z.abs_eq by lia.
  pose proof (digits_fuel_length (S (Z.to_nat (Z.log2 i))) i [] width Hw Hi)
    as Hlen.
  fold (digits i) in Hlen. simpl in Hlen.
  destruct (digits_spec i) as (_ & Hd & _); [lia|].
  rewrite join_length, chars_join, length_app, length_replicate.
  split; [lia|]. apply Forall_app. split; [|done].
  apply Forall_forall. intros c [-> _]%elem_of_replicate. done.
Qed.

(** X7. The numeric mode for a positive [length] and no cursor yields
    [10 ** length] candidates, no two of them equal, every one a text of
    exactly [length] decimal digits. *)
Theorem gen_numeric_fixed_width (length : Z) :
  0 < length ->
  exists l,
    gen_numeric length None = Ok l
    /\ Z.of_nat (List.length l) = 10 ^ length
    /\ NoDup l
    /\ Forall (fun s => String.length s = Z.to_nat length
                        /\ Forall (fun c => is_digit c = true) (chars s)) l.
Proof.
  intros Hlen. unfold gen_numeric. rewrite bind_ok.
  destruct (Z.ltb_spec length 0) as [?|_]; [lia|].
  eexists. split; [done|].
  rewrite length_map, range_length. split; [lia|]. split.
  - apply NoDup_fmap_2_strong; [|apply range_NoDup].
    intros i j [Hi _]%range_elem [Hj _]%range_elem Heq.
    pose proof (int_format_0d (Z.to_nat length) i Hi) as Hint.
    rewrite Heq, int_format_0d in Hint by done. by injection Hint.
  - apply Forall_forall. intros s (i & -> & Hi%range_elem)%list_elem_of_fmap.
    apply format_0d_width; [lia|]. rewrite Z2Nat.id by lia. lia.
Qed.

Lemma gen_numeric_fixed_width_witness :
  exists l,
    gen_numeric 3 None = Ok l
    /\ Z.of_nat (List.length l) = 10 ^ 3
    /\ NoDup l
    /\ Forall (fun s => String.length s = Z.to_nat 3
                        /\ Forall (fun c => is_digit c = true) (chars s)) l.
Proof. apply gen_numeric_fixed_width. lia. Defined.

Lemma length_bind_singleton {A B : Type} (f : A -> B) (l : list A) :
  length (x ← l; [f x]) = length l.
Proof.
  induction l as [|x l IH]; [done|].
  change (length ([f x] ++ (y ← l; [f y])) = S (length l)).
  rewrite length_app, IH. done.
Qed.

Lemma length_bind_sum {A B : Type} (f : A -> list B) (l : list A) :
  Z.of_nat (length (l ≫= f))
  = foldr Z.add 0 (map (fun x => Z.of_nat (length (f x))) l).
Proof.
  induction l as [|x l IH]; [done|].
  change ((x :: l) ≫= f) with (f x ++ (l ≫= f)).
  rewrite length_app, Nat2Z.inj_add, IH. done.
Qed.

Lemma num_days_positive (year month : Z) : 28 <= num_days year month <= 31.
Proof.
  unfold num_days, mdays.
  destruct (month =? 2); simpl; [destruct (isleap year); lia|].
  destruct (_ || _); lia.
Qed.

Lemma year_days (year : Z) :
  Z.of_nat (length (month ← range 1 13;
                    day ← range 1 (num_days year month + 1);
                    [(year, month, day)]))
  = days_in_year year.
Proof.
  rewrite length_bind_sum.
  change (range 1 13) with [1; 2; 3; 4; 5; 6; 7; 8; 9; 10; 11; 12].
  cbn [map foldr].
  rewrite !length_bind_singleton, !range_length.
  unfold days_in_year, num_days, mdays. simpl.
  destruct (isleap year); reflexivity.
Qed.

Lemma all_days_count (start_year end_year : Z) :
  Z.of_nat (length (all_days start_year end_year))
  = foldr Z.add 0 (map days_in_year (range start_year (end_year + 1))).
Proof.
  unfold all_days. rewrite length_bind_sum. f_equal.
  apply map_ext. intros year. apply year_days.
Qed.

Lemma mapM_total {A B : Type} (f : A -> result B) (l : list A) :
  (forall x, exists y, f x = Ok y) ->
  exists r, mapM f l = Ok r /\ length r = length l.
Proof.
  intros Hf. induction l as [|x l (r & Hr & Hlen)].
  - by exists [].
  - destruct (Hf x) as [y Hy]. exists (y :: r). simpl.
    rewrite Hy. simpl. rewrite Hr. simpl. by rewrite Hlen.
Qed.

Lemma format_date_known (date_format separator : string) (year month day : Z) :
  date_format ∈ date_formats ->
  exists s, format_date date_format separator year month day = Ok s.
Proof.
  unfold date_formats. rewrite !elem_of_cons, elem_of_nil.
  intros [->|[->|[->|[->|[->|[->|[]]]]]]]; by eexists.
Qed.

Lemma format_date_unknown (date_format separator : string) (year month day : Z) :
  date_format ∉ date_formats ->
  format_date date_format separator year month day = Raise ValueError.
Proof.
  unfold date_formats. rewrite !not_elem_of_cons.
  intros (H1 & H2 & H3 & H4 & H5 & H6 & _). unfold format_date.
  apply String.eqb_neq in H1, H2, H3, H4, H5, H6.
  by rewrite H1, H2, H3, H4, H5, H6.
Qed.

(** X8. For each of its six formats and whatever the separator, the date
    mode without a cursor yields one candidate for each calendar day of the
    years [start_year] to [end_year]: 366 for a leap year of the Gregorian
    rule and 365 for any other, so never more than the 366 per year that
    [main] announces. *)
Theorem gen_date_counts_calendar_days
  (start_year end_year : Z) (date_format separator : string) :
  date_format ∈ date_formats ->
  exists l,
    gen_date start_year end_year date_format separator None = Ok l
    /\ Z.of_nat (length l)
       = foldr Z.add 0 (map days_in_year (range start_year (end_year + 1)))
    /\ Z.of_nat (length l) <= 366 * Z.max 0 (end_year - start_year + 1).
Proof.
  intros Hfmt. unfold gen_date.
  destruct (mapM_total
              (fun '(year, month, day) =>
                 format_date date_format separator year month day)
              (all_days start_year end_year)) as (dates & -> & Hlen).
  { intros [[year month] day]. by apply format_date_known. }
  rewrite bind_ok. simpl negb. rewrite date_loop_fresh.
  eexists. split; [done|]. rewrite Hlen, all_days_count. split; [done|].
  assert (forall ys, foldr Z.add 0 (map days_in_year ys)
                     <= 366 * Z.of_nat (length ys)) as Hbound.
  { induction ys as [|y ys IH]; [done|]. cbn [map foldr length].
    unfold days_in_year at 1. destruct (isleap y); lia. }
  etransitivity; [apply Hbound|]. rewrite range_length. lia.
Qed.

Lemma gen_date_counts_calendar_days_witness :
  exists l,
    gen_date 2023 2024 "DDMMYYYY" "-" None = Ok l
    /\ Z.of_nat (length l)
       = foldr Z.add 0 (map days_in_year (range 2023 (2024 + 1)))
    /\ Z.of_nat (length l) <= 366 * Z.max 0 (2024 - 2023 + 1).
Proof.
  apply gen_date_counts_calendar_days.
  unfold date_formats. apply list_elem_of_here.
Defined.

Lemma all_days_first (start_year end_year : Z) :
  start_year <= end_year ->
  exists rest, all_days start_year end_year = (start_year, 1, 1) :: rest.
Proof.
  intros Hle. unfold all_days.
  rewrite (range_cons start_year (end_year + 1)) by lia.
  set (days := fun year month : Z =>
                 day ← range 1 (num_days year month + 1);
                 [(year, month, day)]).
  set (months := fun year : Z => month ← range 1 13; days year month).
  change (exists rest,
            months start_year ++ (range (start_year + 1) (end_year + 1) ≫= months)
            = (start_year, 1, 1) :: rest).
  assert (exists rest, months start_year = (start_year, 1, 1) :: rest)
    as [rest ->]; [|by eexists].
  unfold months. change (range 1 13) with (1 :: range 2 13).
  change (exists rest,
            days start_year 1 ++ (range 2 13 ≫= days start_year)
            = (start_year, 1, 1) :: rest).
  assert (exists rest, days start_year 1 = (start_year, 1, 1) :: rest)
    as [rest ->]; [|by eexists].
  unfold days. pose proof (num_days_positive start_year 1).
  rewrite (range_cons 1) by lia. by eexists.
Qed.

(** X9. A format that is not one of the six makes the date mode raise
    [ValueError] at its first date, before any candidate and whatever the
    cursor; when the range of years is empty there is no first date, and the
    generator ends without a candidate and without an error. *)
Theorem gen_date_unknown_format
  (start_year end_year : Z) (date_format separator : string)
  (start_after : option string) :
  date_format ∉ date_formats ->
  gen_date start_year end_year date_format separator start_after
  = if start_year <=? end_year then Raise ValueError else Ok [].
Proof.
  intros Hfmt. unfold gen_date.
  destruct (Z.leb_spec start_year end_year) as [Hle|Hgt].
  - destruct (all_days_first start_year end_year Hle) as [rest ->].
    simpl. by rewrite format_date_unknown.
  - unfold all_days. by rewrite (range_nil start_year (end_year + 1)) by lia.
Qed.

Lemma gen_date_unknown_format_witness :
  gen_date 2024 2024 "YYYY" "" (Some "x")
  = if 2024 <=? 2024 then Raise ValueError else Ok [].
Proof.
  apply gen_date_unknown_format.
  unfold date_formats. rewrite !not_elem_of_cons.
  repeat split; (discriminate || apply not_elem_of_nil).
Defined.

(** ** Masks *)

Lemma parse_mask_loop_cons (c : ascii) (after : list ascii) :
  parse_mask_loop (c :: after)
  = match CHARSET_MAP c with
    | None => Raise ValueError
    | Some charset =>
        match after with
        | a :: inside =>
            if Ascii.eqb a "{" then scan_brace charset [] inside
            else rest ← parse_mask_loop after;
                 Ok (mk_segment charset (1, 1) :: rest)
        | [] => Ok [mk_segment charset (1, 1)]
        end
    end.
Proof.
  cbn [parse_mask_loop]. destruct (CHARSET_MAP c) as [charset|]; [|done].
  destruct after as [|a inside]; [done|].
  destruct (Ascii.eqb_spec a "{") as [->|Hne].
  - match goal with
    | |- ?scan [] inside = _ =>
        assert (forall l acc, scan acc l = scan_brace charset acc l) as Hscan;
        [|apply Hscan]
    end.
    induction l as [|x l IH]; intros acc; [done|].
    cbn [scan_brace]. destruct (Ascii.eqb x "}"); [done|]. apply IH.
  - destruct a as [[] [] [] [] [] [] [] []]; try reflexivity. done.
Qed.

Lemma bind_raise {A B : Type} (e : exn) (k : A -> result B) :
  (Raise e ≫= k) = Raise e.
Proof. done. Qed.

Lemma bind_ok_inv {A B : Type} (r : result A) (k : A -> result B) (b : B) :
  (r ≫= k) = Ok b -> exists a, r = Ok a /\ k a = Ok b.
Proof. destruct r as [a|e]; [|done]. intros H. by exists a. Qed.

Lemma parse_mask_loop_app_bounded (n : nat) (l2 : list ascii) :
  head l2 <> Some "{"%char ->
  forall (l1 : list ascii) (p1 : list segment),
    (length l1 <= n)%nat ->
    parse_mask_loop l1 = Ok p1 ->
    parse_mask_loop (l1 ++ l2) = p2 ← parse_mask_loop l2; Ok (p1 ++ p2).
Proof.
  intros Hhead. induction n as [|n IH]; intros l1 p1 Hlen Hp1.
  { destruct l1; [|simpl in Hlen; lia]. injection Hp1 as <-.
    rewrite app_nil_l. by destruct (parse_mask_loop l2). }
  destruct l1 as [|c after].
  { injection Hp1 as <-. rewrite app_nil_l. by destruct (parse_mask_loop l2). }
  change ((c :: after) ++ l2) with (c :: (after ++ l2)).
  rewrite parse_mask_loop_cons in Hp1 |- *.
  destruct (CHARSET_MAP c) as [charset|]; [|done].
  destruct after as [|a inside].
  { injection Hp1 as <-. rewrite app_nil_l.
    destruct l2 as [|a l2']; [done|].
    destruct (Ascii.eqb_spec a "{") as [->|_]; [done|].
    by destruct (parse_mask_loop (a :: l2')). }
  change ((a :: inside) ++ l2) with (a :: (inside ++ l2)). cbv iota beta.
  revert Hp1. destruct (Ascii.eqb a "{"); intros Hp1.
  - simpl in Hlen. assert (length inside <= n)%nat as Hin by lia.
    clear Hlen. revert Hp1. generalize (@nil ascii) as acc.
    induction inside as [|x inside IHin]; intros acc Hp1; [done|].
    change ((x :: inside) ++ l2) with (x :: (inside ++ l2)).
    cbn [scan_brace] in Hp1 |- *. simpl in Hin.
    destruct (Ascii.eqb x "}"); [|apply IHin; [lia|done]].
    apply bind_ok_inv in Hp1 as (bounds & -> & Hp1).
    apply bind_ok_inv in Hp1 as (rest & Hrest & [= <-]).
    rewrite bind_ok, (IH inside rest) by (done || lia).
    by destruct (parse_mask_loop l2).
  - apply bind_ok_inv in Hp1 as (rest & Hrest & [= <-]).
    change (a :: (inside ++ l2)) with ((a :: inside) ++ l2).
    rewrite (IH (a :: inside) rest) by (done || simpl in *; lia).
    by destruct (parse_mask_loop l2).
Qed.

Lemma parse_mask_loop_app (l1 l2 : list ascii) (p1 : list segment) :
  head l2 <> Some "{"%char ->
  parse_mask_loop l1 = Ok p1 ->
  parse_mask_loop (l1 ++ l2) = p2 ← parse_mask_loop l2; Ok (p1 ++ p2).
Proof.
  intros Hhead. by apply (parse_mask_loop_app_bounded (length l1)).
Qed.

Lemma parse_mask_ok (mask : string) (parsed : list segment) :
  parse_mask mask = Ok parsed <->
  parse_mask_loop (chars mask) = Ok parsed /\ parsed <> [].
Proof.
  unfold parse_mask. destruct mask as [|c mask].
  { simpl. split; [done|]. by intros [[= <-] ?]. }
  destruct (parse_mask_loop (chars (String c mask))) as [[|s l]|e]; simpl.
  - split; [done|]. by intros [[= <-] ?].
  - split; [by intros [= <-]|by intros [? _]].
  - split; [done|]. by intros [? _].
Qed.

Lemma parse_mask_loop_nonempty (l : list ascii) (parsed : list segment) :
  l <> [] -> parse_mask_loop l = Ok parsed -> parsed <> [].
Proof.
  destruct l as [|c after]; [done|]. intros _.
  rewrite parse_mask_loop_cons. destruct (CHARSET_MAP c) as [charset|]; [|done].
  destruct after as [|a inside]; [by intros [= <-]|].
  destruct (Ascii.eqb a "{").
  - generalize (@nil ascii) as acc.
    induction inside as [|x inside IH]; intros acc; [done|].
    cbn [scan_brace]. destruct (Ascii.eqb x "}"); [|apply IH].
    intros (bounds & _ & (rest & _ & [= <-])%bind_ok_inv)%bind_ok_inv. done.
  - by intros (rest & _ & [= <-])%bind_ok_inv.
Qed.

Lemma parse_mask_unfold (c : ascii) (mask : string) :
  parse_mask (String c mask) = parse_mask_loop (chars (String c mask)).
Proof.
  unfold parse_mask.
  destruct (parse_mask_loop (chars (String c mask))) as [parsed|e] eqn:Hp;
    [|done].
  apply parse_mask_loop_nonempty in Hp; [|done]. by destruct parsed.
Qed.

(** X10. Masks compose. When a mask parses, and a text that does not begin
    with an opening brace is appended to it, the result parses exactly when
    the appended text does (or is empty), to the segments of the first
    followed by the segments of the second; an error in the second text is
    the error of the whole. *)
Theorem parse_mask_composes (mask1 mask2 : string) (parsed1 : list segment) :
  parse_mask mask1 = Ok parsed1 ->
  head (chars mask2) <> Some "{"%char ->
  parse_mask (mask1 +:+ mask2)
  = match mask2 with
    | EmptyString => Ok parsed1
    | _ => parsed2 ← parse_mask mask2; Ok (parsed1 ++ parsed2)
    end.
Proof.
  intros Hp1 Hhead. destruct mask1 as [|c1 mask1]; [done|].
  rewrite parse_mask_unfold in Hp1.
  change (String c1 mask1 +:+ mask2) with (String c1 (mask1 +:+ mask2)).
  rewrite parse_mask_unfold.
  change (String c1 (mask1 +:+ mask2)) with (String c1 mask1 +:+ mask2).
  rewrite chars_append.
  rewrite (parse_mask_loop_app _ _ parsed1 Hhead Hp1).
  destruct mask2 as [|c2 mask2].
  - change (Ok (parsed1 ++ []) = Ok parsed1). by rewrite app_nil_r.
  - by rewrite parse_mask_unfold.
Qed.

Lemma parse_mask_composes_witness :
  parse_mask ("w{1,2}" +:+ "d{2}")
  = parsed2 ← parse_mask "d{2}";
    Ok ([Segment LOWERCASE (range 1 3)] ++ parsed2).
Proof.
  apply (parse_mask_composes "w{1,2}" "d{2}" [Segment LOWERCASE (range 1 3)]).
  - vm_compute. reflexivity.
  - discriminate.
Defined.

Lemma scan_brace_body (charset : string) (body rest : list ascii) :
  Forall (fun c => Ascii.eqb c "}" = false) body ->
  forall acc,
    scan_brace charset acc (body ++ "}"%char :: rest)
    = bounds ← parse_len_match (acc ++ body);
      parsed ← parse_mask_loop rest;
      Ok (mk_segment charset bounds :: parsed).
Proof.
  induction 1 as [|c body Hc _ IH]; intros acc.
  - by rewrite app_nil_r.
  - change ((c :: body) ++ "}"%char :: rest)
      with (c :: (body ++ "}"%char :: rest)).
    cbn [scan_brace]. rewrite Hc, IH, <- app_assoc. done.
Qed.

Lemma str_chars (n : Z) :
  chars (str n) <> []
  /\ Forall (fun c => is_digit c = true \/ c = "-"%char) (chars (str n)).
Proof.
  split.
  { intros Hnil. apply (str_nonempty n). by rewrite <- (join_chars (str n)), Hnil. }
  unfold str. destruct (Z.ltb_spec n 0) as [Hneg|Hpos]; rewrite chars_join.
  - constructor; [by right|]. destruct (digits_spec (- n)) as (_ & Hd & _); [lia|].
    eapply Forall_impl; [exact Hd|]. by left.
  - destruct (digits_spec n) as (_ & Hd & _); [lia|].
    eapply Forall_impl; [exact Hd|]. by left.
Qed.

Lemma number_has_no_comma (n : Z) : has_comma (chars (str n)) = false.
Proof.
  destruct (str_chars n) as [_ H]. unfold has_comma.
  induction H as [|c l Hc _ IH]; [done|]. simpl. rewrite IH, orb_false_r.
  destruct Hc as [Hc| ->]; [|done].
  destruct (Ascii.eqb_spec c ","); [by subst|done].
Qed.

Lemma number_has_no_brace (n : Z) :
  Forall (fun c => Ascii.eqb c "}" = false) (chars (str n)).
Proof.
  destruct (str_chars n) as [_ H]. eapply Forall_impl; [exact H|].
  intros c [Hc| ->]; [|done]. destruct (Ascii.eqb_spec c "}"); [by subst|done].
Qed.

Lemma has_comma_app (a b : list ascii) :
  has_comma (a ++ b) = has_comma a || has_comma b.
Proof. apply existsb_app. Qed.

Lemma split_comma_app (a b : list ascii) :
  has_comma a = false -> split_comma (a ++ ","%char :: b) = (a, Some b).
Proof.
  induction a as [|c a IH]; [done|]. simpl.
  intros [Hc Ha]%orb_false_elim. rewrite Hc, (IH Ha). done.
Qed.

Lemma int_chars_str (n : Z) :
  match chars (str n) with
  | [] => Ok 1
  | _ => int (join (chars (str n)))
  end = Ok n.
Proof.
  destruct (str_chars n) as [Hne _].
  destruct (chars (str n)) as [|c l] eqn:Hc; [done|].
  rewrite <- Hc, join_chars. apply int_str.
Qed.

Lemma parse_len_match_exactly (n : Z) :
  parse_len_match (chars (str n)) = Ok (n, n).
Proof.
  unfold parse_len_match. rewrite number_has_no_comma.
  destruct (str_chars n) as [Hne _].
  destruct (chars (str n)) as [|c l] eqn:Hc; [done|].
  rewrite <- Hc, join_chars, int_str. done.
Qed.

Lemma parse_len_match_between (m n : Z) :
  parse_len_match (chars (str m) ++ ","%char :: chars (str n)) = Ok (m, n).
Proof.
  unfold parse_len_match.
  rewrite has_comma_app, split_comma_app by apply number_has_no_comma.
  cbn [has_comma existsb]. change (Ascii.eqb "," ",") with true.
  rewrite orb_true_r. fold (has_comma (chars (str n))).
  rewrite !number_has_no_comma, (int_chars_str m), bind_ok.
  destruct (str_chars n) as [Hn _].
  destruct (chars (str n)) as [|c' l'] eqn:Hcn; [done|].
  rewrite <- Hcn, join_chars, int_str. done.
Qed.

Lemma parse_len_match_up_to (n : Z) :
  parse_len_match (","%char :: chars (str n)) = Ok (1, n).
Proof.
  unfold parse_len_match. cbn [has_comma existsb split_comma].
  change (Ascii.eqb "," ",") with true. cbn [orb].
  fold (has_comma (chars (str n))). rewrite number_has_no_comma, bind_ok.
  destruct (str_chars n) as [Hn _].
  destruct (chars (str n)) as [|c' l'] eqn:Hcn; [done|].
  rewrite <- Hcn, join_chars, int_str. done.
Qed.

Lemma parse_len_match_from (m : Z) :
  parse_len_match (chars (str m) ++ [","%char]) = Ok (m, m).
Proof.
  unfold parse_len_match.
  rewrite has_comma_app, split_comma_app by apply number_has_no_comma.
  cbn [has_comma existsb]. change (Ascii.eqb "," ",") with true.
  rewrite orb_true_r. by rewrite (int_chars_str m).
Qed.

Lemma parse_token (t : token) (seg : segment) :
  token_segment t = Some seg ->
  parse_mask_loop (chars (token_text t)) = Ok [seg].
Proof.
  destruct t as [key spec]. unfold token_segment, token_text. simpl tok_key.
  simpl tok_spec. intros Hseg.
  change (chars (String key (spec_text spec)))
    with (key :: chars (spec_text spec)).
  rewrite parse_mask_loop_cons.
  destruct (CHARSET_MAP key) as [charset|]; [|done].
  injection Hseg as <-.
  destruct spec as [| |n|m n|n|m]; unfold spec_text; rewrite ?chars_append.
  - done.
  - done.
  - change (chars "{") with ["{"%char]. change (chars "}") with ["}"%char].
    cbn [app]. change (Ascii.eqb "{" "{") with true. cbv iota.
    rewrite scan_brace_body by apply number_has_no_brace.
    rewrite app_nil_l, parse_len_match_exactly. done.
  - change (chars "{") with ["{"%char]. change (chars "}") with ["}"%char].
    change (chars ",") with [","%char].
    cbn [app]. change (Ascii.eqb "{" "{") with true. cbv iota.
    replace (chars (str m) ++ ","%char :: chars (str n) ++ ["}"%char])
      with ((chars (str m) ++ ","%char :: chars (str n)) ++ ["}"%char])
      by (by rewrite <- app_assoc).
    rewrite scan_brace_body.
    + rewrite app_nil_l, parse_len_match_between. done.
    + apply Forall_app. split; [apply number_has_no_brace|].
      constructor; [done|apply number_has_no_brace].
  - change (chars "{,") with ["{"%char; ","%char].
    change (chars "}") with ["}"%char].
    cbn [app]. change (Ascii.eqb "{" "{") with true. cbv iota.
    change (","%char :: chars (str n) ++ ["}"%char])
      with ((","%char :: chars (str n)) ++ ["}"%char]).
    rewrite (scan_brace_body charset (","%char :: chars (str n))).
    + rewrite app_nil_l, parse_len_match_up_to. done.
    + constructor; [done|apply number_has_no_brace].
  - change (chars "{") with ["{"%char].
    change (chars ",}") with [","%char; "}"%char].
    cbn [app]. change (Ascii.eqb "{" "{") with true. cbv iota.
    replace (chars (str m) ++ [","%char; "}"%char])
      with ((chars (str m) ++ [","%char]) ++ ["}"%char])
      by (by rewrite <- app_assoc).
    rewrite scan_brace_body.
    + rewrite app_nil_l, parse_len_match_from. done.
    + apply Forall_app. split; [apply number_has_no_brace|by constructor].
Qed.

Lemma mask_text_head (tokens : list token) (segs : list segment) :
  Forall2 (fun t seg => token_segment t = Some seg) tokens segs ->
  head (chars (mask_text tokens)) <> Some "{"%char.
Proof.
  destruct 1 as [|[key spec] seg tokens segs Hseg _]; [done|].
  simpl. intros [= ->]. done.
Qed.

Lemma parse_tokens (tokens : list token) (segs : list segment) :
  Forall2 (fun t seg => token_segment t = Some seg) tokens segs ->
  parse_mask_loop (chars (mask_text tokens)) = Ok segs.
Proof.
  induction 1 as [|t seg tokens segs Hseg Hrest IH]; [done|].
  change (mask_text (t :: tokens)) with (token_text t +:+ mask_text tokens).
  rewrite chars_append.
  rewrite (parse_mask_loop_app _ _ [seg]).
  - by rewrite IH.
  - by eapply mask_text_head.
  - by apply parse_token.
Qed.

(** X11. What a mask means. A mask written as a non-empty sequence of
    segments, each a character-type letter of [CHARSET_MAP] followed by
    nothing, by empty braces, or by braces holding [n], [m,n], [,n] or [m,]
    for decimal integers, parses to one segment per letter, with the
    letter's character set and the lengths 1 (nothing, or empty braces),
    [n], [m] to [n], 1 to [n], and, for [m,], exactly [m]. *)
Theorem parse_mask_reads_tokens (tokens : list token) (segs : list segment) :
  tokens <> [] ->
  mapM token_segment tokens = Some segs ->
  parse_mask (mask_text tokens) = Ok segs.
Proof.
  intros Hne Hsegs%mapM_Some. apply parse_mask_ok.
  split; [by apply parse_tokens|].
  destruct Hsegs; done.
Qed.

Lemma parse_mask_reads_tokens_witness :
  parse_mask "w{2,3}d{,2}h{4,}s{}a"
  = Ok [Segment LOWERCASE [2; 3]; Segment DIGITS [1; 2]; Segment HEX [4];
        Segment SYMBOLS [1];
        Segment (LOWERCASE +:+ UPPERCASE +:+ DIGITS +:+ SYMBOLS +:+ WHITESPACE)
                [1]].
Proof.
  apply (parse_mask_reads_tokens
           [Token "w" (Between 2 3); Token "d" (UpTo 2); Token "h" (From 4);
            Token "s" Braces; Token "a" Once]).
  - done.
  - vm_compute. reflexivity.
Defined.

(** ** The hybrid mode *)

Lemma charset_key_not_digit (c : ascii) (charset : string) :
  CHARSET_MAP c = Some charset ->
  is_digit c = false /\ c <> "{"%char.
Proof.
  destruct c as [[] [] [] [] [] [] [] []]; intros H; try discriminate H;
    by split.
Qed.

Lemma parse_mask_first (mask : string) (parsed : list segment) :
  parse_mask mask = Ok parsed ->
  exists c rest charset,
    mask = String c rest /\ CHARSET_MAP c = Some charset.
Proof.
  destruct mask as [|c rest]; [done|]. rewrite parse_mask_unfold.
  change (chars (String c rest)) with (c :: chars rest).
  rewrite parse_mask_loop_cons.
  destruct (CHARSET_MAP c) as [charset|] eqn:Hc; [|done].
  intros _. by exists c, rest, charset.
Qed.

Lemma parsed_mask_is_no_range (mask : string) (parsed : list segment) :
  parse_mask mask = Ok parsed -> match_range mask = None.
Proof.
  intros (c & rest & charset & -> & Hc)%parse_mask_first.
  apply charset_key_not_digit in Hc as [Hc _].
  unfold match_range. change (chars (String c rest)) with (c :: chars rest).
  cbn [span_digits]. by rewrite Hc.
Qed.

Lemma join_app (a b : list ascii) : join (a ++ b) = join a +:+ join b.
Proof. induction a as [|c a IH]; [done|]. simpl. by rewrite IH. Qed.

Lemma product_app {A : Type} (pools1 pools2 : list (list A)) :
  product (pools1 ++ pools2)
  = flat_map (fun x => map (app x) (product pools2)) (product pools1).
Proof.
  unfold product at 1. rewrite fold_left_app.
  fold (product pools1). apply product_fold_prefix.
Qed.

Lemma flat_map_map {A B C : Type} (f : A -> B) (g : B -> list C) (l : list A) :
  flat_map g (map f l) = flat_map (fun x => g (f x)) l.
Proof. induction l as [|x l IH]; [done|]. simpl. by rewrite IH. Qed.

Lemma map_flat_map {A B C : Type} (f : B -> C) (g : A -> list B) (l : list A) :
  map f (flat_map g l) = flat_map (fun x => map f (g x)) l.
Proof.
  induction l as [|x l IH]; [done|]. simpl. by rewrite map_app, IH.
Qed.

Section HybridFacts.

Variable fs : string -> option string.

Lemma hybrid_loop_fresh (mask2 : string) (gen1 gen2 : list string)
  (rest : option string) :
  get_generator_for_mask fs mask2 None = Ok gen2 ->
  hybrid_loop fs mask2 (None, rest) gen1
  = Ok (flat_map (fun part1 => map (fun part2 => part1 +:+ part2) gen2) gen1).
Proof.
  intros Hgen2. induction gen1 as [|part1 gen1 IH]; [done|].
  cbn [hybrid_loop fst snd].
  rewrite bool_decide_eq_false_2 by done.
  rewrite Hgen2, bind_ok, IH, bind_ok. done.
Qed.

End HybridFacts.

(** X12. The hybrid mode over two masks is the brute-force mode over their
    concatenation: when neither text names a file, both parse as masks and
    no length is negative, [gen_hybrid] without a cursor yields the same
    candidates, in the same order, as [gen_from_mask] for the two masks
    written one after the other. *)
Theorem hybrid_of_masks_is_concatenated_mask
  (fs : string -> option string) (mask1 mask2 : string)
  (parsed1 parsed2 : list segment) :
  fs mask1 = None -> fs mask2 = None ->
  parse_mask mask1 = Ok parsed1 -> parse_mask mask2 = Ok parsed2 ->
  nonneg_lengths parsed1 -> nonneg_lengths parsed2 ->
  gen_hybrid fs [mask1; mask2] None = gen_from_mask (mask1 +:+ mask2) None.
Proof.
  intros Hf1 Hf2 Hp1 Hp2 Hn1 Hn2.
  pose proof (parse_mask_nonempty _ _ Hp1) as Hne1.
  pose proof (parse_mask_nonempty _ _ Hp2) as Hne2.
  assert (forall mask parsed,
            fs mask = None -> parse_mask mask = Ok parsed ->
            nonneg_lengths parsed -> parsed <> [] ->
            get_generator_for_mask fs mask None
            = Ok (map (fun t => join (concat t))
                      (product (segment_pools parsed)))) as Hgen.
  { intros mask parsed Hf Hp Hn Hne. unfold get_generator_for_mask.
    rewrite Hf, (parsed_mask_is_no_range _ _ Hp).
    unfold gen_from_mask. rewrite Hp, bind_ok.
    rewrite gen_from_parsed_nonneg by done. by rewrite mask_loop_fresh. }
  assert (parse_mask (mask1 +:+ mask2) = Ok (parsed1 ++ parsed2)) as Hp12.
  { apply parse_mask_ok in Hp1 as [Hp1 _].
    pose proof Hp2 as (c & rest & charset & -> & Hc)%parse_mask_first.
    apply parse_mask_ok in Hp2 as [Hp2 _].
    apply parse_mask_ok. split; [|by destruct parsed1].
    rewrite chars_append, (parse_mask_loop_app _ _ parsed1); [|..|done].
    - by rewrite Hp2.
    - apply charset_key_not_digit in Hc as [_ Hc]. simpl. by intros [= ->]. }
  unfold gen_hybrid. cbn [fst snd].
  rewrite (Hgen mask1 parsed1), bind_ok by done.
  rewrite (hybrid_loop_fresh fs mask2 _ _ None (Hgen mask2 parsed2 Hf2 Hp2 Hn2 Hne2)).
  unfold gen_from_mask. rewrite Hp12, bind_ok.
  rewrite gen_from_parsed_nonneg.
  - rewrite mask_loop_fresh. f_equal.
    unfold segment_pools. rewrite map_app.
    fold (segment_pools parsed1). fold (segment_pools parsed2).
    rewrite product_app, flat_map_map, map_flat_map.
    apply flat_map_ext. intros x. rewrite !map_map.
    apply map_ext. intros y. by rewrite concat_app, join_app.
  - by destruct parsed1.
  - by apply Forall_app.
Qed.

Lemma hybrid_of_masks_is_concatenated_mask_witness :
  gen_hybrid no_files ["w{1,2}"; "d"] None = gen_from_mask ("w{1,2}" +:+ "d") None.
Proof.
  apply (hybrid_of_masks_is_concatenated_mask no_files "w{1,2}" "d"
           [Segment LOWERCASE [1; 2]] [Segment DIGITS [1]]).
  - done.
  - done.
  - vm_compute. reflexivity.
  - vm_compute. reflexivity.
  - repeat constructor; lia.
  - repeat constructor; lia.
Defined.

Lemma span_digits_all (ds : list ascii) :
  Forall (fun c => is_digit c = true) ds -> span_digits ds = (ds, []).
Proof.
  intros Hds. rewrite <- (app_nil_r ds) at 1. by apply span_digits_run.
Qed.

Lemma match_range_numbers (a b : Z) :
  0 <= a -> 0 <= b ->
  match_range (str a +:+ "-" +:+ str b) = Some (digits a, digits b).
Proof.
  intros Ha Hb. unfold match_range, str.
  destruct (Z.ltb_spec a 0); [lia|]. destruct (Z.ltb_spec b 0); [lia|].
  rewrite !chars_append, !chars_join.
  change (chars "-") with ["-"%char]. cbn [app].
  destruct (digits_spec a Ha) as (Hna & Hda & _).
  destruct (digits_spec b Hb) as (Hnb & Hdb & _).
  rewrite span_digits_run by done.
  destruct (digits a) as [|ca la]; [done|].
  rewrite span_digits_all by done.
  by destruct (digits b).
Qed.

(** X13. In the hybrid mode a part written as two non-negative decimal
    numbers around a dash, when no file has that name, is the range mode
    over these numbers: it raises [ValueError] unless the first is smaller
    than the second, and otherwise yields what [gen_range] yields, with the
    same cursor. *)
Theorem hybrid_part_reads_range
  (fs : string -> option string) (a b : Z) (start_after : option string) :
  0 <= a -> 0 <= b ->
  fs (str a +:+ "-" +:+ str b) = None ->
  get_generator_for_mask fs (str a +:+ "-" +:+ str b) start_after
  = if a <? b then gen_range a b start_after else Raise ValueError.
Proof.
  intros Ha Hb Hfile. unfold get_generator_for_mask.
  rewrite Hfile, match_range_numbers by done.
  destruct (digits_spec a Ha) as (_ & _ & Hva).
  destruct (digits_spec b Hb) as (_ & _ & Hvb).
  unfold int_of_digits. fold digit_step. rewrite Hva, Hvb.
  destruct (Z.leb_spec b a), (Z.ltb_spec a b); (done || lia).
Qed.

Lemma hybrid_part_reads_range_witness :
  get_generator_for_mask no_files (str 8 +:+ "-" +:+ str 11) None
  = if 8 <? 11 then gen_range 8 11 None else Raise ValueError.
Proof. apply hybrid_part_reads_range; (lia || done). Defined.

(** ** The database of found passwords *)

Import PasswordDb.

Lemma obj_get_app (key : string) (fields more : list (string * json)) :
  obj_get key (fields ++ more)
  = match obj_get key more with
    | Some v => Some v
    | None => obj_get key fields
    end.
Proof.
  induction fields as [|[k v] fields IH]; simpl.
  - by destruct (obj_get key more).
  - rewrite IH. by destruct (obj_get key more).
Qed.

Lemma obj_get_set_eq (key : string) (value : json)
  (fields : list (string * json)) :
  obj_get key (dict_set key value fields) = Some value.
Proof.
  unfold dict_set. rewrite obj_get_app. simpl. by rewrite String.eqb_refl.
Qed.

Lemma obj_get_set_ne (key other : string) (value : json)
  (fields : list (string * json)) :
  other <> key ->
  obj_get other (dict_set key value fields) = obj_get other fields.
Proof.
  intros Hne. unfold dict_set. rewrite obj_get_app. simpl.
  destruct (String.eqb_spec key other) as [->|_]; done.
Qed.

Lemma obj_get_del_eq (key : string) (fields : list (string * json)) :
  obj_get key (dict_del key fields) = None.
Proof.
  unfold dict_del. induction fields as [|[k v] fields IH]; [done|].
  rewrite filter_cons. simpl. destruct (decide (k <> key)) as [Hne|Heq].
  - simpl. rewrite IH. by destruct (String.eqb_spec k key).
  - done.
Qed.

Lemma obj_get_del_ne (key other : string) (fields : list (string * json)) :
  other <> key ->
  obj_get other (dict_del key fields) = obj_get other fields.
Proof.
  intros Hne. unfold dict_del. induction fields as [|[k v] fields IH]; [done|].
  rewrite filter_cons. simpl. destruct (decide (k <> key)) as [Hk|Hk].
  - simpl. by rewrite IH.
  - apply dec_stable in Hk as ->. rewrite IH.
    destruct (obj_get other fields); [done|].
    by destruct (String.eqb_spec key other) as [->|_].
Qed.

Section DbFacts.

Variable renders : log_call -> bool.
Variable DB_FILE : string.
Variable resolve : string -> string.
Variable pdf : string -> open_outcome.

Lemma load_db_written (db : json) (fs : gmap string file_content)
  (w m : bool) :
  load_db renders DB_FILE (Disk (<[DB_FILE := Json db]> fs) w m) = Returns db.
Proof. unfold load_db. simpl. by rewrite lookup_insert_eq. Qed.

End DbFacts.

(** X14. Saving a found password. When the database file can be written and
    [load_db] reads an object from it (the file holds one, or is absent, or
    does not parse as JSON and the warning about that is rendered; the last
    two count as the empty object, so that what an unparsable file held is
    lost), [save_to_db] returns, and afterwards the database holds the
    password under the resolved path of the document and every other entry
    as before; no other file is touched; and as long as the password opens
    the document, [check_db_for_password] returns it and changes nothing,
    provided that the message showing the password is rendered: if it is
    not, the check raises [MarkupError]. *)
Theorem save_to_db_records_password
  (renders : log_call -> bool) (DB_FILE : string) (resolve : string -> string)
  (pdf : string -> open_outcome) (pdf_path password : string) (d : disk)
  (fields : list (string * json)) :
  writable d = true ->
  load_db renders DB_FILE d = Returns (JObj fields) ->
  exists d' fields',
    save_to_db renders DB_FILE resolve pdf_path password d = Returns d'
    /\ load_db renders DB_FILE d' = Returns (JObj fields')
    /\ obj_get (resolve pdf_path) fields' = Some (JStr password)
    /\ (forall other, other <> resolve pdf_path ->
                      obj_get other fields' = obj_get other fields)
    /\ (forall file, file <> DB_FILE -> files d' !! file = files d !! file)
    /\ (pdf password = Opened ->
        check_db_for_password renders DB_FILE resolve pdf pdf_path d'
        = if renders (LogTestingPassword (JStr password))
          then Returns (Some password, d')
          else Fails (PyError MarkupError)).
Proof.
  intros Hw Hload. unfold save_to_db. rewrite Hload, Hw.
  eexists. exists (dict_set (resolve pdf_path) (JStr password) fields).
  split; [done|]. rewrite load_db_written.
  split; [done|]. split; [apply obj_get_set_eq|].
  split; [intros other Hne; by apply obj_get_set_ne|].
  split; [intros file Hne; simpl; by rewrite lookup_insert_ne|].
  intros Hopen. unfold check_db_for_password.
  rewrite load_db_written. cbn [contains].
  rewrite obj_get_set_eq. unfold log_db.
  destruct (renders (LogTestingPassword (JStr password))); [|done].
  by rewrite Hopen.
Qed.

Lemma save_to_db_records_password_witness :
  exists d' fields',
    save_to_db (fun _ => true) "db.json" (fun p => "/home/" +:+ p) "a.pdf" "42"
               (Disk {[ "db.json" := NotJson ]} true true) = Returns d'
    /\ load_db (fun _ => true) "db.json" d' = Returns (JObj fields')
    /\ obj_get "/home/a.pdf" fields' = Some (JStr "42")
    /\ (forall other, other <> "/home/a.pdf" ->
                      obj_get other fields' = obj_get other [])
    /\ (forall file, file <> "db.json" ->
                     files d' !! file
                     = files (Disk {[ "db.json" := NotJson ]} true true)
                         !! file)
    /\ (locked_with "42" "42" = Opened ->
        check_db_for_password (fun _ => true) "db.json"
          (fun p => "/home/" +:+ p) (locked_with "42") "a.pdf" d'
        = Returns (Some "42", d')).
Proof.
  apply (save_to_db_records_password (fun _ => true) "db.json"
           (fun p => "/home/" +:+ p) (locked_with "42") "a.pdf" "42"
           (Disk {[ "db.json" := NotJson ]} true true) []).
  - done.
  - unfold load_db. simpl. by rewrite lookup_singleton_eq.
Defined.

(** X15. A stale entry. When the database holds, under the resolved path of
    the document, a password that the document rejects, and the database
    file can be written: if the message showing the stored password is not
    rendered, [check_db_for_password] raises [MarkupError] before it tries
    the password; if it is rendered, the check returns [None] and removes
    that entry and no other, and a second check finds nothing to do. *)
Theorem check_db_removes_stale_entry
  (renders : log_call -> bool) (DB_FILE : string) (resolve : string -> string)
  (pdf : string -> open_outcome) (pdf_path saved_pass : string) (d : disk)
  (fields : list (string * json)) :
  writable d = true ->
  load_db renders DB_FILE d = Returns (JObj fields) ->
  obj_get (resolve pdf_path) fields = Some (JStr saved_pass) ->
  pdf saved_pass = PasswordError ->
  if renders (LogTestingPassword (JStr saved_pass))
  then
    exists d' fields',
      check_db_for_password renders DB_FILE resolve pdf pdf_path d
      = Returns (None, d')
      /\ load_db renders DB_FILE d' = Returns (JObj fields')
      /\ obj_get (resolve pdf_path) fields' = None
      /\ (forall other, other <> resolve pdf_path ->
                        obj_get other fields' = obj_get other fields)
      /\ (forall file, file <> DB_FILE -> files d' !! file = files d !! file)
      /\ check_db_for_password renders DB_FILE resolve pdf pdf_path d'
         = Returns (None, d')
  else
    check_db_for_password renders DB_FILE resolve pdf pdf_path d
    = Fails (PyError MarkupError).
Proof.
  intros Hw Hload Hentry Hreject.
  destruct (renders (LogTestingPassword (JStr saved_pass))) eqn:Hlog.
  - eexists. exists (dict_del (resolve pdf_path) fields).
    unfold check_db_for_password at 1.
    rewrite Hload. cbn [contains]. rewrite Hentry. unfold log_db.
    rewrite Hlog, Hreject, Hw.
    split; [done|]. rewrite load_db_written.
    split; [done|]. split; [apply obj_get_del_eq|].
    split; [intros other Hne; by apply obj_get_del_ne|].
    split; [intros file Hne; simpl; by rewrite lookup_insert_ne|].
    unfold check_db_for_password. rewrite load_db_written. cbn [contains].
    by rewrite obj_get_del_eq.
  - unfold check_db_for_password.
    rewrite Hload. cbn [contains]. rewrite Hentry. unfold log_db.
    by rewrite Hlog.
Qed.

Lemma check_db_removes_stale_entry_witness :
  let d := Disk {[ "db.json" := Json (JObj [("/a.pdf", JStr "old");
                                            ("/b.pdf", JStr "x")]) ]}
             true true in
  exists d' fields',
    check_db_for_password (fun _ => true) "db.json" (fun p => "/" +:+ p)
      (locked_with "new") "a.pdf" d = Returns (None, d')
    /\ load_db (fun _ => true) "db.json" d' = Returns (JObj fields')
    /\ obj_get "/a.pdf" fields' = None
    /\ (forall other, other <> "/a.pdf" ->
                      obj_get other fields'
                      = obj_get other [("/a.pdf", JStr "old");
                                       ("/b.pdf", JStr "x")])
    /\ (forall file, file <> "db.json" -> files d' !! file = files d !! file)
    /\ check_db_for_password (fun _ => true) "db.json" (fun p => "/" +:+ p)
         (locked_with "new") "a.pdf" d' = Returns (None, d').
Proof.
  intros d.
  apply (check_db_removes_stale_entry (fun _ => true) "db.json"
           (fun p => "/" +:+ p) (locked_with "new") "a.pdf" "old" d).
  - done.
  - unfold load_db, d. simpl. by rewrite lookup_singleton_eq.
  - done.
  - done.
Defined.

(** X16. Whatever the database file holds, a password that
    [check_db_for_password] returns opens the document and was stored under
    the resolved path of the document, and the files are then as they were;
    when it returns [None], no file but the database file has changed. *)
Theorem check_db_returns_opening_password
  (renders : log_call -> bool) (DB_FILE : string) (resolve : string -> string)
  (pdf : string -> open_outcome) (pdf_path : string) (d d' : disk)
  (res : option string) :
  check_db_for_password renders DB_FILE resolve pdf pdf_path d
  = Returns (res, d') ->
  match res with
  | Some saved_pass =>
      pdf saved_pass = Opened /\ d' = d
      /\ exists fields,
           load_db renders DB_FILE d = Returns (JObj fields)
           /\ obj_get (resolve pdf_path) fields = Some (JStr saved_pass)
  | None => forall file, file <> DB_FILE -> files d' !! file = files d !! file
  end.
Proof.
  unfold check_db_for_password.
  destruct (load_db renders DB_FILE d) as [db|e]; [|done].
  destruct (contains db (resolve pdf_path)) as [[|]|e]; [| |done].
  - destruct db as [| | | | |fields]; try done.
    destruct (obj_get (resolve pdf_path) fields) as [saved|] eqn:Hentry.
    + destruct (log_db renders (LogTestingPassword saved)); [|done].
      destruct saved as [| | |saved_pass| |]; try done.
      destruct (pdf saved_pass) eqn:Hopen; [| |done].
      * intros [= <- <-]. split; [done|]. split; [done|]. by exists fields.
      * destruct (writable d); [|done]. intros [= <- <-].
        intros file Hne. simpl. by rewrite lookup_insert_ne.
    + by intros [= <- <-].
  - by intros [= <- <-].
Qed.

Lemma check_db_returns_opening_password_witness :
  let d := Disk {[ "db.json" := Json (JObj [("/a.pdf", JStr "pw")]) ]}
             false true in
  locked_with "pw" "pw" = Opened /\ d = d
  /\ exists fields,
       load_db (fun _ => true) "db.json" d = Returns (JObj fields)
       /\ obj_get "/a.pdf" fields = Some (JStr "pw").
Proof.
  intros d.
  apply (check_db_returns_opening_password (fun _ => true) "db.json"
           (fun p => "/" +:+ p) (locked_with "pw") "a.pdf" d d (Some "pw")).
  unfold check_db_for_password, load_db, d. simpl.
  rewrite lookup_singleton_eq. reflexivity.
Defined.

(** ** The session file of a document *)

Lemma path_name_plain (name cur last : list ascii) :
  Forall (fun c => c <> "/"%char) name ->
  path_name name cur last
  = match rev name ++ cur with
    | [] => last
    | ["."%char] => last
    | _ => rev (rev name ++ cur)
    end.
Proof.
  intros Hname. revert cur. induction Hname as [|c name Hc _ IH]; intros cur.
  - done.
  - cbn [path_name]. destruct (Ascii.eqb_spec c "/") as [?|_]; [done|].
    rewrite IH. cbn [rev]. by rewrite <- app_assoc.
Qed.

Lemma path_name_last (dir name cur last : list ascii) :
  Forall (fun c => c <> "/"%char) name -> name <> [] -> name <> ["."%char] ->
  path_name (dir ++ "/"%char :: name) cur last = name.
Proof.
  intros Hname Hne Hdot. revert cur last.
  induction dir as [|c dir IH]; intros cur last.
  - rewrite app_nil_l. cbn [path_name]. change (Ascii.eqb "/" "/") with true.
    cbv iota. rewrite path_name_plain, app_nil_r by done.
    destruct (rev name) as [|x [|y l]] eqn:Hrev.
    + apply (f_equal (@rev ascii)) in Hrev. rewrite rev_involutive in Hrev.
      done.
    + assert (name = [x]) as Hx.
      { apply (f_equal (@rev ascii)) in Hrev.
        by rewrite rev_involutive in Hrev. }
      subst name. rewrite <- Hrev.
      destruct (Ascii.eqb_spec x ".") as [->|Hx]; [done|].
      destruct x as [[] [] [] [] [] [] [] []]; done.
    + rewrite <- Hrev, rev_involutive.
      by destruct x as [[] [] [] [] [] [] [] []].
  - change ((c :: dir) ++ "/"%char :: name)
      with (c :: (dir ++ "/"%char :: name)).
    cbn [path_name]. destruct (Ascii.eqb c "/"); apply IH.
Qed.

Lemma rfind_dot_plain (l : list ascii) (i : nat) (found : option nat) :
  Forall (fun c => c <> "."%char) l -> rfind_dot l i found = found.
Proof.
  intros Hl. revert i. induction Hl as [|c l Hc _ IH]; intros i; [done|].
  cbn [rfind_dot]. destruct (Ascii.eqb_spec c ".") as [?|_]; [done|]. apply IH.
Qed.

Lemma rfind_dot_last (base ext : list ascii) (i : nat) (found : option nat) :
  Forall (fun c => c <> "."%char) ext ->
  rfind_dot (base ++ "."%char :: ext) i found = Some (i + length base)%nat.
Proof.
  intros Hext. revert i found.
  induction base as [|c base IH]; intros i found.
  - rewrite app_nil_l. cbn [rfind_dot]. change (Ascii.eqb "." ".") with true.
    cbv iota. rewrite rfind_dot_plain by done. simpl. f_equal. lia.
  - change ((c :: base) ++ "."%char :: ext)
      with (c :: (base ++ "."%char :: ext)).
    cbn [rfind_dot]. rewrite IH. simpl. f_equal. lia.
Qed.

Lemma stem_of_plain_name (dir base ext : string) :
  base <> EmptyString -> ext <> EmptyString ->
  Forall (fun c => c <> "/"%char /\ c <> "."%char) (chars base) ->
  Forall (fun c => c <> "/"%char /\ c <> "."%char) (chars ext) ->
  stem (dir +:+ "/" +:+ base +:+ "." +:+ ext) = base.
Proof.
  intros Hbase Hext Hb He. unfold stem.
  rewrite !chars_append. change (chars "/") with ["/"%char].
  change (chars ".") with ["."%char]. cbn [app].
  assert (chars base <> []) as Hbne.
  { intros Hnil. apply Hbase. by rewrite <- (join_chars base), Hnil. }
  assert (chars ext <> []) as Hene.
  { intros Hnil. apply Hext. by rewrite <- (join_chars ext), Hnil. }
  rewrite path_name_last.
  - rewrite rfind_dot_last by (eapply Forall_impl; [exact He|]; by intros c [_ ?]).
    rewrite Nat.add_0_l, length_app. simpl length.
    destruct (chars base) as [|b bs] eqn:Hcb; [done|].
    destruct (chars ext) as [|e es] eqn:Hce; [done|].
    assert ((0 <? length (b :: bs))%nat
            && (length (b :: bs) <? length (b :: bs) + S (length (e :: es)) - 1)%nat
            = true) as ->.
    { apply andb_true_intro. split; apply Nat.ltb_lt; simpl; lia. }
    rewrite take_app_length, <- Hcb. apply join_chars.
  - apply Forall_app. split.
    + eapply Forall_impl; [exact Hb|]. by intros c [? _].
    + constructor; [done|]. eapply Forall_impl; [exact He|]. by intros c [? _].
  - by destruct (chars base).
  - destruct (chars base) as [|b [|b' bs]]; [done| |done].
    simpl. by destruct (chars ext).
Qed.

Lemma not_dot_match {A : Type} (l : list ascii) (x y : A) :
  l <> [] -> l <> ["."%char] ->
  match l with
  | [] => x
  | ["."%char] => x
  | _ => y
  end = y.
Proof.
  intros Hne Hdot. destruct l as [|c [|c' l]]; [done| |].
  - destruct (Ascii.eqb_spec c ".") as [->|Hc]; [done|].
    by destruct c as [[] [] [] [] [] [] [] []].
  - by destruct c as [[] [] [] [] [] [] [] []].
Qed.

Lemma path_parts_run (name rest cur : list ascii) :
  Forall (fun c => c <> "/"%char) name ->
  path_parts (name ++ rest) cur = path_parts rest (rev name ++ cur).
Proof.
  intros Hname. revert cur. induction Hname as [|c name Hc _ IH]; intros cur.
  - done.
  - change ((c :: name) ++ rest) with (c :: (name ++ rest)).
    cbn [path_parts]. destruct (Ascii.eqb_spec c "/") as [?|_]; [done|].
    rewrite IH. cbn [rev]. by rewrite <- app_assoc.
Qed.

Lemma path_parts_last (part : list ascii) :
  part <> [] -> part <> ["."%char] -> Forall (fun c => c <> "/"%char) part ->
  path_parts part [] = [part].
Proof.
  intros Hne Hdot Hpart.
  rewrite <- (app_nil_r part) at 1. rewrite path_parts_run by done.
  rewrite app_nil_r. cbn [path_parts].
  rewrite not_dot_match; [by rewrite rev_involutive| |].
  - intros Hrev. apply Hne. by rewrite <- (rev_involutive part), Hrev.
  - intros Hrev. apply Hdot. by rewrite <- (rev_involutive part), Hrev.
Qed.

Lemma path_parts_component (part rest : list ascii) :
  part <> [] -> part <> ["."%char] -> Forall (fun c => c <> "/"%char) part ->
  path_parts (part ++ "/"%char :: rest) [] = part :: path_parts rest [].
Proof.
  intros Hne Hdot Hpart. rewrite path_parts_run by done.
  rewrite app_nil_r. cbn [path_parts]. change (Ascii.eqb "/" "/") with true.
  cbv iota.
  rewrite not_dot_match; [by rewrite rev_involutive| |].
  - intros Hrev. apply Hne. by rewrite <- (rev_involutive part), Hrev.
  - intros Hrev. apply Hdot. by rewrite <- (rev_involutive part), Hrev.
Qed.

Lemma path_parts_join (parts : list (list ascii)) :
  Forall (fun part => part <> [] /\ part <> ["."%char]
                      /\ Forall (fun c => c <> "/"%char) part) parts ->
  path_parts (join_parts parts) [] = parts.
Proof.
  induction 1 as [|part parts (Hne & Hdot & Hpart) _ IH]; [done|].
  destruct parts as [|next parts].
  - by apply path_parts_last.
  - change (join_parts (part :: next :: parts))
      with (part ++ "/"%char :: join_parts (next :: parts)).
    rewrite path_parts_component by done. by rewrite IH.
Qed.

Lemma join_parts_snoc (parts : list (list ascii)) (child : list ascii) :
  parts <> [] ->
  join_parts (parts ++ [child]) = join_parts parts ++ "/"%char :: child.
Proof.
  induction parts as [|part parts IH]; [done|]. intros _.
  destruct parts as [|next parts]; [done|].
  change (join_parts ((part :: next :: parts) ++ [child]))
    with (part ++ "/"%char :: join_parts ((next :: parts) ++ [child])).
  rewrite IH by done.
  change (join_parts (part :: next :: parts))
    with (part ++ "/"%char :: join_parts (next :: parts)).
  by rewrite <- app_assoc.
Qed.

Lemma join_parts_head (parts : list (list ascii)) :
  parts <> [] ->
  Forall (fun part => part <> [] /\ part <> ["."%char]
                      /\ Forall (fun c => c <> "/"%char) part) parts ->
  exists c l, join_parts parts = c :: l /\ c <> "/"%char.
Proof.
  intros Hne Hparts. destruct Hparts as [|part parts (Hp & _ & Hpart) _];
    [done|].
  destruct Hpart as [|c l Hc _]; [done|].
  destruct parts as [|next parts]; [by exists c, l|].
  by exists c, (l ++ "/"%char :: join_parts (next :: parts)).
Qed.

Lemma path_root_relative (c : ascii) (l : list ascii) :
  c <> "/"%char -> path_root (c :: l) = [].
Proof.
  intros Hc. destruct (Ascii.eqb_spec c "/") as [->|_]; [done|].
  by destruct c as [[] [] [] [] [] [] [] []].
Qed.

Lemma path_root_absolute (c : ascii) (l : list ascii) :
  c <> "/"%char -> path_root ("/"%char :: c :: l) = ["/"%char].
Proof.
  intros Hc. destruct (Ascii.eqb_spec c "/") as [->|_]; [done|].
  by destruct c as [[] [] [] [] [] [] [] []].
Qed.

Lemma path_join_normal (dir child : string) (absolute : bool)
  (parts : list (list ascii)) :
  parts <> [] ->
  Forall (fun part => part <> [] /\ part <> ["."%char]
                      /\ Forall (fun c => c <> "/"%char) part) parts ->
  chars dir = (if absolute then ["/"%char] else []) ++ join_parts parts ->
  path_join dir child = dir +:+ "/" +:+ child.
Proof.
  intros Hne Hparts Hdir.
  rewrite <- (join_chars (dir +:+ "/" +:+ child)), chars_append.
  unfold path_join. f_equal. rewrite Hdir.
  destruct (join_parts_head parts Hne Hparts) as (c & l & Hhead & Hc).
  destruct absolute; cbn [app].
  - rewrite Hhead, path_root_absolute by done. rewrite <- Hhead.
    cbn [path_parts]. change (Ascii.eqb "/" "/") with true. cbv iota.
    rewrite path_parts_join, join_parts_snoc by done. done.
  - rewrite Hhead, path_root_relative by done. rewrite <- Hhead.
    rewrite path_parts_join, join_parts_snoc by done. done.
Qed.

(** X17. The session file of a document with an ordinary name (a directory,
    a base name and an extension, both non-empty and free of slashes and
    dots). [get_session_file] first makes the session directory and raises
    [OSError] when that fails; otherwise the file is [base.session] joined
    to [SESSION_DIR] as [pathlib] joins paths, so that neither the directory
    nor the extension of the document enters it. The join is [base.session]
    alone when [SESSION_DIR] is empty, and [SESSION_DIR/base.session] when
    [SESSION_DIR] is written in normal form: an optional leading slash, then
    one or more components separated by single slashes, none of them empty
    or a single dot. *)
Theorem session_file_of_ordinary_name
  (SESSION_DIR dir base ext : string) (d : disk) :
  base <> EmptyString -> ext <> EmptyString ->
  Forall (fun c => c <> "/"%char /\ c <> "."%char) (chars base) ->
  Forall (fun c => c <> "/"%char /\ c <> "."%char) (chars ext) ->
  get_session_file SESSION_DIR (dir +:+ "/" +:+ base +:+ "." +:+ ext) d
  = (if mkdir_ok d
     then Ok (path_join SESSION_DIR (base +:+ ".session"))
     else Raise OSError)
  /\ path_join "" (base +:+ ".session") = base +:+ ".session"
  /\ (forall (absolute : bool) (parts : list (list ascii)),
        parts <> [] ->
        Forall (fun part => part <> [] /\ part <> ["."%char]
                            /\ Forall (fun c => c <> "/"%char) part) parts ->
        chars SESSION_DIR
        = (if absolute then ["/"%char] else []) ++ join_parts parts ->
        path_join SESSION_DIR (base +:+ ".session")
        = SESSION_DIR +:+ "/" +:+ base +:+ ".session").
Proof.
  intros Hbase Hext Hb He. split; [|split].
  - unfold get_session_file, session_file_of.
    by rewrite stem_of_plain_name.
  - unfold path_join. simpl. apply join_chars.
  - intros absolute parts Hne Hparts Hdir.
    by apply (path_join_normal _ _ absolute parts).
Qed.

Lemma session_file_of_ordinary_name_witness :
  get_session_file ".pdfraven_sessions"
    ("/home/ann/docs" +:+ "/" +:+ "report" +:+ "." +:+ "pdf")
    (Disk ∅ true true)
  = (if mkdir_ok (Disk ∅ true true)
     then Ok (path_join ".pdfraven_sessions" ("report" +:+ ".session"))
     else Raise OSError)
  /\ path_join "" ("report" +:+ ".session") = "report" +:+ ".session"
  /\ (forall (absolute : bool) (parts : list (list ascii)),
        parts <> [] ->
        Forall (fun part => part <> [] /\ part <> ["."%char]
                            /\ Forall (fun c => c <> "/"%char) part) parts ->
        chars ".pdfraven_sessions"
        = (if absolute then ["/"%char] else []) ++ join_parts parts ->
        path_join ".pdfraven_sessions" ("report" +:+ ".session")
        = ".pdfraven_sessions" +:+ "/" +:+ "report" +:+ ".session").
Proof.
  apply session_file_of_ordinary_name; try done;
    repeat constructor; discriminate.
Defined.

(** X18. Checkpoints are kept per session file. When the session directory
    exists or can be made and its files can be written, [save_session]
    returns, and afterwards [load_session], for every document with the same
    session file, logs the saved checkpoint and returns it, or raises
    [MarkupError] when that message is not rendered; for a document with
    another session file it does what it did before. *)
Theorem sessions_are_kept_per_session_file
  (renders : log_call -> bool)
  (SESSION_DIR pdf_path other_path last_password : string) (d : disk) :
  mkdir_ok d = true -> writable d = true ->
  exists d',
    save_session renders SESSION_DIR pdf_path last_password d = Ok d'
    /\ load_session renders SESSION_DIR other_path d'
       = if bool_decide (session_file_of SESSION_DIR other_path
                         = session_file_of SESSION_DIR pdf_path)
         then if renders (LogResuming (JStr last_password))
              then Ok (Some (JStr last_password))
              else Raise MarkupError
         else load_session renders SESSION_DIR other_path d.
Proof.
  intros Hm Hw. eexists. split; [by apply save_session_done|].
  unfold load_session, get_session_file. cbn [mkdir_ok files].
  rewrite Hm, !bind_ok. case_bool_decide as Hsame.
  - rewrite Hsame, lookup_insert_eq. unfold checkpoint. cbn [obj_get].
    change ("last_password" =? "last_password")%string with true.
    cbv iota. unfold log.
    by destruct (renders (LogResuming (JStr last_password))).
  - by rewrite lookup_insert_ne.
Qed.

Lemma sessions_are_kept_per_session_file_witness :
  exists d',
    save_session (fun _ => true) "s" "a/report.pdf" "0042" (Disk ∅ true true)
    = Ok d'
    /\ load_session (fun _ => true) "s" "b/report.txt" d'
       = if bool_decide (session_file_of "s" "b/report.txt"
                         = session_file_of "s" "a/report.pdf")
         then Ok (Some (JStr "0042"))
         else load_session (fun _ => true) "s" "b/report.txt"
                (Disk ∅ true true).
Proof. by apply sessions_are_kept_per_session_file. Defined.

(** ** No candidate twice *)

Lemma NoDup_flat_map {A B : Type} (f : A -> list B) (l : list A) :
  NoDup l ->
  (forall x, x ∈ l -> NoDup (f x)) ->
  (forall x1 x2 y, x1 ∈ l -> x2 ∈ l -> y ∈ f x1 -> y ∈ f x2 -> x1 = x2) ->
  NoDup (flat_map f l).
Proof.
  induction 1 as [|x l Hx Hl IH]; intros Hf Hdisj; [constructor|].
  simpl. apply NoDup_app. split; [apply Hf, list_elem_of_here|]. split.
  - intros y Hy Hy'. apply list_elem_of_In, in_flat_map in Hy' as (x2 & Hx2 & Hy2).
    apply list_elem_of_In in Hx2. apply list_elem_of_In in Hy2.
    assert (x = x2) as <-; [|done].
    apply (Hdisj x x2 y); [apply list_elem_of_here| |done|done].
    by apply list_elem_of_further.
  - apply IH.
    + intros x' Hx'. by apply Hf, list_elem_of_further.
    + intros x1 x2 y H1 H2. apply Hdisj; by apply list_elem_of_further.
Qed.

Lemma lex_tuples_NoDup {A : Type} (pool : list A) (n : nat) :
  NoDup pool -> NoDup (lex_tuples pool n).
Proof.
  intros Hpool. induction n as [|n IH]; simpl.
  - apply NoDup_singleton.
  - apply NoDup_flat_map; [done| |].
    + intros c _. apply NoDup_fmap_2; [|done]. by intros t1 t2 [= ->].
    + intros c1 c2 t _ _ (t1 & -> & _)%list_elem_of_fmap
                         (t2 & [= -> _] & _)%list_elem_of_fmap.
      done.
Qed.

(** X19. When the character set given to the custom brute-force mode has no
    repeated character and the minimum length is not negative, no candidate
    is yielded twice. *)
Theorem custom_brute_never_repeats (charset : string) (min_l max_l : Z) :
  NoDup (chars charset) -> 0 <= min_l ->
  exists l, gen_custom_brute charset min_l max_l None = Ok l /\ NoDup l.
Proof.
  intros Hcs Hmin. unfold gen_custom_brute.
  assert (Forall (fun len => 0 <= len) (range min_l (max_l + 1))) as Hnn.
  { apply Forall_forall. intros x Hx%range_elem. lia. }
  rewrite custom_brute_loop_fresh by done. eexists. split; [done|].
  apply NoDup_flat_map; [apply range_NoDup| |].
  - intros len _. apply NoDup_fmap_2; [|by apply lex_tuples_NoDup].
    intros t1 t2. apply join_inj.
  - intros len1 len2 y H1%range_elem H2%range_elem
           (t1 & -> & Ht1%lex_tuples_elem_length)%list_elem_of_fmap
           (t2 & Heq%join_inj & Ht2%lex_tuples_elem_length)%list_elem_of_fmap.
    subst t2. lia.
Qed.

Lemma custom_brute_never_repeats_witness :
  exists l, gen_custom_brute "abc" 0 2 None = Ok l /\ NoDup l.
Proof.
  apply custom_brute_never_repeats; [|lia].
  apply (bool_decide_unpack (NoDup _)). vm_compute. reflexivity.
Defined.

(** ** The estimate of a mask *)

Lemma int_digits_nonneg (l : list ascii) (prev : bool) (acc z : Z) :
  0 <= acc -> int_digits prev acc l = Some z -> 0 <= z.
Proof.
  revert prev acc. induction l as [|c l IH]; intros prev acc Hacc; simpl.
  - destruct prev; [|done]. by intros [= <-].
  - destruct (is_digit c) eqn:Hc.
    + apply IH. unfold is_digit in Hc. apply andb_prop in Hc as [Hlo _].
      apply N.leb_le in Hlo. unfold digit_val. lia.
    + destruct (Ascii.eqb c "_" && prev); [|done]. by apply IH.
Qed.

Lemma lstrip_subset (l : list ascii) (x : ascii) : x ∈ int_lstrip l -> x ∈ l.
Proof.
  induction l as [|c l IH]; [done|]. simpl.
  destruct (is_int_space c); [|done].
  intros Hx. by apply list_elem_of_further, IH.
Qed.

Lemma elem_of_rev {A : Type} (x : A) (l : list A) : x ∈ rev l <-> x ∈ l.
Proof. rewrite !list_elem_of_In. symmetry. apply in_rev. Qed.

Lemma strip_subset (s : string) (x : ascii) :
  x ∈ chars (int_strip s) -> x ∈ chars s.
Proof.
  unfold int_strip. rewrite chars_join.
  intros Hx%elem_of_rev%lstrip_subset%elem_of_rev%lstrip_subset. done.
Qed.

Lemma int_nonneg (s : string) (z : Z) :
  "-"%char ∉ chars s -> int s = Ok z -> 0 <= z.
Proof.
  intros Hno. unfold int.
  assert ("-"%char ∉ chars (int_strip s)) as Hbody.
  { intros H. by apply Hno, strip_subset. }
  destruct (chars (int_strip s)) as [|c ds].
  { done. }
  assert (c <> "-"%char) as Hc.
  { intros ->. apply Hbody, list_elem_of_here. }
  assert (forall o : option Z,
            (forall z', o = Some z' -> 0 <= z') ->
            match o with Some z' => Ok z' | None => Raise ValueError end = Ok z ->
            0 <= z) as Hout.
  { intros [z'|] Ho; [|done]. intros [= <-]. by apply Ho. }
  destruct c as [[] [] [] [] [] [] [] []]; try done;
    apply Hout; intros z'; by apply int_digits_nonneg.
Qed.

Lemma split_comma_subset (l a b : list ascii) (x : ascii) :
  split_comma l = (a, Some b) -> x ∈ a -> x ∈ l.
Proof.
  revert a. induction l as [|c l IH]; intros a; [done|]. simpl.
  destruct (Ascii.eqb c ","); [by intros [= <- _] ?%not_elem_of_nil|].
  destruct (split_comma l) as [a' b'] eqn:Hs. intros [= <- ->].
  intros [->|Hx]%elem_of_cons; [apply list_elem_of_here|].
  apply list_elem_of_further. by apply (IH a').
Qed.

Lemma parse_len_match_nonneg (len_match : list ascii) (bounds : Z * Z) :
  "-"%char ∉ len_match ->
  parse_len_match len_match = Ok bounds -> 0 <= fst bounds.
Proof.
  intros Hno. unfold parse_len_match. destruct (has_comma len_match).
  - destruct (split_comma len_match) as [min_str [max_str|]] eqn:Hs; [|done].
    destruct (has_comma max_str); [done|].
    intros (min_len & Hmin & (max_len & _ & [= <-])%bind_ok_inv)%bind_ok_inv.
    simpl. destruct min_str as [|c min_str]; [injection Hmin as <-; lia|].
    apply int_nonneg in Hmin; [done|]. rewrite chars_join.
    intros H. apply Hno. by eapply split_comma_subset.
  - destruct len_match as [|c l]; [intros [= <-]; simpl; lia|].
    intros (n & Hn & [= <-])%bind_ok_inv. simpl.
    apply int_nonneg in Hn; [done|]. by rewrite chars_join.
Qed.

Lemma mk_segment_nonneg (charset : string) (bounds : Z * Z) :
  0 <= fst bounds ->
  Forall (fun len => 0 <= len) (seg_len_range (mk_segment charset bounds)).
Proof.
  intros Hb. apply Forall_forall. intros x Hx%range_elem. lia.
Qed.

Lemma parse_mask_loop_nonneg (n : nat) (l : list ascii)
  (parsed : list segment) :
  (length l <= n)%nat -> "-"%char ∉ l ->
  parse_mask_loop l = Ok parsed -> nonneg_lengths parsed.
Proof.
  revert l parsed. induction n as [|n IH]; intros l parsed Hlen Hno.
  { destruct l; [|simpl in Hlen; lia]. intros [= <-]. constructor. }
  destruct l as [|c after]; [intros [= <-]; constructor|].
  rewrite parse_mask_loop_cons.
  destruct (CHARSET_MAP c) as [charset|]; [|done].
  apply not_elem_of_cons in Hno as [_ Hno]. simpl in Hlen.
  destruct after as [|a inside].
  { intros [= <-]. constructor; [|constructor].
    by apply mk_segment_nonneg. }
  destruct (Ascii.eqb a "{").
  - apply not_elem_of_cons in Hno as [_ Hno]. simpl in Hlen.
    assert (length inside <= n)%nat as Hin by lia. clear Hlen.
    assert ("-"%char ∉ @nil ascii) as Hacc by apply not_elem_of_nil.
    revert Hacc. generalize (@nil ascii) as acc.
    induction inside as [|x inside IHin]; intros acc Hacc; [done|].
    apply not_elem_of_cons in Hno as [Hx Hno]. simpl in Hin.
    cbn [scan_brace]. destruct (Ascii.eqb x "}").
    + intros (bounds & Hb & (rest & Hrest & [= <-])%bind_ok_inv)%bind_ok_inv.
      constructor.
      * apply mk_segment_nonneg. by eapply parse_len_match_nonneg.
      * apply (IH inside); [lia|done|done].
    + apply IHin; [done|lia|].
      rewrite elem_of_app, list_elem_of_singleton. intros [?|?]; done.
  - intros (rest & Hrest & [= <-])%bind_ok_inv. constructor.
    + by apply mk_segment_nonneg.
    + apply (IH (a :: inside)); [lia|done|done].
Qed.

(** X20. For every mask that parses and contains no minus sign, the
    estimate is exact: [estimate_total_from_mask] returns the number of
    candidates that [gen_from_mask] yields without a cursor. *)
Theorem mask_estimate_is_exact (mask : string) (parsed : list segment) :
  parse_mask mask = Ok parsed ->
  "-"%char ∉ chars mask ->
  exists l,
    gen_from_mask mask None = Ok l
    /\ estimate_total_from_mask mask = EstInt (Z.of_nat (length l)).
Proof.
  intros Hp Hno.
  assert (nonneg_lengths parsed) as Hnn.
  { apply parse_mask_ok in Hp as [Hp _].
    by apply (parse_mask_loop_nonneg (length (chars mask)) (chars mask)). }
  destruct (estimate_matches_enumeration mask parsed Hp Hnn)
    as (Hest & l & Hgen & Hlen).
  exists l. split; [done|]. by rewrite Hest, Hlen.
Qed.

Lemma mask_estimate_is_exact_witness :
  exists l,
    gen_from_mask "w{1,2}d" None = Ok l
    /\ estimate_total_from_mask "w{1,2}d" = EstInt (Z.of_nat (length l)).
Proof.
  apply (mask_estimate_is_exact "w{1,2}d"
           [Segment LOWERCASE [1; 2]; Segment DIGITS [1]]).
  - vm_compute. reflexivity.
  - apply (bool_decide_unpack _). vm_compute. reflexivity.
Defined.

(** ** Zero padding in the custom-pattern mode *)

Lemma fold_digits_bound (ds : list ascii) (acc : Z) (k : nat) :
  Forall (fun c => is_digit c = true) ds -> 0 <= acc < 10 ^ Z.of_nat k ->
  fold_left digit_step ds acc < 10 ^ Z.of_nat (k + length ds).
Proof.
  intros Hds. revert acc k. induction Hds as [|c ds Hc _ IH]; intros acc k Hacc.
  - simpl. rewrite Nat.add_0_r. lia.
  - cbn [fold_left length]. replace (k + S (length ds))%nat
      with (S k + length ds)%nat by lia.
    apply IH. unfold digit_step, digit_val.
    unfold is_digit in Hc. apply andb_prop in Hc as [Hlo Hhi].
    apply N.leb_le in Hlo, Hhi.
    rewrite Nat2Z.inj_succ, Z.pow_succ_r by lia. lia.
Qed.

Lemma int_of_digits_bound (ds : list ascii) :
  Forall (fun c => is_digit c = true) ds ->
  int_of_digits ds < 10 ^ Z.of_nat (length ds).
Proof.
  intros Hds. apply (fold_digits_bound ds 0 0 Hds). simpl. lia.
Qed.

(** X21. With zero padding, every candidate of the custom-pattern mode has
    the same length, whatever the cursor: the characters around the brace
    block plus as many digits as the upper bound is written with. *)
Theorem custom_query_padding_fixes_length
  (query : string) (prefix a b suffix : list ascii)
  (start_after : option string) :
  search_query query = Some (prefix, a, b, suffix) ->
  Forall (fun s => String.length s
                   = (length prefix + length b + length suffix)%nat)
         (gen_custom_query query true start_after).
Proof.
  intros Hq. pose proof (search_query_sound _ _ _ _ _ Hq)
    as (_ & _ & _ & [Hane Ha] & [Hbne Hb]).
  unfold gen_custom_query. rewrite Hq.
  apply Forall_forall. intros s (i & -> & Hi%range_elem)%list_elem_of_fmap.
  pose proof (int_of_digits_nonneg a Ha) as Hstart.
  pose proof (int_of_digits_bound b Hb) as Hend.
  destruct (format_0d_width (length b) i) as [Hlen _].
  { destruct b; [done|simpl; lia]. }
  { lia. }
  rewrite <- !chars_length, !chars_append, !chars_join, !length_app.
  rewrite chars_length, Hlen. lia.
Qed.

Lemma custom_query_padding_fixes_length_witness :
  Forall (fun s => String.length s = (3 + 3 + 1)%nat)
         (gen_custom_query "ID-{8-120}x" true (Some "ID-050x")).
Proof.
  apply (custom_query_padding_fixes_length "ID-{8-120}x"
           (chars "ID-") (chars "8") (chars "120") (chars "x")).
  vm_compute. reflexivity.
Defined.

(** ** The totals of a hybrid attack *)

Import Totals.

Lemma text_lines_count (content cur : list ascii) :
  ascii_of_nat 13 ∉ content ->
  Z.of_nat (length (text_lines content cur))
  = binary_line_count content (match cur with [] => false | _ => true end).
Proof.
  revert cur. induction content as [|c rest IH]; intros cur Hcr.
  - simpl. by destruct cur.
  - apply not_elem_of_cons in Hcr as [Hc Hrest].
    cbn [text_lines binary_line_count].
    destruct (Ascii.eqb c (ascii_of_nat 10)).
    + cbn [length]. rewrite Nat2Z.inj_succ, (IH [] Hrest). lia.
    + destruct (Ascii.eqb_spec c (ascii_of_nat 13)) as [?|_]; [done|].
      by rewrite (IH (c :: cur) Hrest).
Qed.

Lemma part_total_is_exact (fs : string -> option string) (mask_string : string)
  (n : Z) :
  plain_part fs mask_string ->
  get_generator_total fs mask_string = Ok (EstInt n) ->
  exists g,
    get_generator_for_mask fs mask_string None = Ok g
    /\ Z.of_nat (length g) = n.
Proof.
  unfold plain_part, get_generator_total, get_generator_for_mask.
  destruct (fs mask_string) as [content|].
  { intros Hcr [= <-]. eexists. split; [done|].
    unfold gen_wordlist. simpl negb. rewrite wordlist_loop_fresh, length_map.
    by apply text_lines_count. }
  destruct (match_range mask_string) as [[a b]|].
  { intros _. destruct (Z.leb_spec (int_of_digits b) (int_of_digits a));
      [done|].
    intros [= <-]. unfold gen_range. rewrite bind_ok. eexists. split; [done|].
    rewrite length_map, range_length. lia. }
  intros Hno [= Hest].
  destruct (parse_mask mask_string) as [parsed|e] eqn:Hp.
  - assert (nonneg_lengths parsed) as Hnn.
    { apply parse_mask_ok in Hp as [Hp' _].
      by apply (parse_mask_loop_nonneg (length (chars mask_string))
                  (chars mask_string)). }
    destruct (estimate_matches_enumeration mask_string parsed Hp Hnn)
      as (Hest' & l & Hgen & Hlen).
    exists l. split; [done|]. rewrite Hest' in Hest. by injection Hest as <-.
  - unfold estimate_total_from_mask in Hest. by rewrite Hp in Hest.
Qed.

(** X22. The totals of the two parts of a hybrid attack. When each part is
    a file without a carriage return, a range, or a mask without a minus
    sign, and [get_generator_for_mask] returns an integer total for each,
    then each total is the number of candidates its part yields, and the
    hybrid generator without a cursor yields as many candidates as the
    product of the two totals. *)
Theorem hybrid_totals_are_exact
  (fs : string -> option string) (mask1 mask2 : string) (n1 n2 : Z) :
  plain_part fs mask1 -> plain_part fs mask2 ->
  get_generator_total fs mask1 = Ok (EstInt n1) ->
  get_generator_total fs mask2 = Ok (EstInt n2) ->
  exists g1 g2 l,
    get_generator_for_mask fs mask1 None = Ok g1 /\ Z.of_nat (length g1) = n1
    /\ get_generator_for_mask fs mask2 None = Ok g2
    /\ Z.of_nat (length g2) = n2
    /\ gen_hybrid fs [mask1; mask2] None = Ok l
    /\ Z.of_nat (length l) = n1 * n2.
Proof.
  intros Hplain1 Hplain2 Ht1 Ht2.
  destruct (part_total_is_exact fs mask1 n1 Hplain1 Ht1) as (g1 & Hg1 & Hn1).
  destruct (part_total_is_exact fs mask2 n2 Hplain2 Ht2) as (g2 & Hg2 & Hn2).
  exists g1, g2. eexists. split; [done|]. split; [done|].
  split; [done|]. split; [done|].
  unfold gen_hybrid. cbn [fst snd]. rewrite Hg1, bind_ok.
  rewrite (hybrid_loop_fresh fs mask2 g1 g2 None Hg2). split; [done|].
  rewrite (flat_map_length_const _ _ (length g2)).
  - rewrite Nat2Z.inj_mul. lia.
  - intros part1. apply length_map.
Qed.

Lemma hybrid_totals_are_exact_witness :
  let fs := fun path => if String.eqb path "words.txt"
                        then Some (unlines ["alpha"; "beta"]) else None in
  exists g1 g2 l,
    get_generator_for_mask fs "words.txt" None = Ok g1
    /\ Z.of_nat (length g1) = 2
    /\ get_generator_for_mask fs "7-9" None = Ok g2
    /\ Z.of_nat (length g2) = 3
    /\ gen_hybrid fs ["words.txt"; "7-9"] None = Ok l
    /\ Z.of_nat (length l) = 2 * 3.
Proof.
  intros fs. apply (hybrid_totals_are_exact fs "words.txt" "7-9" 2 3).
  - apply (bool_decide_unpack _). vm_compute. reflexivity.
  - exact I.
  - vm_compute. reflexivity.
  - vm_compute. reflexivity.
Defined.
